(** * Image optimizer: request normalisation, cache keys and cache layers

    A shallow embedding of [src/optimizer.ts] (schema, pipeline builder,
    [process]) and of the cache backends of [src/cache/], followed by the
    properties proved about them.

    Conventions.
    - A JavaScript number is an integer, a decimal fraction or an infinity
      ([number]); a finite double is identified with the shortest decimal
      that reads back as it, which is the one [Number::toString] prints.
      [NaN] only arises as the outcome of [Number(...)], where it is the
      [None] case. Negative zero is not told from zero: like zero it is
      falsy and is written [0], and it passes or fails the same checks of
      the schema. The numbers of the configuration are integers.
    - JavaScript strings are modelled by [string]; a [Buffer] is a list of
      bytes.
    - A rejected promise / thrown exception is the [Throw] case of [Result].
    - The libraries the code calls (zod, the WHATWG [URL] class, [got],
      [sharp], [JSON.parse], the SHA-1 digest, base64) are taken as a
      [Runtime] record of functions, so that every statement holds for any
      behaviour of these collaborators. *)

From Stdlib Require Import ZArith String Ascii List Lia HexadecimalString.
From stdpp Require Import base option strings list gmap pretty.

Local Open Scope string_scope.
Local Open Scope list_scope.
Local Open Scope Z_scope.

(* ================================================================== *)
(** ** JavaScript numbers *)
(* ================================================================== *)

(** A number other than [NaN]: the integer [z], the decimal [m / 10^e],
    or an infinity. *)
Inductive number :=
| Int (z : Z)
| Dec (m : Z) (e : positive)
| Infinity (negative : bool).
Coercion Int : Z >-> number.

#[global] Instance number_eq_dec : EqDecision number.
Proof. solve_decision. Defined.

(** A finite number as a fraction with a positive denominator. *)
Definition numerator (x : number) : Z :=
  match x with Int z => z | Dec m _ => m | Infinity _ => 0 end.
Definition denominator (x : number) : Z :=
  match x with Dec _ e => 10 ^ Z.pos e | _ => 1 end.

(** [a < b] *)
Definition lt_num (a b : number) : bool :=
  match a, b with
  | Infinity na, Infinity nb => na && negb nb
  | Infinity na, _ => na
  | _, Infinity nb => negb nb
  | _, _ => numerator a * denominator b <? numerator b * denominator a
  end.

(** [a <= b] *)
Definition le_num (a b : number) : bool := negb (lt_num b a).

(** [Number.isInteger(x)], with the integer. *)
Definition to_integer (x : number) : option Z :=
  match x with
  | Int z => Some z
  | Dec m e => if m mod 10 ^ Z.pos e =? 0 then Some (m / 10 ^ Z.pos e) else None
  | Infinity _ => None
  end.

Fixpoint zeros (n : nat) : string :=
  match n with O => "" | S n' => String "0" (zeros n') end.

(** The digits without their trailing zeros. *)
Fixpoint strip_zeros (s : string) : string :=
  match s with
  | EmptyString => EmptyString
  | String c s' =>
      match strip_zeros s' with
      | EmptyString => if Ascii.eqb c "0" then EmptyString else String c EmptyString
      | r => String c r
      end
  end.

(** [d.rest] followed by [e+x] or [e-x] *)
Definition exponent_form (d : ascii) (rest : string) (e : Z) : string :=
  String d (match rest with EmptyString => "" | _ => "." +:+ rest end)
  +:+ "e" +:+ (if 0 <=? e then "+" else "-") +:+ pretty (Z.abs e).

(** [Number::toString] of the positive number [0.digits * 10^n], where
    [digits] are its significant decimal digits: plain digits, digits
    around a decimal point, a fraction below one, or the exponent form. *)
Definition digits_to_string (digits : string) (n : Z) : string :=
  let k := Z.of_nat (String.length digits) in
  match digits with
  | EmptyString => "0"
  | String d rest =>
      if (k <=? n) && (n <=? 21) then digits +:+ zeros (Z.to_nat (n - k))
      else if (0 <? n) && (n <=? 21) then
        substring 0 (Z.to_nat n) digits +:+ "." +:+
        substring (Z.to_nat n) (Z.to_nat (k - n)) digits
      else if (-6 <? n) && (n <=? 0) then "0." +:+ zeros (Z.to_nat (- n)) +:+ digits
      else exponent_form d rest (n - 1)
  end.

Definition sign_text (z : Z) : string := if z <? 0 then "-" else "".

(** [String(x)]: an integer below [10^21] in magnitude is printed in
    plain decimal, a larger one (22 digits or more) in exponent form. *)
Definition number_text (x : number) : string :=
  match x with
  | Int z =>
      if Z.abs z <? 10 ^ 21 then pretty z
      else
        let ds := pretty (Z.abs z) in
        sign_text z +:+
        match strip_zeros ds with
        | String d rest => exponent_form d rest (Z.of_nat (String.length ds) - 1)
        | EmptyString => "0"
        end
  | Dec m e =>
      let ds := pretty (Z.abs m) in
      sign_text m +:+
      digits_to_string (strip_zeros ds) (Z.of_nat (String.length ds) - Z.pos e)
  | Infinity negative => if negative then "-Infinity" else "Infinity"
  end.

(* ================================================================== *)
(** ** JavaScript values and objects *)
(* ================================================================== *)

Inductive jsval :=
| JUndefined
| JNull
| JBool (b : bool)
| JNum (n : number)
| JStr (s : string).

#[global] Instance jsval_eq_dec : EqDecision jsval.
Proof. solve_decision. Defined.

Definition Buffer := list Byte.byte.

(** [if (v)], [v && ...], [!v] *)
Definition truthy (v : jsval) : bool :=
  match v with
  | JUndefined | JNull => false
  | JBool b => b
  | JNum (Int n) => negb (n =? 0)
  | JNum (Dec m _) => negb (m =? 0)
  | JNum (Infinity _) => true
  | JStr s => negb (String.eqb s "")
  end.

Definition truthy_num (o : option Z) : bool :=
  match o with Some n => negb (n =? 0) | None => false end.

Definition truthy_str (o : option string) : bool :=
  match o with Some s => negb (String.eqb s "") | None => false end.

(** An object literal: properties in insertion order. *)
Definition object := list (string * jsval).

(** [o[k]]: the value of the first binding of [k], [undefined] if none. *)
Fixpoint prop (o : object) (k : string) : jsval :=
  match o with
  | [] => JUndefined
  | (k', v) :: o' => if String.eqb k' k then v else prop o' k
  end.

(** [o[k] = v]: overwrite in place, or append a new property. *)
Fixpoint set_prop (o : object) (k : string) (v : jsval) : object :=
  match o with
  | [] => [(k, v)]
  | (k', v') :: o' =>
      if String.eqb k' k then (k, v) :: o' else (k', v') :: set_prop o' k v
  end.

(** The argument of [process]: the [buffer] property is typed apart from
    the scalar properties ([headers] is never read by [process]). *)
Record ProcessInput := {
  in_buffer : option Buffer;
  in_props : object;
}.

(* ================================================================== *)
(** ** Errors *)
(* ================================================================== *)

Inductive error :=
| ZodError                                   (* querySchema.parse threw *)
| HttpError (statusCode : Z) (message : string)
    (* Object.assign(new Error(message), { statusCode }) *)
| TypeError (message : string)               (* new URL(...) threw *)
| FetchError                                 (* got rejected *)
| SharpError                                 (* sharp rejected *)
| SyntaxError                                (* JSON.parse threw *)
| IOError (message : string)                 (* a file or network operation rejected *)
| ConfigError (message : string).            (* new Error(...) at construction *)

Inductive Result (A : Type) :=
| Ok (a : A)
| Throw (e : error).
Arguments Ok {A} a.
Arguments Throw {A} e.

Definition rbind {A B} (r : Result A) (k : A -> Result B) : Result B :=
  match r with Ok a => k a | Throw e => Throw e end.

Definition rmap {A B} (f : A -> B) (r : Result A) : Result B :=
  rbind r (fun a => Ok (f a)).

(** The status the HTTP adapters answer with: [err?.statusCode ?? 500]. *)
Definition statusOf (e : error) : Z :=
  match e with HttpError s _ => s | _ => 500 end.

(* ================================================================== *)
(** ** Enumerations of the schema *)
(* ================================================================== *)

Inductive Fit := cover | contain | fill | inside | outside | crop_fit.
Inductive Format := webp | avif | jpeg | png.
Inductive Crop := smart | center.
Inductive Placeholder := blur_ph | none_ph.

#[global] Instance Fit_eq_dec : EqDecision Fit.
Proof. solve_decision. Defined.
#[global] Instance Format_eq_dec : EqDecision Format.
Proof. solve_decision. Defined.
#[global] Instance Crop_eq_dec : EqDecision Crop.
Proof. solve_decision. Defined.
#[global] Instance Placeholder_eq_dec : EqDecision Placeholder.
Proof. solve_decision. Defined.

Definition Fit_str (f : Fit) : string :=
  match f with
  | cover => "cover" | contain => "contain" | fill => "fill"
  | inside => "inside" | outside => "outside" | crop_fit => "crop"
  end.

Definition Format_str (f : Format) : string :=
  match f with webp => "webp" | avif => "avif" | jpeg => "jpeg" | png => "png" end.

Definition Crop_str (c : Crop) : string :=
  match c with smart => "smart" | center => "center" end.

Definition Placeholder_str (p : Placeholder) : string :=
  match p with blur_ph => "blur" | none_ph => "none" end.

(** [z.enum([...])] on a string: the member with that spelling. *)
Definition enum_of {A} (all : list A) (str : A -> string) (s : string) : option A :=
  List.find (fun a => String.eqb (str a) s) all.

Definition Fit_all := [cover; contain; fill; inside; outside; crop_fit].
Definition Format_all := [webp; avif; jpeg; png].
Definition Crop_all := [smart; center].
Definition Placeholder_all := [blur_ph; none_ph].

(* ================================================================== *)
(** ** [JSON.stringify] on the cache-key object *)
(* ================================================================== *)

Definition dquote : ascii := "034"%char.
Definition backslash : ascii := "092"%char.

Definition hex_digit (n : N) : ascii :=
  if (n <? 10)%N then ascii_of_N (48 + n) else ascii_of_N (87 + n).

(** QuoteJSONString on one code unit. *)
Definition json_escape_char (c : ascii) : string :=
  let n := N_of_ascii c in
  if (n =? 34)%N then String backslash (String dquote "")
  else if (n =? 92)%N then String backslash (String backslash "")
  else if (n =? 8)%N then String backslash "b"
  else if (n =? 9)%N then String backslash "t"
  else if (n =? 10)%N then String backslash "n"
  else if (n =? 12)%N then String backslash "f"
  else if (n =? 13)%N then String backslash "r"
  else if (n <? 32)%N then
    String backslash ("u00" +:+ String (hex_digit (n / 16)) (String (hex_digit (n mod 16)) ""))
  else String c "".

Fixpoint json_escape (s : string) : string :=
  match s with
  | EmptyString => ""
  | String c s' => json_escape_char c +:+ json_escape s'
  end.

Definition json_quote (s : string) : string :=
  String dquote (json_escape s +:+ String dquote "").

(** [JSON.stringify] of a property value; [None] for [undefined], whose
    property is left out of the enclosing object. A number that is not
    finite is written [null]. *)
Definition json_of_val (v : jsval) : option string :=
  match v with
  | JUndefined => None
  | JNull => Some "null"
  | JBool true => Some "true"
  | JBool false => Some "false"
  | JNum (Infinity _) => Some "null"
  | JNum n => Some (number_text n)
  | JStr s => Some (json_quote s)
  end.

Definition json_member (kv : string * jsval) : option string :=
  match json_of_val kv.2 with
  | Some js => Some (json_quote kv.1 +:+ ":" +:+ js)
  | None => None
  end.

Fixpoint join_comma (l : list string) : string :=
  match l with
  | [] => ""
  | [x] => x
  | x :: l' => x +:+ "," +:+ join_comma l'
  end.

Definition JSON_stringify (o : object) : string :=
  "{" +:+ join_comma (omap json_member o) +:+ "}".

(* ================================================================== *)
(** ** The transform engine and the other collaborators *)
(* ================================================================== *)

Inductive Position := centre | attention.

(** The calls chained on the [Sharp] instance, oldest first. *)
Inductive SharpOp :=
| Resize (width height : option Z) (fit : option Fit) (position : option Position)
| Flatten (background : string)
| Blur (sigma : number)
| Grayscale
| Rotate (angle : number)
| Encode (format : Format) (quality : Z).

(** [sh.toBuffer({ resolveWithObject: true })] *)
Record SharpOutput := {
  data : Buffer;
  info_format : string;
  info_width : Z;
  info_height : Z;
}.

Record URL := {
  href : string;       (* what toString() returns *)
  hostname : string;
}.

(** [.default(d).optional()] on an absent property: version 3 of zod lets
    the outer optional answer [undefined] before the default is consulted,
    version 4 applies the default. *)
Inductive ZodMajor := Zod3 | Zod4.

Record Runtime := {
  zod_major : ZodMajor;
  zod_url : string -> bool;                  (* the check of z.string().url() *)
  Number_str : string -> option number;      (* Number(s), None for NaN *)
  new_URL : string -> option URL;            (* None when the constructor throws *)
  got : string -> option Buffer;             (* None when the request rejects *)
  sharp_toBuffer : Buffer -> list SharpOp -> option SharpOutput;
                                              (* None when sharp rejects *)
}.

(** What [process] asks of its collaborators, in order. *)
Inductive Event :=
| EvFetch (url : string)
| EvTransform (source : Buffer) (ops : list SharpOp).

(* ================================================================== *)
(** ** [querySchema] *)
(* ================================================================== *)

Record Parsed := {
  p_url : option string;
  p_w : option Z;
  p_h : option Z;
  p_fit : Fit;
  p_format : option Format;
  p_quality : option Z;
  p_crop : option Crop;
  p_bg : option string;
  p_blur : option number;
  p_grayscale : option bool;
  p_rotate : option number;
  p_placeholder : option Placeholder;
}.

Section Schema.
Context (rt : Runtime).

(** [Number(v)], [None] for [NaN] *)
Definition Number (v : jsval) : option number :=
  match v with
  | JUndefined => None
  | JNull => Some (Int 0)
  | JBool b => Some (Int (if b then 1 else 0))
  | JNum n => Some n
  | JStr s => Number_str rt s
  end.

(** [inner.optional()] *)
Definition z_optional {A} (inner : jsval -> Result A) (v : jsval) : Result (option A) :=
  match v with
  | JUndefined => Ok None
  | _ => rmap Some (inner v)
  end.

(** [inner.default(d)] *)
Definition z_default {A} (d : A) (inner : jsval -> Result A) (v : jsval) : Result A :=
  match v with
  | JUndefined => Ok d
  | _ => inner v
  end.

(** [inner.default(d).optional()] *)
Definition z_default_optional {A} (d : A) (inner : jsval -> Result A) (v : jsval)
  : Result (option A) :=
  match zod_major rt with
  | Zod3 => z_optional (z_default d inner) v
  | Zod4 => rmap Some (z_default d inner v)
  end.

(** [z.string()] followed by a check *)
Definition z_string (check : string -> bool) (v : jsval) : Result string :=
  match v with
  | JStr s => if check s then Ok s else Throw ZodError
  | _ => Throw ZodError
  end.

(** What [z.number()] takes for a number: never [NaN]; version 3 of zod
    lets the infinities through, version 4 refuses them. *)
Definition z_number_ok (n : number) : bool :=
  match zod_major rt, n with
  | Zod4, Infinity _ => false
  | _, _ => true
  end.

(** [z.coerce.number()] followed by a range check *)
Definition z_coerce_number (check : number -> bool) (v : jsval) : Result number :=
  match Number v with
  | Some n => if z_number_ok n && check n then Ok n else Throw ZodError
  | None => Throw ZodError
  end.

(** [z.coerce.number().int()] followed by a range check *)
Definition z_coerce_int (check : Z -> bool) (v : jsval) : Result Z :=
  match Number v with
  | Some n =>
      match to_integer n with
      | Some z => if check z then Ok z else Throw ZodError
      | None => Throw ZodError
      end
  | None => Throw ZodError
  end.

(** [z.coerce.boolean()] *)
Definition z_coerce_boolean (v : jsval) : Result bool := Ok (truthy v).

(** [z.enum([...])] *)
Definition z_enum {A} (all : list A) (str : A -> string) (v : jsval) : Result A :=
  match v with
  | JStr s => match enum_of all str s with Some a => Ok a | None => Throw ZodError end
  | _ => Throw ZodError
  end.

Definition dimension_ok (n : Z) : bool := (0 <? n) && (n <=? 10000).
Definition quality_ok (n : Z) : bool := (1 <=? n) && (n <=? 100).
Definition blur_ok (n : number) : bool := le_num 0 n && le_num n 100.

(** [querySchema.partial({ url: true }).parse(input)]: every property of
    the shape is read from the input by name; unknown properties
    ([buffer], [headers]) are stripped. *)
Definition querySchema_parse (o : object) : Result Parsed :=
  rbind (z_optional (z_optional (z_string (zod_url rt))) (prop o "url")) (fun url =>
  rbind (z_optional (z_coerce_int dimension_ok) (prop o "w")) (fun w =>
  rbind (z_optional (z_coerce_int dimension_ok) (prop o "h")) (fun h =>
  rbind (z_default cover (z_enum Fit_all Fit_str) (prop o "fit")) (fun fit =>
  rbind (z_optional (z_enum Format_all Format_str) (prop o "format")) (fun format =>
  rbind (z_optional (z_coerce_int quality_ok) (prop o "quality")) (fun quality =>
  rbind (z_default_optional center (z_enum Crop_all Crop_str) (prop o "crop")) (fun crop =>
  rbind (z_optional (z_string (fun _ => true)) (prop o "bg")) (fun bg =>
  rbind (z_optional (z_coerce_number blur_ok) (prop o "blur")) (fun blur =>
  rbind (z_optional z_coerce_boolean (prop o "grayscale")) (fun grayscale =>
  rbind (z_optional (z_coerce_number (fun _ => true)) (prop o "rotate")) (fun rotate =>
  rbind (z_optional (z_enum Placeholder_all Placeholder_str) (prop o "placeholder"))
    (fun placeholder =>
  Ok {| p_url := mjoin url; p_w := w; p_h := h; p_fit := fit; p_format := format;
        p_quality := quality; p_crop := crop; p_bg := bg; p_blur := blur;
        p_grayscale := grayscale; p_rotate := rotate;
        p_placeholder := placeholder |})))))))))))).
End Schema.

(* ================================================================== *)
(** ** Results, cache layers and the world [process] runs in *)
(* ================================================================== *)

Record ProcessResult := {
  r_buffer : Buffer;
  r_contentType : string;
  r_etag : string;
  r_width : option Z;
  r_height : option Z;
}.

(** [CacheLayer]: [get] and [set] over the backend's state; either may
    reject. [get] answers [None] for [null] and [undefined], which
    [if (cached)] does not tell apart. *)
Record CacheLayer (St : Type) := {
  cache_get : string -> St -> Result (option ProcessResult) * St;
  cache_set : string -> ProcessResult -> St -> Result unit * St;
}.
Arguments cache_get {St} _ _ _.
Arguments cache_set {St} _ _ _ _.

Record OptimizerConfig := {
  formats : option (list string);
  maxWidth : option Z;
  maxHeight : option Z;
  defaultQuality : option Z;
  whitelist : option (list string);
}.

(** The state of the cache backend and the calls made so far. *)
Record World (St : Type) := {
  w_cache : St;
  w_trace : list Event;
}.
Arguments w_cache {St} _.
Arguments w_trace {St} _.

Definition M (St A : Type) : Type := World St -> Result A * World St.

Definition ret {St A} (a : A) : M St A := fun w => (Ok a, w).
Definition throw {St A} (e : error) : M St A := fun w => (Throw e, w).
Definition lift {St A} (r : Result A) : M St A := fun w => (r, w).

Definition bind {St A B} (m : M St A) (k : A -> M St B) : M St B :=
  fun w => match m w with
           | (Ok a, w') => k a w'
           | (Throw e, w') => (Throw e, w')
           end.

Notation "'let!' x ':=' m 'in' k" := (bind m (fun x => k))
  (at level 10, x pattern, m at level 100, k at level 200).

Definition emit {St} (e : Event) : M St unit :=
  fun w => (Ok tt, {| w_cache := w_cache w; w_trace := w_trace w ++ [e] |}).

(** Run a backend operation on the cache component of the world. *)
Definition on_cache {St A} (op : St -> Result A * St) : M St A :=
  fun w => let '(r, st) := op (w_cache w) in
           (r, {| w_cache := st; w_trace := w_trace w |}).

(* ================================================================== *)
(** ** Helpers of [optimizer.ts] *)
(* ================================================================== *)

(** [bytes.byteLength.toString(16)] *)
Definition hex_of_N (n : N) : string :=
  HexadecimalString.NilZero.string_of_uint (N.to_hex_uint n).

Definition createEtag (bytes : Buffer) : string :=
  let base := hex_of_N (N.of_nat (length bytes)) in
  let sum := fold_left (fun a b => (a + Z.of_N (Byte.to_N b)) mod 65536) (take 64 bytes) 0 in
  "W/" +:+ String dquote (base +:+ "-" +:+ pretty sum +:+ String dquote "").

Definition buildSharpPipeline (input : list SharpOp) (params : Parsed) : list SharpOp :=
  let input :=
    if truthy_num (p_w params) || truthy_num (p_h params) then
      input ++ [Resize (p_w params) (p_h params)
                  (Some (if decide (p_fit params = crop_fit) then cover else p_fit params))
                  (Some (if decide (p_crop params = Some center) then centre else attention))]
    else input in
  let input :=
    match p_bg params with
    | Some bg => if truthy (JStr bg) then input ++ [Flatten bg] else input
    | None => input
    end in
  let input :=
    match p_blur params with
    | Some blur => if truthy (JNum blur) then input ++ [Blur blur] else input
    | None => input
    end in
  let input :=
    match p_grayscale params with
    | Some true => input ++ [Grayscale]
    | _ => input
    end in
  let input :=
    match p_rotate params with
    | Some rotate => if truthy (JNum rotate) then input ++ [Rotate rotate] else input
    | None => input
    end in
  input.

Definition formatToContentType (format : option string) : string :=
  match format with
  | Some "webp" => "image/webp"
  | Some "avif" => "image/avif"
  | Some "jpeg" => "image/jpeg"
  | Some "png" => "image/png"
  | _ => "application/octet-stream"
  end.

(** [s.endsWith(d)] *)
Definition endsWith (s d : string) : bool :=
  let ls := String.length s in
  let ld := String.length d in
  (ld <=? ls)%nat && String.eqb (substring (ls - ld) ld s) d.

Definition opt_val {A} (f : A -> jsval) (o : option A) : jsval :=
  match o with Some a => f a | None => JUndefined end.

(* ================================================================== *)
(** ** [createImageOptimizer(config).process] *)
(* ================================================================== *)

Section Optimizer.
Context (rt : Runtime) {St : Type}.
Context (config : OptimizerConfig) (cache : option (CacheLayer St)).

(** [fetchImage] of [src/fetch.ts] *)
Definition fetchImage (url : string) : M St Buffer :=
  let! _ := emit (EvFetch url) in
  match got rt url with
  | Some body => ret body
  | None => throw FetchError
  end.

Definition allowedFormats : list string :=
  default ["webp"; "avif"; "jpeg"; "png"] (formats config).

Definition allowedFormats_has (f : Format) : bool :=
  bool_decide (Format_str f ∈ allowedFormats).

Definition defaultQuality' : Z := default 80 (defaultQuality config).

(** The callback of [config.whitelist.some(...)] *)
Definition whitelist_entry_matches (url d : string) : bool :=
  match new_URL rt url with
  | Some u => endsWith (hostname u) d
  | None => false
  end.

(** [if (config.whitelist && parsed.url) { ... if (!allowed) throw ... }] *)
Definition check_whitelist (parsed : Parsed) : Result unit :=
  match whitelist config, p_url parsed with
  | Some wl, Some url =>
      if truthy (JStr url) then
        if existsb (whitelist_entry_matches url) wl then Ok tt
        else Throw (HttpError 403 "Source URL not allowed")
      else Ok tt
  | _, _ => Ok tt
  end.

(** [v > m] for a number [m] *)
Definition gt_num (v : jsval) (m : Z) : bool :=
  match Number rt v with Some n => lt_num m n | None => false end.

(** One line of "Enforce maximum dimensions if configured":
    [if (max && input.k && input.k > max) input.k = max] *)
Definition enforce_max_on (k : string) (max : option Z) (o : object) : object :=
  match max with
  | Some m =>
      if truthy (JNum m) && truthy (prop o k) && gt_num (prop o k) m
      then set_prop o k (JNum m) else o
  | None => o
  end.

(** The caller's [input] object after the two assignments. *)
Definition enforce_max (input : ProcessInput) : ProcessInput :=
  {| in_buffer := in_buffer input;
     in_props := enforce_max_on "h" (maxHeight config)
                   (enforce_max_on "w" (maxWidth config) (in_props input)) |}.

(** The object literal handed to [JSON.stringify], [u] already computed. *)
Definition cacheKey_object (u : string) (parsed : Parsed) : object :=
  [ ("u", JStr u);
    ("w", opt_val (fun w : Z => JNum w) (p_w parsed));
    ("h", opt_val (fun h : Z => JNum h) (p_h parsed));
    ("fit", JStr (Fit_str (p_fit parsed)));
    ("f", opt_val (fun f => JStr (Format_str f)) (p_format parsed));
    ("q", JNum (default defaultQuality' (p_quality parsed)));
    ("c", opt_val (fun c => JStr (Crop_str c)) (p_crop parsed));
    ("bg", opt_val JStr (p_bg parsed));
    ("bl", opt_val JNum (p_blur parsed));
    ("gs", opt_val JBool (p_grayscale parsed));
    ("r", opt_val JNum (p_rotate parsed));
    ("p", opt_val (fun p => JStr (Placeholder_str p)) (p_placeholder parsed)) ].

(** [parsed.url ? new URL(parsed.url).toString() : "buffer"] *)
Definition source_identity (parsed : Parsed) : Result string :=
  if truthy_str (p_url parsed) then
    match new_URL rt (default "" (p_url parsed)) with
    | Some u => Ok (href u)
    | None => Throw (TypeError "Invalid URL")
    end
  else Ok "buffer".

Definition cacheKey (parsed : Parsed) : Result string :=
  rmap (fun u => JSON_stringify (cacheKey_object u parsed)) (source_identity parsed).

(** [parsed.format && allowedFormats.has(parsed.format) ? parsed.format : undefined] *)
Definition effective_format (parsed : Parsed) : option Format :=
  match p_format parsed with
  | Some f => if allowedFormats_has f then Some f else None
  | None => None
  end.

(** Every call chained on [sh] between [sharp(sourceBuffer)] and
    [toBuffer]. *)
Definition pipeline (parsed : Parsed) : list SharpOp :=
  let sh := buildSharpPipeline [] parsed in
  let q := default defaultQuality' (p_quality parsed) in
  let sh :=
    if decide (p_placeholder parsed = Some blur_ph)
    then sh ++ [Resize (Some 10) None None None; Blur 10] else sh in
  match effective_format parsed with
  | Some f => sh ++ [Encode f q]
  | None => sh
  end.

Definition result_of (parsed : Parsed) (output : SharpOutput) : ProcessResult :=
  {| r_buffer := data output;
     r_contentType :=
       match effective_format parsed with
       | Some f => formatToContentType (Some (Format_str f))
       | None =>
           if truthy (JStr (info_format output))
           then formatToContentType (Some (info_format output))
           else "application/octet-stream"
       end;
     r_etag := createEtag (data output);
     r_width := Some (info_width output);
     r_height := Some (info_height output) |}.

(** [let sourceBuffer ...]; without a buffer [parsed.url] is a non-empty
    string here, the other case having been refused with status 400. *)
Definition sourceBuffer (input : ProcessInput) (parsed : Parsed) : M St Buffer :=
  match in_buffer input with
  | Some b => ret b
  | None => fetchImage (default "" (p_url parsed))
  end.

Definition transform (source : Buffer) (ops : list SharpOp) : M St SharpOutput :=
  let! _ := emit (EvTransform source ops) in
  match sharp_toBuffer rt source ops with
  | Some out => ret out
  | None => throw SharpError
  end.

(** Everything after a cache miss. *)
Definition process_miss (input : ProcessInput) (parsed : Parsed) (key : string)
  : M St ProcessResult :=
  let! source := sourceBuffer input parsed in
  let! output := transform source (pipeline parsed) in
  let result := result_of parsed output in
  let! _ := match cache with
            | Some c => on_cache (cache_set c key result)
            | None => ret tt
            end in
  ret result.

Definition process (input : ProcessInput) : M St ProcessResult :=
  let! parsed := lift (querySchema_parse rt (in_props input)) in
  if negb (bool_decide (is_Some (in_buffer input))) && negb (truthy_str (p_url parsed))
  then throw (HttpError 400 "No input provided")
  else
    let! _ := lift (check_whitelist parsed) in
    let input := enforce_max input in
    let! key := lift (cacheKey parsed) in
    let! cached := match cache with
                   | Some c => on_cache (cache_get c key)
                   | None => ret None
                   end in
    match cached with
    | Some hit => ret hit
    | None => process_miss input parsed key
    end.

(** The steps of [process] that come before the cache lookup: the parsed
    request and its cache key, or the error thrown on the way. *)
Definition prepare (input : ProcessInput) : Result (Parsed * string) :=
  rbind (querySchema_parse rt (in_props input)) (fun parsed =>
    if negb (bool_decide (is_Some (in_buffer input))) && negb (truthy_str (p_url parsed))
    then Throw (HttpError 400 "No input provided")
    else rbind (check_whitelist parsed) (fun _ =>
           rmap (fun key => (parsed, key)) (cacheKey parsed))).

(** [deriveKey]: from the raw properties to the key string. *)
Definition deriveKey (props : object) : Result string :=
  rbind (querySchema_parse rt props) cacheKey.
End Optimizer.

Definition world0 {St} (st : St) : World St := {| w_cache := st; w_trace := [] |}.

(** The hostname of [url] ends with the allowlist entry [d]. *)
Definition hostname_ends_with (rt : Runtime) (url d : string) : Prop :=
  exists u pre, new_URL rt url = Some u /\ hostname u = pre +:+ d.

Definition without_whitelist (config : OptimizerConfig) : OptimizerConfig :=
  {| formats := formats config; maxWidth := maxWidth config; maxHeight := maxHeight config;
     defaultQuality := defaultQuality config; whitelist := None |}.

Definition access_denied : error := HttpError 403 "Source URL not allowed".

(** The event is a transform of the bytes [b]. *)
Definition transforms (b : Buffer) (ev : Event) : Prop :=
  exists ops, ev = EvTransform b ops.

Definition is_encode (op : SharpOp) : bool :=
  match op with Encode _ _ => true | _ => false end.

(** The configuration with other maxima. *)
Definition with_max (config : OptimizerConfig) (mw mh : option Z) : OptimizerConfig :=
  {| formats := formats config; maxWidth := mw; maxHeight := mh;
     defaultQuality := defaultQuality config; whitelist := whitelist config |}.

(* ================================================================== *)
(** ** [src/cache/disk.ts] *)
(* ================================================================== *)

(** [CacheConfig] without its [type] tag. *)
Record CacheConfig := {
  path : option string;
  ttl : option Z;
}.

(** What [JSON.stringify(rec)] writes for a result: the buffer as base64
    text, the other members as they are. *)
Record Stored := {
  st_buffer : string;
  st_contentType : string;
  st_etag : string;
  st_width : option Z;
  st_height : option Z;
}.

Record CacheRecord := {
  value : Stored;
  expiresAt : option Z;
}.

(** The node built-ins the disk backend relies on. *)
Record Codec := {
  sha1_hex : string -> string;
  path_join : string -> string -> string;
  JSON_parse : string -> option CacheRecord;     (* None when it throws *)
  JSON_stringify_record : CacheRecord -> string;
  JSON_parse_stored : string -> option Stored;   (* None when it throws *)
  JSON_stringify_stored : Stored -> string;
  base64_encode : Buffer -> string;
  base64_decode : string -> Buffer;
}.

(** [rec.value] with its buffer turned back into bytes:
    [Buffer.from(value.buffer, "base64")]. *)
Definition revive (cd : Codec) (s : Stored) : ProcessResult :=
  {| r_buffer := base64_decode cd (st_buffer s);
     r_contentType := st_contentType s;
     r_etag := st_etag s;
     r_width := st_width s;
     r_height := st_height s |}.

(** [{ ...value, buffer: value.buffer.toString("base64") }] *)
Definition serializable (cd : Codec) (v : ProcessResult) : Stored :=
  {| st_buffer := base64_encode cd (r_buffer v);
     st_contentType := r_contentType v;
     st_etag := r_etag v;
     st_width := r_width v;
     st_height := r_height v |}.

Module Disk.
(** The file system as the backend sees it: the regular files by path,
    the directories [mkdir -p] cannot create, and the clock. *)
Record State := {
  files : gmap string string;
  blocked : gset string;
  now : Z;
}.

Definition with_files (st : State) (fs : gmap string string) : State :=
  {| files := fs; blocked := blocked st; now := now st |}.

Section Backend.
Context (cd : Codec) (cfg : CacheConfig).

Definition dir : string := default ".cache/images" (path cfg).

(** [cfg.ttl ? cfg.ttl * 1000 : null] *)
Definition ttlMs : option Z :=
  match ttl cfg with
  | Some t => if truthy (JNum t) then Some (t * 1000) else None
  | None => None
  end.

(** [fs.mkdir(dir, { recursive: true })] *)
Definition ensureDir (st : State) : Result unit :=
  if bool_decide (dir ∈ blocked st) then Throw (IOError "mkdir") else Ok tt.

Definition fileForKey (key : string) : string :=
  path_join cd dir (sha1_hex cd key +:+ ".json").

(** [rec.expiresAt && Date.now() > rec.expiresAt] *)
Definition expired (st : State) (rec : CacheRecord) : bool :=
  match expiresAt rec with
  | Some e => truthy (JNum e) && (e <? now st)
  | None => false
  end.

(** The body of the [try] block of [get]; [None] when it throws, which
    the [catch] turns into [null]. [fs.rm(file).catch(() => {})] on the
    file just read removes it. *)
Definition get_try (file : string) (st : State)
  : option (option ProcessResult * State) :=
  match files st !! file with
  | None => None
  | Some raw =>
      match JSON_parse cd raw with
      | None => None
      | Some rec =>
          if expired st rec
          then Some (None, with_files st (delete file (files st)))
          else Some (Some (revive cd (value rec)), st)
      end
  end.

Definition get (key : string) (st : State) : Result (option ProcessResult) * State :=
  match ensureDir st with
  | Throw e => (Throw e, st)
  | Ok _ =>
      match get_try (fileForKey key) st with
      | Some (r, st') => (Ok r, st')
      | None => (Ok None, st)
      end
  end.

Definition set (key : string) (v : ProcessResult) (st : State) : Result unit * State :=
  match ensureDir st with
  | Throw e => (Throw e, st)
  | Ok _ =>
      let file := fileForKey key in
      let expiresAt :=
      match ttlMs with
      | Some t => if truthy (JNum t) then Some (now st + t) else None
      | None => None
      end in
      let rec := {| value := serializable cd v; expiresAt := expiresAt |} in
      (Ok tt, with_files st (<[file := JSON_stringify_record cd rec]> (files st)))
  end.

Definition createDiskCache : CacheLayer State :=
  {| cache_get := get; cache_set := set |}.
End Backend.
End Disk.

(** The same files read at another time. *)
Definition at_time (st : Disk.State) (t : Z) : Disk.State :=
  {| Disk.files := Disk.files st; Disk.blocked := Disk.blocked st; Disk.now := t |}.

(* ================================================================== *)
(** ** [src/cache/redis.ts] *)
(* ================================================================== *)

Module Redis.
(** [MinimalRedisClient], over the state of the server it talks to. *)
Record Client (St : Type) := {
  client_get : string -> St -> Result (option string) * St;
  client_set : string -> string -> Z -> St -> Result unit * St;
}.
Arguments client_get {St} _ _ _.
Arguments client_set {St} _ _ _ _ _.

Section Backend.
Context (cd : Codec) {St : Type} (cfg : CacheConfig) (client : Client St).

Definition ttlSeconds : Z := default (60 * 60) (ttl cfg).

Definition get (key : string) (st : St) : Result (option ProcessResult) * St :=
  match client_get client key st with
  | (Throw e, st') => (Throw e, st')
  | (Ok None, st') => (Ok None, st')
  | (Ok (Some raw), st') =>
      if truthy (JStr raw) then
        match JSON_parse_stored cd raw with
        | Some v => (Ok (Some (revive cd v)), st')
        | None => (Throw SyntaxError, st')
        end
      else (Ok None, st')
  end.

Definition set (key : string) (v : ProcessResult) (st : St) : Result unit * St :=
  client_set client key (JSON_stringify_stored cd (serializable cd v)) ttlSeconds st.
End Backend.

Definition createRedisCache (cd : Codec) {St : Type} (cfg : CacheConfig)
    (client : option (Client St)) : Result (CacheLayer St) :=
  match client with
  | None => Throw (ConfigError "Redis cache requires a provided ioredis client via config.client")
  | Some c => Ok {| cache_get := get cd c; cache_set := set cd cfg c |}
  end.
End Redis.

(* ================================================================== *)
(** ** [src/cache/memory.ts] *)
(* ================================================================== *)

Module Memory.
(** The [LRUCache] class comes from the lru-cache package; its documented
    behaviour is modelled here (bounded entry count, TTL expiry,
    least-recently-used eviction): entries are kept most recently used
    first, each with its insertion time. *)
Record State := {
  entries : list (string * (ProcessResult * Z));
  now : Z;
}.

Definition max : nat := 500.

Fixpoint lookup (key : string) (l : list (string * (ProcessResult * Z)))
  : option (ProcessResult * Z) :=
  match l with
  | [] => None
  | (k, e) :: l' => if String.eqb k key then Some e else lookup key l'
  end.

Definition remove (key : string) (l : list (string * (ProcessResult * Z))) :=
  filter (fun kv => kv.1 ≠ key) l.

Section Backend.
Context (cfg : CacheConfig).

(** [(cfg.ttl ?? 60 * 60) * 1000] *)
Definition ttlMs : Z := default (60 * 60) (ttl cfg) * 1000.

Definition stale (st : State) (start : Z) : bool :=
  negb (ttlMs =? 0) && (ttlMs <? now st - start).

(** [cache.get(key) ?? null] *)
Definition get (key : string) (st : State) : Result (option ProcessResult) * State :=
  match lookup key (entries st) with
  | None => (Ok None, st)
  | Some (v, start) =>
      if stale st start
      then (Ok None, {| entries := remove key (entries st); now := now st |})
      else (Ok (Some v),
            {| entries := (key, (v, start)) :: remove key (entries st); now := now st |})
  end.

(** [cache.set(key, value)] *)
Definition set (key : string) (v : ProcessResult) (st : State) : Result unit * State :=
  (Ok tt, {| entries := take max ((key, (v, now st)) :: remove key (entries st));
             now := now st |}).

Definition createMemoryCache : CacheLayer State :=
  {| cache_get := get; cache_set := set |}.
End Backend.
End Memory.

(* ================================================================== *)
(** ** Concrete collaborators used to run the model *)
(* ================================================================== *)

Module Demo.
(** The text after the first [://]. *)
Fixpoint after_scheme (s : string) : option string :=
  match s with
  | String ":" (String "/" (String "/" rest)) => Some rest
  | String _ s' => after_scheme s'
  | EmptyString => None
  end.

Fixpoint until_slash (s : string) : string :=
  match s with
  | String "/" _ => ""
  | String c s' => String c (until_slash s')
  | EmptyString => ""
  end.

(** A URL parser for [scheme://host/path] strings. *)
Definition URL_of (s : string) : option URL :=
  match after_scheme s with
  | Some rest => Some {| href := s; hostname := until_slash rest |}
  | None => None
  end.

(** An engine that copies its input and reports a 10x10 PNG. *)
Definition engine (source : Buffer) (ops : list SharpOp) : option SharpOutput :=
  Some {| data := source; info_format := "png"; info_width := 10; info_height := 10 |}.

Definition remote (url : string) : option Buffer :=
  Some [Byte.x89; Byte.x50; Byte.x4e; Byte.x47].

Definition runtime (major : ZodMajor) : Runtime :=
  {| zod_major := major;
     zod_url := fun s => bool_decide (is_Some (URL_of s));
     Number_str := fun _ => None;
     new_URL := URL_of;
     got := remote;
     sharp_toBuffer := engine |}.

Definition codec : Codec :=
  {| sha1_hex := fun k => k;
     path_join := fun d f => d +:+ "/" +:+ f;
     JSON_parse := fun raw =>
       if String.eqb raw "stale"
       then Some {| value := {| st_buffer := ""; st_contentType := "image/png";
                                st_etag := "e"; st_width := None; st_height := None |};
                    expiresAt := Some 5 |}
       else None;
     JSON_stringify_record := fun _ => "record";
     JSON_parse_stored := fun _ => None;
     JSON_stringify_stored := fun _ => "stored";
     base64_encode := fun _ => "";
     base64_decode := fun _ => [] |}.

Definition no_limits : OptimizerConfig :=
  {| formats := None; maxWidth := None; maxHeight := None;
     defaultQuality := None; whitelist := None |}.

Definition red : Buffer := [Byte.x01; Byte.x02; Byte.x03].
Definition blue : Buffer := [Byte.x09; Byte.x08].

Definition memory_cfg : CacheConfig := {| path := None; ttl := None |}.
Definition memory0 : Memory.State := {| Memory.entries := []; Memory.now := 1000 |}.
Definition memory : CacheLayer Memory.State := Memory.createMemoryCache memory_cfg.

(** [{ maxWidth: 4000 }] and [{ buffer, w: 9000, crop: "center" }] *)
Definition capped : OptimizerConfig :=
  {| formats := None; maxWidth := Some 4000; maxHeight := None;
     defaultQuality := None; whitelist := None |}.
Definition wide : ProcessInput :=
  {| in_buffer := Some red; in_props := [("w", JNum 9000); ("crop", JStr "center")] |}.

(** [{ buffer, w: 5 }], with and without an explicit crop *)
Definition small : ProcessInput :=
  {| in_buffer := Some red; in_props := [("w", JNum 5)] |}.
Definition small_center : ProcessInput :=
  {| in_buffer := Some red; in_props := [("w", JNum 5); ("crop", JStr "center")] |}.
Definition small_blue : ProcessInput :=
  {| in_buffer := Some blue; in_props := [("w", JNum 5)] |}.

(** The same request written in two property orders. *)
Definition ordered : object :=
  [("url", JStr "https://cdn.example.com/x.png"); ("w", JNum 800); ("h", JNum 600);
   ("format", JStr "webp")].
Definition shuffled : object :=
  [("format", JStr "webp"); ("h", JNum 600); ("url", JStr "https://cdn.example.com/x.png");
   ("w", JNum 800)].

(** [{ whitelist: ["example.com"] }] and two remote sources *)
Definition gated : OptimizerConfig :=
  {| formats := None; maxWidth := None; maxHeight := None;
     defaultQuality := None; whitelist := Some ["example.com"] |}.
Definition from_evil : ProcessInput :=
  {| in_buffer := None; in_props := [("url", JStr "https://evil.com/x.png")] |}.
Definition from_cdn : ProcessInput :=
  {| in_buffer := None; in_props := [("url", JStr "https://cdn.example.com/x.png")] |}.
Definition tagged : ProcessInput :=
  {| in_buffer := Some red; in_props := [("url", JStr "https://cdn.example.com/x.png")] |}.
Definition tagged_blue : ProcessInput :=
  {| in_buffer := Some blue; in_props := [("url", JStr "https://cdn.example.com/x.png")] |}.

(** [{ formats: ["png"] }] and [{ buffer, format: "webp" }] *)
Definition png_only : OptimizerConfig :=
  {| formats := Some ["png"]; maxWidth := None; maxHeight := None;
     defaultQuality := None; whitelist := None |}.
Definition as_webp : ProcessInput :=
  {| in_buffer := Some red; in_props := [("format", JStr "webp")] |}.

(** A disk cache holding one record that expired at time 5, read at
    time 10. *)
Definition disk_cfg : CacheConfig := {| path := None; ttl := Some 1 |}.
Definition disk0 : Disk.State :=
  {| Disk.files := {[ ".cache/images/k.json" := "stale" ]};
     Disk.blocked := ∅;
     Disk.now := 10 |}.

(** A client of a read-only replica: lookups miss, writes are refused. *)
Definition readonly_client : Redis.Client unit :=
  {| Redis.client_get := fun _ st => (Ok None, st);
     Redis.client_set := fun _ _ _ st => (Throw (IOError "READONLY"), st) |}.
Definition readonly : CacheLayer unit :=
  {| cache_get := Redis.get codec readonly_client;
     cache_set := Redis.set codec memory_cfg readonly_client |}.
End Demo.

(* ================================================================== *)
(** ** The HTTP adapter of [createImageOptimizer] *)
(* ================================================================== *)

(** [{ ...parsed, url: parsed.url }]: the parsed query as the object the
    adapter hands to [process]; an absent member reads as [undefined]. *)
Definition object_of_parsed (p : Parsed) : object :=
  [ ("url", opt_val JStr (p_url p));
    ("w", opt_val (fun w : Z => JNum w) (p_w p));
    ("h", opt_val (fun h : Z => JNum h) (p_h p));
    ("fit", JStr (Fit_str (p_fit p)));
    ("format", opt_val (fun f => JStr (Format_str f)) (p_format p));
    ("quality", opt_val (fun q : Z => JNum q) (p_quality p));
    ("crop", opt_val (fun c => JStr (Crop_str c)) (p_crop p));
    ("bg", opt_val JStr (p_bg p));
    ("blur", opt_val JNum (p_blur p));
    ("grayscale", opt_val JBool (p_grayscale p));
    ("rotate", opt_val JNum (p_rotate p));
    ("placeholder", opt_val (fun x => JStr (Placeholder_str x)) (p_placeholder p)) ].

Definition buildCacheHeaders (result : ProcessResult) (ttlSeconds : option Z)
  : list (string * string) :=
  [ ("Content-Type", r_contentType result);
    ("ETag", r_etag result);
    ("Cache-Control",
      match ttlSeconds with
      | Some t =>
          if truthy (JNum t)
          then "public, max-age=" +:+ pretty t +:+ ", s-maxage=" +:+ pretty t
          else "public, max-age=0"
      | None => "public, max-age=0"
      end) ].

Module Express.
(** What the middleware reads of [req]: the method, the query and the
    [if-none-match] header. *)
Record Request := {
  method : string;
  query : object;
  if_none_match : jsval;
}.

Inductive Body :=
| NoBody                      (* end() *)
| Image (bytes : Buffer)      (* end(result.buffer) *)
| ErrorJson (e : error).      (* json({ error: err.message }) *)

Record Response := {
  status : Z;
  headers : list (string * string);
  body : Body;
}.

Section Middleware.
Context (rt : Runtime) {St : Type}.
Context (config : OptimizerConfig) (cache : option (CacheLayer St)).
Context (cache_cfg : option CacheConfig).

(** [config.cache?.ttl] *)
Definition ttlSeconds : option Z :=
  match cache_cfg with Some c => ttl c | None => None end.

(** [querySchema.parse(req.query)] then
    [process({ ...parsed, url: parsed.url })] *)
Definition handle (req : Request) : M St ProcessResult :=
  let! parsed := lift (querySchema_parse rt (query req)) in
  process rt config cache {| in_buffer := None; in_props := object_of_parsed parsed |}.

(** [ifNoneMatch && ifNoneMatch === result.etag] *)
Definition etag_matches (v : jsval) (etag : string) : bool :=
  truthy v && match v with JStr s => String.eqb s etag | _ => false end.

(** The [try] block. *)
Definition respond (req : Request) : M St Response :=
  if String.eqb (method req) "HEAD" then
    let! result := handle req in
    ret {| status := 200; headers := buildCacheHeaders result ttlSeconds; body := NoBody |}
  else
    let! result := handle req in
    if etag_matches (if_none_match req) (r_etag result)
    then ret {| status := 304; headers := []; body := NoBody |}
    else ret {| status := 200; headers := buildCacheHeaders result ttlSeconds;
                body := Image (r_buffer result) |}.

(** [expressMiddleware]: the [try] block, and the [catch] that answers
    with [err?.statusCode ?? 500]. *)
Definition expressMiddleware (req : Request) (w : World St) : Response * World St :=
  match respond req w with
  | (Ok res, w') => (res, w')
  | (Throw e, w') => ({| status := statusOf e; headers := []; body := ErrorJson e |}, w')
  end.
End Middleware.
End Express.

(* ================================================================== *)
(** ** Further concrete collaborators *)
(* ================================================================== *)

Module Fixture.
Definition png_result : ProcessResult :=
  {| r_buffer := Demo.red; r_contentType := "image/png"; r_etag := createEtag Demo.red;
     r_width := Some 10; r_height := Some 10 |}.

Definition png_stored : Stored :=
  {| st_buffer := "AQID"; st_contentType := "image/png"; st_etag := createEtag Demo.red;
     st_width := Some 10; st_height := Some 10 |}.

(** A codec that knows the one result above: its bytes, its record with
    and without an expiry, and nothing else. *)
Definition codec : Codec :=
  {| sha1_hex := fun k => k;
     path_join := fun d f => d +:+ "/" +:+ f;
     JSON_parse := fun raw =>
       if String.eqb raw "fresh" then Some {| value := png_stored; expiresAt := None |}
       else if String.eqb raw "until-3000"
       then Some {| value := png_stored; expiresAt := Some 3000 |}
       else None;
     JSON_stringify_record := fun rec =>
       match expiresAt rec with None => "fresh" | Some _ => "until-3000" end;
     JSON_parse_stored := fun raw =>
       if String.eqb raw "stored" then Some png_stored else None;
     JSON_stringify_stored := fun _ => "stored";
     base64_encode := fun _ => "AQID";
     base64_decode := fun _ => Demo.red |}.

Definition disk_forever : CacheConfig := {| path := None; ttl := None |}.
Definition disk_two_seconds : CacheConfig := {| path := None; ttl := Some 2 |}.
Definition empty_disk : Disk.State :=
  {| Disk.files := ∅; Disk.blocked := ∅; Disk.now := 1000 |}.
Definition corrupt_disk : Disk.State :=
  {| Disk.files := {[ ".cache/images/k.json" := "garbage" ]};
     Disk.blocked := ∅; Disk.now := 1000 |}.
Definition blocked_disk : Disk.State :=
  {| Disk.files := ∅; Disk.blocked := {[ ".cache/images" ]}; Disk.now := 1000 |}.


(** A client over a map from keys to payloads; expiry is left to the
    server and not modelled. *)
Definition kv_client : Redis.Client (gmap string string) :=
  {| Redis.client_get := fun k st => (Ok (st !! k), st);
     Redis.client_set := fun k v _ st => (Ok tt, <[k := v]> st) |}.

Definition no_cache : option (CacheLayer unit) := None.

(** A runtime whose [Number] reads the one text [800]. *)
Definition runtime : Runtime :=
  {| zod_major := Zod3;
     zod_url := fun s => bool_decide (is_Some (Demo.URL_of s));
     Number_str := fun s => if String.eqb s "800" then Some (Int 800) else None;
     new_URL := Demo.URL_of;
     got := Demo.remote;
     sharp_toBuffer := Demo.engine |}.

(** The query of [GET /?url=https://cdn.example.com/x.png&w=800], its
    values the strings of the query string. *)
Definition get_image : Express.Request :=
  {| Express.method := "GET";
     Express.query := [("url", JStr "https://cdn.example.com/x.png"); ("w", JStr "800")];
     Express.if_none_match := JUndefined |}.

Definition get_image_parsed : Parsed :=
  {| p_url := Some "https://cdn.example.com/x.png"; p_w := Some 800; p_h := None;
     p_fit := cover; p_format := None; p_quality := None; p_crop := None; p_bg := None;
     p_blur := None; p_grayscale := None; p_rotate := None; p_placeholder := None |}.
End Fixture.

(* ================================================================== *)
(** ** Vocabulary of the further properties *)
(* ================================================================== *)

(** The memory backend's state at another clock reading. *)
Definition memory_at_time (st : Memory.State) (t : Z) : Memory.State :=
  {| Memory.entries := Memory.entries st; Memory.now := t |}.

(** The plain sum of the bytes. *)
Definition byte_sum (bytes : Buffer) : Z :=
  foldr (fun b acc => Z.of_N (Byte.to_N b) + acc) 0 bytes.

(** The resize asks for the fit mode [crop], which sharp does not know. *)
Definition resizes_with_crop_fit (op : SharpOp) : Prop :=
  exists w h pos, op = Resize w h (Some crop_fit) pos.

(** The width and height a resize asks for lie within [1, 10000]. *)
Definition resize_within_bounds (op : SharpOp) : Prop :=
  forall w h f pos, op = Resize w h f pos ->
    (forall n, w = Some n -> 0 < n <= 10000) /\ (forall n, h = Some n -> 0 < n <= 10000).

(** A digit or the minus sign: the characters of an integer in plain
    decimal. *)
Definition plain_char (c : ascii) : bool :=
  let n := N_of_ascii c in ((48 <=? n)%N && (n <=? 57)%N) || (n =? 45)%N.

Fixpoint plain (s : string) : bool :=
  match s with
  | EmptyString => true
  | String c s' => plain_char c && plain s'
  end.

(** A character of a serialised finite number: those of an integer, the
    decimal point, and [e] and [+] of the exponent form. *)
Definition numeric_char (c : ascii) : bool :=
  let n := N_of_ascii c in
  plain_char c || (n =? 46)%N || (n =? 101)%N || (n =? 43)%N.

Fixpoint numeric (s : string) : bool :=
  match s with
  | EmptyString => true
  | String c s' => numeric_char c && numeric s'
  end.

(** The text goes on with a comma or a closing brace. *)
Definition delimited (s : string) : Prop :=
  exists r, s = String "," r \/ s = String "}" r.

(** [a] starts [b]. *)
Fixpoint starts (a b : string) : bool :=
  match a, b with
  | EmptyString, _ => true
  | String c a', String d b' => Ascii.eqb c d && starts a' b'
  | String _ _, EmptyString => false
  end.

Definition all_ascii : list ascii := map ascii_of_nat (seq 0 256).

(** The escapes of two distinct characters: neither starts the other. *)
Definition escapes_apart (c1 c2 : ascii) : bool :=
  Ascii.eqb c1 c2 || negb (starts (json_escape_char c1) (json_escape_char c2)).

Definition escape_head_ok (c : ascii) : bool :=
  match json_escape_char c with
  | String h _ => negb (Ascii.eqb h dquote)
  | EmptyString => false
  end.

(** [JSON.stringify] of a defined value. *)
Definition val_str (v : jsval) : string := default "" (json_of_val v).

Definition member_str (kv : string * jsval) : string :=
  json_quote kv.1 +:+ ":" +:+ val_str kv.2.

(** The members [JSON.stringify] keeps. *)
Definition defined (o : list (string * jsval)) : list (string * jsval) :=
  filter (fun kv => kv.2 <> JUndefined) o.

(** What follows the first member of a list. *)
Definition rest_str (l : list string) : string :=
  match l with [] => "" | _ :: _ => "," +:+ join_comma l end.

(** A member as [JSON.stringify] shows it: its name and the text of its
    value. *)
Definition member_text (kv : string * jsval) : string * string :=
  (kv.1, val_str kv.2).

(** The text recorded under a name, if any. *)
Fixpoint text_of (k : string) (l : list (string * string)) : option string :=
  match l with
  | [] => None
  | (k', t) :: l' => if String.eqb k' k then Some t else text_of k l'
  end.

(** A decimal digit. *)
Definition digit_char (c : ascii) : bool :=
  let n := N_of_ascii c in (48 <=? n)%N && (n <=? 57)%N.

(** A string of decimal digits. *)
Fixpoint digits (s : string) : bool :=
  match s with
  | EmptyString => true
  | String c s' => digit_char c && digits s'
  end.

(** The character occurs in the string. *)
Fixpoint contains (c : ascii) (s : string) : bool :=
  match s with
  | EmptyString => false
  | String d s' => Ascii.eqb c d || contains c s'
  end.

(** The digits of a natural number, none for zero. *)
Definition digits_of (x : N) : string := pretty_N_go x "".

(** Significant digits: decimal digits that neither start nor end with a
    zero. *)
Definition significant (s : string) : Prop :=
  digits s = true /\ strip_zeros s = s /\
  exists d r, s = String d r /\ Ascii.eqb d "0" = false.

(** Which form a text has: 3 with an exponent, otherwise 1 or 2 with a
    decimal point (2 when it starts with a zero), otherwise 4 when it
    starts with a zero and 0 when it does not. *)
Definition form (t : string) : nat :=
  let zero := match t with String c _ => Ascii.eqb c "0" | EmptyString => false end in
  if contains "e" t then 3%nat
  else if contains "." t then (if zero then 2%nat else 1%nat)
  else if zero then 4%nat else 0%nat.

(** The number of decimals of the fraction. *)
Definition scale (x : number) : nat :=
  match x with Dec _ e => Pos.to_nat e | _ => 0%nat end.

(** Two numbers with the same value. *)
Definition same_value (a b : number) : Prop :=
  match a, b with
  | Infinity s, Infinity s' => s = s'
  | Infinity _, _ | _, Infinity _ => False
  | _, _ => numerator a * denominator b = numerator b * denominator a
  end.

(** Two optional numbers that [JSON.stringify] writes alike: both absent,
    or both present with the same text. *)
Definition printed_alike (a b : option number) : Prop :=
  json_of_val (opt_val JNum a) = json_of_val (opt_val JNum b).

(** A number that is one of the two infinities. *)
Definition infinite (x : number) : Prop := exists s, x = Infinity s.

(** How the key of a request with the source identity [u] begins: an
    opening brace, the name [u] in quotes, a colon, the quoted identity. *)
Definition key_start (u : string) : string :=
  "{" +:+ String dquote "u" +:+ String dquote ":" +:+ json_quote u.

(** The start of the key of every request without a URL. *)
Definition buffer_key_start : string :=
  "{" +:+ String dquote "u" +:+ String dquote ":" +:+ String dquote "buffer"
  +:+ String dquote "".


(** Two optional numbers that are both absent, or both present with the
    same value. *)
Definition same_number (a b : option number) : Prop :=
  match a, b with
  | None, None => True
  | Some x, Some y => same_value x y
  | _, _ => False
  end.

(** What a key tells of an optional number: the number itself, except
    that it does not tell one infinity from the other. *)
Definition told_alike (a b : option number) : Prop :=
  same_number a b \/ exists s s', a = Some (Infinity s) /\ b = Some (Infinity s').

(* ================================================================== *)
(** * Properties *)
(* ================================================================== *)

(** ** Strings *)

Lemma substring_0_full (d : string) : substring 0 (String.length d) d = d.
Proof. induction d as [|c d IH]; simpl; [done| by rewrite IH]. Qed.

Lemma substring_skip_app (pre d : string) (m : nat) :
  substring (String.length pre) m (pre +:+ d) = substring 0 m d.
Proof. induction pre as [|c pre IH]; simpl; [done | apply IH]. Qed.

Lemma substring_split (s : string) (n : nat) :
  (n <= String.length s)%nat ->
  s = substring 0 n s +:+ substring n (String.length s - n) s.
Proof.
  revert n. induction s as [|c s IH]; intros [|n] Hn; simpl in *; try lia; try done.
  - by rewrite substring_0_full.
  - change (String c s = String c (substring 0 n s +:+ substring n (String.length s - n) s)).
    f_equal. apply IH. lia.
Qed.

Lemma app_length_str (a b : string) : String.length (a +:+ b) = (String.length a + String.length b)%nat.
Proof. induction a; simpl; [done | by rewrite IHa]. Qed.

Lemma endsWith_spec (s d : string) :
  endsWith s d = true <-> exists pre, s = pre +:+ d.
Proof.
  unfold endsWith. rewrite andb_true_iff, Nat.leb_le, String.eqb_eq. split.
  - intros [Hle Hsub]. exists (substring 0 (String.length s - String.length d) s).
    pose proof (substring_split s (String.length s - String.length d)) as Hs.
    replace (String.length s - (String.length s - String.length d))%nat
      with (String.length d) in Hs by lia.
    rewrite Hsub in Hs. apply Hs. lia.
  - intros [pre ->]. rewrite app_length_str. split; [lia|].
    replace (String.length pre + String.length d - String.length d)%nat with (String.length pre) by lia.
    rewrite substring_skip_app. apply substring_0_full.
Qed.

(** ** Appending strings *)

Lemma str_app_cons (c : ascii) (a b : string) : String c a +:+ b = String c (a +:+ b).
Proof. reflexivity. Qed.

Lemma str_app_nil (b : string) : "" +:+ b = b.
Proof. reflexivity. Qed.

Lemma str_app_assoc (a b c : string) : (a +:+ b) +:+ c = a +:+ (b +:+ c).
Proof.
  induction a as [|x a IH]; [done|]. rewrite !str_app_cons. by rewrite IH.
Qed.

Lemma str_app_inv_head (a x y : string) : a +:+ x = a +:+ y -> x = y.
Proof.
  induction a as [|c a IH]; [done|]. rewrite !str_app_cons. intros [= H]. by apply IH.
Qed.

Lemma str_app_prefix (a b x y : string) :
  a +:+ x = b +:+ y -> starts a b = true \/ starts b a = true.
Proof.
  revert b. induction a as [|c a IH]; intros [|d b]; simpl; auto.
  rewrite !str_app_cons.
  intros [= -> H]. rewrite Ascii.eqb_refl. simpl. by apply IH.
Qed.

Lemma str_prefix_app (a b : string) : starts a b = true -> exists r, b = a +:+ r.
Proof.
  revert b. induction a as [|c a IH]; intros b; simpl; [by exists b|].
  destruct b as [|d b]; [discriminate|].
  destruct (Ascii.eqb c d) eqn:E; [|discriminate].
  apply Ascii.eqb_eq in E as ->. simpl. intros H. destruct (IH b H) as [r ->]. by exists r.
Qed.

Lemma all_ascii_complete (c : ascii) : In c all_ascii.
Proof.
  unfold all_ascii. rewrite <- (ascii_nat_embedding c). apply in_map, in_seq.
  pose proof (nat_ascii_bounded c). lia.
Qed.

Lemma escapes_apart_all :
  forallb (fun c1 => forallb (escapes_apart c1) all_ascii) all_ascii = true.
Proof. vm_compute. reflexivity. Qed.

Lemma escape_head_ok_all : forallb escape_head_ok all_ascii = true.
Proof. vm_compute. reflexivity. Qed.

Lemma escapes_prefix (c1 c2 : ascii) :
  starts (json_escape_char c1) (json_escape_char c2) = true -> c1 = c2.
Proof.
  intros Hp. pose proof escapes_apart_all as H.
  rewrite forallb_forall in H. specialize (H c1 (all_ascii_complete c1)).
  rewrite forallb_forall in H. specialize (H c2 (all_ascii_complete c2)).
  unfold escapes_apart in H. rewrite Hp in H. simpl in H.
  rewrite orb_false_r in H. by apply Ascii.eqb_eq.
Qed.

Lemma escape_char_delimits (c1 c2 : ascii) (r1 r2 : string) :
  json_escape_char c1 +:+ r1 = json_escape_char c2 +:+ r2 -> c1 = c2 /\ r1 = r2.
Proof.
  intros H. assert (c1 = c2) as ->.
  { destruct (str_app_prefix _ _ _ _ H) as [Hp|Hp];
      [by apply escapes_prefix | symmetry; by apply escapes_prefix]. }
  split; [done|]. by apply str_app_inv_head in H.
Qed.

Lemma escape_char_head (c : ascii) (r : string) (x : string) :
  json_escape_char c +:+ r <> String dquote x.
Proof.
  pose proof escape_head_ok_all as H. rewrite forallb_forall in H.
  specialize (H c (all_ascii_complete c)). unfold escape_head_ok in H.
  destruct (json_escape_char c) as [|h t]; [discriminate|]. rewrite str_app_cons.
  intros [= -> _]. by rewrite Ascii.eqb_refl in H.
Qed.

Lemma escape_delimits (s1 s2 x1 x2 : string) :
  json_escape s1 +:+ String dquote x1 = json_escape s2 +:+ String dquote x2 ->
  s1 = s2 /\ x1 = x2.
Proof.
  revert s2. induction s1 as [|c1 s1 IH]; intros [|c2 s2]; simpl;
    rewrite ?str_app_nil.
  - by intros [= ->].
  - intros H. symmetry in H. rewrite str_app_assoc in H. by apply escape_char_head in H.
  - intros H. rewrite str_app_assoc in H. by apply escape_char_head in H.
  - rewrite !str_app_assoc. intros H.
    apply escape_char_delimits in H as [-> H]. by apply IH in H as [-> ->].
Qed.

Lemma quote_delimits (s1 s2 x1 x2 : string) :
  json_quote s1 +:+ x1 = json_quote s2 +:+ x2 -> s1 = s2 /\ x1 = x2.
Proof.
  unfold json_quote. rewrite !str_app_cons, !str_app_assoc, !str_app_cons, !str_app_nil.
  intros [= H]. by apply escape_delimits.
Qed.


Lemma str_app_nil_r (a : string) : a +:+ "" = a.
Proof. induction a as [|c a IH]; [done|]. by rewrite str_app_cons, IH. Qed.

Lemma str_app_empty (a b : string) : a +:+ b = "" -> a = "" /\ b = "".
Proof. destruct a; [by rewrite str_app_nil | rewrite str_app_cons; discriminate]. Qed.

(** ** The text of a number *)

Lemma plain_app (a b : string) : plain (a +:+ b) = plain a && plain b.
Proof.
  induction a as [|c a IH]; [done|]. rewrite str_app_cons. simpl.
  by rewrite IH, andb_assoc.
Qed.

Lemma numeric_app (a b : string) : numeric (a +:+ b) = numeric a && numeric b.
Proof.
  induction a as [|c a IH]; [done|]. rewrite str_app_cons. simpl.
  by rewrite IH, andb_assoc.
Qed.

Lemma plain_numeric (s : string) : plain s = true -> numeric s = true.
Proof.
  induction s as [|c s IH]; [done|]. simpl. intros [Hc Hs]%andb_true_iff.
  unfold numeric_char. by rewrite Hc, IH.
Qed.

Lemma pretty_N_char_plain (x : N) : plain_char (pretty_N_char x) = true.
Proof. unfold pretty_N_char. by repeat case_match. Qed.

Lemma pretty_N_char_nonzero (x : N) :
  (0 < x < 10)%N -> Ascii.eqb (pretty_N_char x) "0" = false.
Proof.
  intros Hx. unfold pretty_N_char.
  destruct x as [|p]; [lia|].
  do 4 (destruct p as [p|p|]; try done; try lia).
Qed.

Lemma pretty_N_go_shape (x : N) (s : string) :
  exists pre, pretty_N_go x s = pre +:+ s /\ plain pre = true /\ ((0 < x)%N -> pre <> "").
Proof.
  revert s. induction (N.lt_wf_0 x) as [x _ IH]; intros s.
  assert (x = 0 \/ 0 < x)%N as [->|Hx] by lia.
  - exists "". rewrite pretty_N_go_0. split; [done|]. split; [done|lia].
  - rewrite pretty_N_go_step by done.
    destruct (IH (x `div` 10)%N (N.div_lt x 10 Hx eq_refl)
                (String (pretty_N_char (x `mod` 10)) s)) as (pre & -> & Hn & _).
    exists (pre +:+ String (pretty_N_char (x `mod` 10)) "").
    rewrite str_app_assoc, str_app_cons, str_app_nil. split; [done|]. split.
    + rewrite plain_app, Hn. simpl. by rewrite pretty_N_char_plain.
    + intros _. by destruct pre.
Qed.

(** The first digit of a positive number is not a zero. *)
Lemma pretty_N_go_head (x : N) (s : string) :
  (0 < x)%N -> exists c r, pretty_N_go x s = String c r /\ Ascii.eqb c "0" = false.
Proof.
  revert s. induction (N.lt_wf_0 x) as [x _ IH]; intros s Hx.
  rewrite pretty_N_go_step by done.
  destruct (decide (x `div` 10 = 0)%N) as [Hd|Hd].
  - rewrite Hd, pretty_N_go_0. exists (pretty_N_char (x `mod` 10)), s.
    split; [reflexivity|]. apply pretty_N_char_nonzero.
    assert (x < 10)%N by (apply N.div_small_iff in Hd; lia).
    rewrite N.mod_small by done. lia.
  - apply IH; [by apply N.div_lt|]. by apply N.neq_0_lt_0.
Qed.

Lemma pretty_pos_plain (p : positive) :
  plain (pretty (Z.pos p)) = true /\
  exists c r, pretty (Z.pos p) = String c r /\ Ascii.eqb c "0" = false.
Proof.
  change (pretty (Z.pos p)) with (pretty (N.pos p)).
  unfold pretty, pretty_N. rewrite decide_False by done. split.
  - destruct (pretty_N_go_shape (N.pos p) "") as (pre & -> & Hn & _).
    by rewrite str_app_nil_r.
  - apply pretty_N_go_head. lia.
Qed.

Lemma pretty_Z_plain (z : Z) : plain (pretty z) = true /\ pretty z <> "".
Proof.
  destruct z as [|p|p].
  - done.
  - destruct (pretty_pos_plain p) as (Hp & c & r & E & _).
    split; [exact Hp|]. by rewrite E.
  - destruct (pretty_pos_plain p) as (Hp & _).
    change (pretty (Z.neg p)) with ("-" +:+ pretty (Z.pos p)).
    rewrite str_app_cons, str_app_nil. split; [|done]. simpl. exact Hp.
Qed.

Lemma pretty_Z_numeric (z : Z) : numeric (pretty z) = true /\ pretty z <> "".
Proof. destruct (pretty_Z_plain z). split; [by apply plain_numeric | done]. Qed.

Lemma numeric_zeros (n : nat) : numeric (zeros n) = true.
Proof. induction n; [done|]. simpl. by rewrite IHn. Qed.

Lemma numeric_substring (s : string) (a b : nat) :
  numeric s = true -> numeric (substring a b s) = true.
Proof.
  revert a b. induction s as [|c s IH]; intros a b Hs.
  - by destruct a, b.
  - simpl in Hs. apply andb_true_iff in Hs as [Hc Hs].
    destruct a as [|a], b as [|b]; simpl; try done.
    + by rewrite Hc, IH.
    + by apply IH.
    + by apply IH.
Qed.

Lemma numeric_strip_zeros (s : string) : numeric s = true -> numeric (strip_zeros s) = true.
Proof.
  induction s as [|c s IH]; [done|]. simpl. intros [Hc Hs]%andb_true_iff.
  specialize (IH Hs). destruct (strip_zeros s) as [|d r].
  - destruct (Ascii.eqb c "0"); [done|]. simpl. by rewrite Hc.
  - simpl in *. by rewrite Hc.
Qed.

(** The digits of a number that starts with a non-zero digit keep that
    digit when their trailing zeros go. *)
Lemma strip_zeros_head (c : ascii) (s : string) :
  Ascii.eqb c "0" = false -> exists r, strip_zeros (String c s) = String c r.
Proof.
  intros Hc. simpl. destruct (strip_zeros s) as [|d r]; [rewrite Hc|]; by eexists.
Qed.

Lemma numeric_exponent_form (d : ascii) (rest : string) (e : Z) :
  numeric (String d rest) = true -> numeric (exponent_form d rest e) = true.
Proof.
  intros H. pose proof H as [Hd Hr]%andb_true_iff. unfold exponent_form.
  destruct (pretty_Z_numeric (Z.abs e)) as [He _].
  assert (Hm : numeric (String d match rest with "" => "" | _ => "." +:+ rest end) = true).
  { destruct rest as [|c rest]; [by rewrite <- H|].
    rewrite str_app_cons, str_app_nil. cbn [numeric]. rewrite Hd. exact Hr. }
  rewrite !numeric_app, Hm, He. by destruct (0 <=? e).
Qed.

Lemma numeric_digits_to_string (digits : string) (n : Z) :
  numeric digits = true -> numeric (digits_to_string digits n) = true.
Proof.
  intros Hd. unfold digits_to_string. destruct digits as [|d rest]; [done|].
  repeat case_match.
  - by rewrite numeric_app, Hd, numeric_zeros.
  - by rewrite !numeric_app, !numeric_substring.
  - by rewrite !numeric_app, numeric_zeros, Hd.
  - by apply numeric_exponent_form.
Qed.

Lemma digits_to_string_nonempty (digits : string) (n : Z) : digits_to_string digits n <> "".
Proof.
  unfold digits_to_string. destruct digits as [|d rest]; [done|].
  repeat case_match; try done.
  intros Hx. apply str_app_empty in Hx as [_ Hx]. done.
Qed.

Lemma numeric_sign_text (z : Z) : numeric (sign_text z) = true.
Proof. unfold sign_text. by destruct (z <? 0). Qed.

Lemma pretty_abs_head (z : Z) :
  z <> 0 -> exists c r, pretty (Z.abs z) = String c r /\ Ascii.eqb c "0" = false.
Proof.
  destruct z as [|p|p]; [done| |]; intros _; simpl; apply pretty_pos_plain.
Qed.

(** The text of a finite number is made of the characters of numbers,
    and is not empty. *)
Lemma number_text_numeric (x : number) :
  ~ infinite x -> numeric (number_text x) = true /\ number_text x <> "".
Proof.
  intros Hfin. destruct x as [z|m e|s]; [| |exfalso; apply Hfin; by exists s]; simpl.
  - destruct (Z.abs z <? 10 ^ 21); [apply pretty_Z_numeric|].
    destruct (pretty_Z_numeric (Z.abs z)) as [Hn _].
    apply numeric_strip_zeros in Hn.
    destruct (strip_zeros (pretty (Z.abs z))) as [|d rest].
    + split; [by rewrite numeric_app, numeric_sign_text|].
      intros H. by apply str_app_empty in H as [_ H].
    + split; [by rewrite numeric_app, numeric_sign_text, numeric_exponent_form|].
      intros H. apply str_app_empty in H as [_ H]. unfold exponent_form in H.
      by rewrite str_app_cons in H.
  - destruct (pretty_Z_numeric (Z.abs m)) as [Hn _]. apply numeric_strip_zeros in Hn.
    split; [by rewrite numeric_app, numeric_sign_text, numeric_digits_to_string|].
    intros H. apply str_app_empty in H as [_ H]. by apply digits_to_string_nonempty in H.
Qed.

Lemma plain_exponent_form (d : ascii) (rest : string) (e : Z) :
  plain (exponent_form d rest e) = false.
Proof.
  unfold exponent_form. rewrite str_app_cons. simpl.
  apply andb_false_iff. right.
  destruct rest as [|c rest]; [by rewrite str_app_nil|].
  rewrite str_app_cons, str_app_nil, str_app_cons. simpl. done.
Qed.

(** Integers of which one at least is printed in plain decimal have
    different texts. *)
Lemma int_text_inj (a b : Z) :
  Z.abs a < 10 ^ 21 \/ Z.abs b < 10 ^ 21 ->
  number_text (Int a) = number_text (Int b) -> a = b.
Proof.
  assert (Hbig : forall x y : Z, Z.abs x < 10 ^ 21 -> ~ Z.abs y < 10 ^ 21 ->
            number_text (Int x) <> number_text (Int y)).
  { intros x y Hx Hy. simpl.
    destruct (Z.abs x <? 10 ^ 21) eqn:Ex; [|apply Z.ltb_ge in Ex; lia].
    destruct (Z.abs y <? 10 ^ 21) eqn:Ey; [apply Z.ltb_lt in Ey; lia|].
    intros H. destruct (pretty_Z_plain x) as [Hp _]. rewrite H in Hp.
    destruct (pretty_abs_head y) as (c & r & Hy' & Hc); [lia|].
    rewrite Hy' in Hp. destruct (strip_zeros_head c r Hc) as [r' Hr]. rewrite Hr in Hp.
    rewrite plain_app, plain_exponent_form, andb_false_r in Hp. done. }
  intros Hs H.
  destruct (decide (Z.abs a < 10 ^ 21)) as [Ha|Ha], (decide (Z.abs b < 10 ^ 21)) as [Hb|Hb].
  - simpl in H. apply Z.ltb_lt in Ha, Hb. rewrite Ha, Hb in H. by apply (inj pretty) in H.
  - by apply (Hbig a b) in H.
  - symmetry in H. by apply (Hbig b a) in H.
  - lia.
Qed.

Lemma digits_app (a b : string) : digits (a +:+ b) = digits a && digits b.
Proof.
  induction a as [|c a IH]; [done|]. rewrite str_app_cons. simpl.
  by rewrite IH, andb_assoc.
Qed.

Lemma contains_app (c : ascii) (a b : string) :
  contains c (a +:+ b) = contains c a || contains c b.
Proof.
  induction a as [|d a IH]; [done|]. rewrite str_app_cons. simpl.
  by rewrite IH, orb_assoc.
Qed.

Lemma digits_free (c : ascii) (s : string) :
  digit_char c = false -> digits s = true -> contains c s = false.
Proof.
  intros Hc. induction s as [|d s IH]; [done|]. simpl.
  intros [Hd Hs]%andb_true_iff. rewrite (IH Hs), orb_false_r.
  destruct (Ascii.eqb c d) eqn:E; [|done]. apply Ascii.eqb_eq in E as ->. congruence.
Qed.

Lemma digits_zeros (n : nat) : digits (zeros n) = true.
Proof. induction n; [done|]. simpl. by rewrite IHn. Qed.

Lemma length_zeros (n : nat) : String.length (zeros n) = n.
Proof. induction n; [done|]. simpl. by rewrite IHn. Qed.

Lemma zeros_add (a b : nat) : zeros (a + b) = zeros a +:+ zeros b.
Proof. induction a as [|a IH]; [done|]. simpl. by rewrite IH. Qed.

(** Two strings cut at the first occurrence of a character. *)
Lemma free_delimits (c : ascii) (a b x y : string) :
  contains c a = false -> contains c b = false ->
  a +:+ String c x = b +:+ String c y -> a = b /\ x = y.
Proof.
  revert b. induction a as [|d a IH]; intros [|d' b]; rewrite ?str_app_cons, ?str_app_nil.
  - by intros _ _ [= ->].
  - simpl. intros _ Hb [= <- _]. by rewrite Ascii.eqb_refl in Hb.
  - simpl. intros Ha _ [= -> _]. by rewrite Ascii.eqb_refl in Ha.
  - simpl. intros [_ Ha]%orb_false_iff [_ Hb]%orb_false_iff [= -> H].
    by destruct (IH b Ha Hb H) as [-> ->].
Qed.

(** *** The digits of a natural number *)

Lemma pretty_N_go_app (x : N) (s : string) : pretty_N_go x s = digits_of x +:+ s.
Proof.
  unfold digits_of. revert s. induction (N.lt_wf_0 x) as [x _ IH]; intros s.
  assert (x = 0 \/ 0 < x)%N as [->|Hx] by lia.
  - by rewrite !pretty_N_go_0.
  - rewrite (pretty_N_go_step x s), (pretty_N_go_step x "") by done.
    rewrite (IH (x `div` 10)%N (N.div_lt x 10 Hx eq_refl) (String _ s)).
    rewrite (IH (x `div` 10)%N (N.div_lt x 10 Hx eq_refl) (String _ "")).
    by rewrite str_app_assoc, str_app_cons, str_app_nil.
Qed.

Lemma digits_of_0 : digits_of 0 = "".
Proof. unfold digits_of. by rewrite pretty_N_go_0. Qed.

Lemma digits_of_step (x : N) :
  (0 < x)%N ->
  digits_of x = digits_of (x `div` 10) +:+ String (pretty_N_char (x `mod` 10)) "".
Proof.
  intros Hx. unfold digits_of at 1. rewrite pretty_N_go_step by done.
  apply pretty_N_go_app.
Qed.

Lemma pretty_N_char_digit (x : N) : digit_char (pretty_N_char x) = true.
Proof. unfold pretty_N_char. by repeat case_match. Qed.

Lemma digits_of_digits (x : N) : digits (digits_of x) = true.
Proof.
  induction (N.lt_wf_0 x) as [x _ IH].
  assert (x = 0 \/ 0 < x)%N as [->|Hx] by lia.
  - by rewrite digits_of_0.
  - rewrite digits_of_step by done. rewrite digits_app, IH by (by apply N.div_lt).
    simpl. by rewrite pretty_N_char_digit.
Qed.

Lemma digits_of_mul10 (x : N) : (0 < x)%N -> digits_of (x * 10) = digits_of x +:+ "0".
Proof.
  intros Hx. rewrite digits_of_step by lia.
  rewrite N.div_mul by done. rewrite N.Div0.mod_mul. reflexivity.
Qed.

Lemma digits_of_shift (x : N) (k : nat) :
  (0 < x)%N -> digits_of (x * 10 ^ N.of_nat k) = digits_of x +:+ zeros k.
Proof.
  intros Hx. induction k as [|k IH].
  - simpl. by rewrite N.mul_1_r, str_app_nil_r.
  - rewrite Nat2N.inj_succ, N.pow_succ_r', (N.mul_comm 10), N.mul_assoc.
    rewrite digits_of_mul10 by (apply N.mul_pos_pos; [done|]; by apply N.neq_0_lt_0, N.pow_nonzero).
    rewrite IH, str_app_assoc. f_equal.
    replace (S k) with (k + 1)%nat by lia. by rewrite zeros_add.
Qed.

(** A number has at most [k] digits exactly when it is below [10^k]. *)
Lemma digits_of_length (x : N) (k : nat) :
  (String.length (digits_of x) <= k)%nat <-> (x < 10 ^ N.of_nat k)%N.
Proof.
  revert k. induction (N.lt_wf_0 x) as [x _ IH]; intros k.
  assert (x = 0 \/ 0 < x)%N as [->|Hx] by lia.
  - rewrite digits_of_0. simpl. split; [|lia]. intros _.
    by apply N.neq_0_lt_0, N.pow_nonzero.
  - rewrite digits_of_step by done. rewrite app_length_str. simpl.
    destruct k as [|k].
    + simpl. split; lia.
    + rewrite Nat2N.inj_succ, N.pow_succ_r'.
      specialize (IH (x `div` 10)%N (N.div_lt x 10 Hx eq_refl) k).
      split.
      * intros H. assert (H' : (String.length (digits_of (x `div` 10)) <= k)%nat) by lia.
        apply IH in H'. 
        pose proof (N.div_mod x 10 ltac:(done)). pose proof (N.mod_lt x 10 ltac:(done)). lia.
      * intros H. assert (H' : (x `div` 10 < 10 ^ N.of_nat k)%N).
        { apply N.Div0.div_lt_upper_bound. lia. }
        apply IH in H'. lia.
Qed.

Lemma digits_of_head (x : N) :
  (0 < x)%N -> exists c r, digits_of x = String c r /\ Ascii.eqb c "0" = false.
Proof. apply pretty_N_go_head. Qed.

Lemma pretty_pos_digits (z : Z) : 0 < z -> pretty z = digits_of (Z.to_N z).
Proof.
  destruct z as [|p|p]; try lia. intros _.
  change (pretty (Z.pos p)) with (pretty (N.pos p)).
  unfold pretty, pretty_N. by rewrite decide_False by done.
Qed.

(** *** Trailing zeros *)

Lemma strip_zeros_zeros (k : nat) : strip_zeros (zeros k) = "".
Proof. induction k as [|k IH]; [done|]. simpl. by rewrite IH. Qed.

Lemma strip_zeros_app_zeros (s : string) (k : nat) :
  strip_zeros (s +:+ zeros k) = strip_zeros s.
Proof.
  induction s as [|c s IH].
  - rewrite str_app_nil. apply strip_zeros_zeros.
  - rewrite str_app_cons. simpl. by rewrite IH.
Qed.

Lemma strip_zeros_length (s : string) :
  (String.length (strip_zeros s) <= String.length s)%nat.
Proof.
  induction s as [|c s IH]; [done|]. simpl.
  destruct (strip_zeros s) as [|d r]; [destruct (Ascii.eqb c "0")|]; simpl in *; lia.
Qed.

(** The digits are their significant part followed by zeros. *)
Lemma strip_zeros_restore (s : string) :
  strip_zeros s +:+ zeros (String.length s - String.length (strip_zeros s)) = s.
Proof.
  induction s as [|c s IH]; [done|]. simpl.
  destruct (strip_zeros s) as [|d r] eqn:E.
  - rewrite str_app_nil in IH. cbn [String.length] in IH. rewrite Nat.sub_0_r in IH.
    destruct (Ascii.eqb c "0") eqn:Ec.
    + apply Ascii.eqb_eq in Ec as ->. rewrite str_app_nil. cbn [String.length].
      rewrite Nat.sub_0_r. cbn [zeros]. by rewrite IH.
    + rewrite str_app_cons, str_app_nil. cbn [String.length].
      replace (S (String.length s) - 1)%nat with (String.length s) by lia. by rewrite IH.
  - rewrite str_app_cons. f_equal. exact IH.
Qed.

Lemma strip_zeros_idem (s : string) : strip_zeros (strip_zeros s) = strip_zeros s.
Proof.
  rewrite <- (strip_zeros_restore s) at 2. by rewrite strip_zeros_app_zeros.
Qed.

Lemma digits_strip_zeros (s : string) : digits s = true -> digits (strip_zeros s) = true.
Proof.
  induction s as [|c s IH]; [done|]. simpl. intros [Hc Hs]%andb_true_iff.
  specialize (IH Hs). destruct (strip_zeros s) as [|d r].
  - destruct (Ascii.eqb c "0"); [done|]. simpl. by rewrite Hc.
  - simpl in *. by rewrite Hc.
Qed.

(** Leading zeros before a digit that is not a zero can be counted. *)
Lemma zeros_lead (a b : nat) (d1 d2 : ascii) (r1 r2 : string) :
  Ascii.eqb d1 "0" = false -> Ascii.eqb d2 "0" = false ->
  zeros a +:+ String d1 r1 = zeros b +:+ String d2 r2 ->
  a = b /\ String d1 r1 = String d2 r2.
Proof.
  intros H1 H2. revert b. induction a as [|a IH]; intros [|b]; simpl;
    rewrite ?str_app_cons, ?str_app_nil.
  - done.
  - intros [= -> _]. by rewrite Ascii.eqb_refl in H1.
  - intros [= <- _]. by rewrite Ascii.eqb_refl in H2.
  - intros [= H]. by destruct (IH b H) as [-> ->].
Qed.

(** *** Cutting a string in two *)

Lemma substring_join (s : string) (n : nat) :
  (n <= String.length s)%nat ->
  substring 0 n s +:+ substring n (String.length s - n) s = s.
Proof. intros Hn. symmetry. by apply substring_split. Qed.

Lemma substring_0_length (s : string) (n : nat) :
  (n <= String.length s)%nat -> String.length (substring 0 n s) = n.
Proof.
  revert n. induction s as [|c s IH]; intros [|n]; simpl; intros Hn; try done; try lia.
  rewrite IH; lia.
Qed.

Lemma digits_substring (s : string) (a b : nat) :
  digits s = true -> digits (substring a b s) = true.
Proof.
  revert a b. induction s as [|c s IH]; intros a b Hs.
  - by destruct a, b.
  - simpl in Hs. apply andb_true_iff in Hs as [Hc Hs].
    destruct a as [|a], b as [|b]; simpl; try done.
    + by rewrite Hc, IH.
    + by apply IH.
    + by apply IH.
Qed.

(** *** The four forms of [Number::toString] *)

Lemma significant_of_pretty (z : Z) : z <> 0 -> significant (strip_zeros (pretty (Z.abs z))).
Proof.
  intros Hz. assert (Hp : 0 < Z.abs z) by lia.
  rewrite (pretty_pos_digits _ Hp).
  destruct (digits_of_head (Z.to_N (Z.abs z))) as (c & r & E & Hc); [lia|].
  split; [apply digits_strip_zeros, digits_of_digits|]. split; [apply strip_zeros_idem|].
  rewrite E. destruct (strip_zeros_head c r Hc) as [r' ->]. by exists c, r'.
Qed.

Lemma exponent_form_contains (d : ascii) (rest : string) (e : Z) :
  contains "e" (exponent_form d rest e) = true.
Proof.
  unfold exponent_form. rewrite contains_app. apply orb_true_iff. right.
  by rewrite str_app_cons.
Qed.

Lemma digits_to_string_view (s : string) (n : Z) :
  significant s ->
  let k := Z.of_nat (String.length s) in
  let t := digits_to_string s n in
  (k <= n <= 21 /\ t = s +:+ zeros (Z.to_nat (n - k)) /\ form t = 0%nat) \/
  (0 < n < k /\ n <= 21 /\
   t = substring 0 (Z.to_nat n) s +:+ "." +:+ substring (Z.to_nat n) (Z.to_nat (k - n)) s /\
   form t = 1%nat) \/
  (-6 < n <= 0 /\ t = "0." +:+ zeros (Z.to_nat (- n)) +:+ s /\ form t = 2%nat) \/
  ((21 < n \/ n <= -6) /\
   exists d rest, s = String d rest /\ t = exponent_form d rest (n - 1) /\ form t = 3%nat).
Proof.
  intros (Hd & _ & d & r & -> & Hz) k t. subst t. unfold digits_to_string. fold k.
  assert (He : forall x, digits x = true -> contains "e" x = false)
    by (intros x; by apply digits_free).
  assert (Hp : forall x, digits x = true -> contains "." x = false)
    by (intros x; by apply digits_free).
  destruct ((k <=? n) && (n <=? 21)) eqn:E1.
  { left. apply andb_true_iff in E1 as [?%Z.leb_le ?%Z.leb_le]. split; [lia|]. split; [done|].
    assert (C1 : contains "e" (String d r +:+ zeros (Z.to_nat (n - k))) = false)
      by (by rewrite contains_app, (He _ Hd), (He _ (digits_zeros _))).
    assert (C2 : contains "." (String d r +:+ zeros (Z.to_nat (n - k))) = false)
      by (by rewrite contains_app, (Hp _ Hd), (Hp _ (digits_zeros _))).
    unfold form. rewrite C1, C2. rewrite str_app_cons. by rewrite Hz. }
  destruct ((0 <? n) && (n <=? 21)) eqn:E2.
  { right. left. apply andb_true_iff in E2 as [?%Z.ltb_lt ?%Z.leb_le].
    apply andb_false_iff in E1 as [?%Z.leb_gt|?%Z.leb_gt]; [|lia].
    split; [lia|]. split; [lia|]. split; [done|].
    unfold form.
    rewrite !contains_app, !(He _ (digits_substring _ _ _ Hd)), !(Hp _ (digits_substring _ _ _ Hd)).
    destruct (Z.to_nat n) as [|m] eqn:En; [lia|]. simpl. by rewrite Hz. }
  destruct ((-6 <? n) && (n <=? 0)) eqn:E3.
  { right. right. left. apply andb_true_iff in E3 as [?%Z.ltb_lt ?%Z.leb_le].
    split; [lia|]. split; [done|].
    unfold form. rewrite !contains_app, (He _ Hd), (He _ (digits_zeros _)). done. }
  right. right. right. split.
  { apply andb_false_iff in E1, E2, E3.
    destruct E1 as [?%Z.leb_gt|?%Z.leb_gt], E2 as [?%Z.ltb_ge|?%Z.leb_gt],
      E3 as [?%Z.ltb_ge|?%Z.leb_gt]; lia. }
  exists d, r. split; [done|]. split; [done|].
  unfold form. by rewrite exponent_form_contains.
Qed.

Lemma exponent_form_inj (d1 d2 : ascii) (r1 r2 : string) (e1 e2 : Z) :
  digits (String d1 r1) = true -> digits (String d2 r2) = true ->
  exponent_form d1 r1 e1 = exponent_form d2 r2 e2 ->
  String d1 r1 = String d2 r2 /\ e1 = e2.
Proof.
  intros H1 H2. unfold exponent_form. rewrite !(str_app_cons "e"), !str_app_nil.
  assert (Hm : forall d r, digits (String d r) = true ->
            contains "e" (String d match r with "" => "" | _ => "." +:+ r end) = false).
  { intros d r H. pose proof (digits_free "e" _ eq_refl H) as Hf.
    destruct r as [|c r]; [exact Hf|]. simpl in *. exact Hf. }
  intros H. apply free_delimits in H as [Hl Hr]; [|by apply Hm..].
  injection Hl as -> Hl. split.
  - f_equal. destruct r1 as [|c1 r1], r2 as [|c2 r2]; try done.
    rewrite !str_app_cons, !str_app_nil in Hl. by injection Hl as -> ->.
  - assert (Hs : (0 <=? e1) = (0 <=? e2) /\ pretty (Z.abs e1) = pretty (Z.abs e2)).
    { destruct (0 <=? e1), (0 <=? e2); rewrite !str_app_cons, !str_app_nil in Hr;
        try discriminate; by injection Hr. }
    destruct Hs as [Hs Hp]. apply (inj pretty) in Hp.
    destruct (0 <=? e1) eqn:E1, (0 <=? e2) eqn:E2; try discriminate;
      rewrite ?Z.leb_le, ?Z.leb_gt in E1, E2; lia.
Qed.

(** Significant digits and their exponent can be read off the text. *)
Lemma digits_to_string_inj (s1 s2 : string) (n1 n2 : Z) :
  significant s1 -> significant s2 ->
  digits_to_string s1 n1 = digits_to_string s2 n2 -> s1 = s2 /\ n1 = n2.
Proof.
  intros S1 S2 H.
  pose proof (digits_to_string_view s1 n1 S1) as V1.
  pose proof (digits_to_string_view s2 n2 S2) as V2. cbv zeta in V1, V2.
  destruct S1 as (D1 & C1 & d1 & r1 & E1 & Z1), S2 as (D2 & C2 & d2 & r2 & E2 & Z2).
  destruct V1 as [(B1 & T1 & F1)|[(B1 & B1' & T1 & F1)|[(B1 & T1 & F1)|(B1 & d & r & Es1 & T1 & F1)]]];
  destruct V2 as [(B2 & T2 & F2)|[(B2 & B2' & T2 & F2)|[(B2 & T2 & F2)|(B2 & d' & r' & Es2 & T2 & F2)]]];
    try (exfalso; rewrite H in F1; rewrite F1 in F2; discriminate).
  - rewrite T1, T2 in H.
    assert (s1 = s2) as <-.
    { apply (f_equal strip_zeros) in H. rewrite !strip_zeros_app_zeros in H. congruence. }
    split; [done|]. apply str_app_inv_head in H. apply (f_equal String.length) in H.
    rewrite !length_zeros in H. lia.
  - rewrite T1, T2 in H. rewrite !(str_app_cons "."), !str_app_nil in H.
    apply free_delimits in H as [Hx Hy];
      [|apply digits_free; [done|by apply digits_substring]..].
    assert (Hn : Z.to_nat n1 = Z.to_nat n2).
    { apply (f_equal String.length) in Hx. rewrite !substring_0_length in Hx by lia. done. }
    split; [|lia].
    rewrite <- (substring_join s1 (Z.to_nat n1)), <- (substring_join s2 (Z.to_nat n2)) by lia.
    rewrite Hx. f_equal.
    replace (String.length s1 - Z.to_nat n1)%nat
      with (Z.to_nat (Z.of_nat (String.length s1) - n1)) by lia.
    replace (String.length s2 - Z.to_nat n2)%nat
      with (Z.to_nat (Z.of_nat (String.length s2) - n2)) by lia.
    exact Hy.
  - rewrite T1, T2 in H. rewrite !(str_app_cons "0"), !(str_app_cons "."), !str_app_nil in H.
    injection H as H. rewrite E1, E2 in H.
    apply zeros_lead in H as [Ha Hs]; [|done..]. split; [congruence|lia].
  - rewrite T1, T2 in H. apply exponent_form_inj in H as [Hs He]; [|congruence..].
    split; [congruence|lia].
Qed.

(** *** The text of a finite number tells its value *)

Lemma denominator_scale (x : number) : denominator x = 10 ^ Z.of_nat (scale x).
Proof. destruct x as [z|m e|s]; simpl; try done. by rewrite positive_nat_Z. Qed.

Lemma pretty_sign (z : Z) : pretty z = sign_text z +:+ pretty (Z.abs z).
Proof. by destruct z. Qed.

Lemma pretty_length_bound (z : Z) (k : nat) :
  0 < z -> (String.length (pretty z) <= k)%nat <-> z < 10 ^ Z.of_nat k.
Proof.
  intros Hz. rewrite (pretty_pos_digits z Hz), digits_of_length.
  rewrite N2Z.inj_lt, N2Z.inj_pow, Z2N.id, nat_N_Z by lia. done.
Qed.

(** Every finite number is printed as its sign followed by
    [Number::toString] of its significant digits. *)
Lemma number_text_digits (x : number) :
  ~ infinite x ->
  let ds := pretty (Z.abs (numerator x)) in
  number_text x =
    sign_text (numerator x) +:+
    digits_to_string (strip_zeros ds) (Z.of_nat (String.length ds) - Z.of_nat (scale x)).
Proof.
  intros Hfin. destruct x as [z|m e|s]; [| |exfalso; apply Hfin; by exists s]; cbv zeta.
  2:{ simpl. by rewrite positive_nat_Z. }
  cbn [numerator scale number_text]. rewrite Z.sub_0_r.
  destruct (decide (z = 0)) as [->|Hz]; [done|].
  assert (Hp : 0 < Z.abs z) by lia.
  destruct (significant_of_pretty z Hz) as (Hd & Hc & d & r & Es & Hnz).
  pose proof (strip_zeros_length (pretty (Z.abs z))) as Hlen.
  pose proof (strip_zeros_restore (pretty (Z.abs z))) as Hres.
  pose proof (pretty_length_bound (Z.abs z) 21 Hp) as Hb.
  change (Z.of_nat 21) with 21 in Hb.
  unfold digits_to_string.
  destruct (Z.abs z <? 10 ^ 21) eqn:E.
  - apply Z.ltb_lt in E. apply Hb in E.
    rewrite pretty_sign. f_equal.
    destruct (strip_zeros (pretty (Z.abs z))) as [|d' r'] eqn:Es'; [discriminate|].
    rewrite (proj2 (andb_true_iff _ _)) by (split; apply Z.leb_le; lia).
    etrans; [symmetry; exact Hres|]. do 2 f_equal. lia.
  - apply Z.ltb_ge in E.
    assert (21 < String.length (pretty (Z.abs z)))%nat
      by (apply Nat.nle_gt; intros H; apply Hb in H; lia).
    destruct (strip_zeros (pretty (Z.abs z))) as [|d' r'] eqn:Es'; [discriminate|].
    rewrite (proj2 (andb_false_iff _ _)) by (right; apply Z.leb_gt; lia).
    rewrite (proj2 (andb_false_iff _ _)) by (right; apply Z.leb_gt; lia).
    rewrite (proj2 (andb_false_iff _ _)) by (right; apply Z.leb_gt; lia).
    done.
Qed.

Lemma digits_to_string_head (s : string) (n : Z) :
  s = "" \/ significant s ->
  exists c r, digits_to_string s n = String c r /\ digit_char c = true.
Proof.
  intros [->|S]; [by exists "0"%char, ""|].
  pose proof (digits_to_string_view s n S) as V. cbv zeta in V.
  destruct S as (D & C & d & r & -> & Hz).
  pose proof D as [Hd _]%andb_true_iff.
  destruct V as [(_ & -> & _)|[(B & _ & -> & _)|[(_ & -> & _)|(_ & d' & r' & [= <- <-] & -> & _)]]].
  - rewrite str_app_cons. by eexists _, _.
  - destruct (Z.to_nat n) as [|m] eqn:En; [lia|]. cbn [substring]. rewrite str_app_cons.
    by eexists _, _.
  - rewrite str_app_cons. by eexists _, _.
  - unfold exponent_form. rewrite str_app_cons. by eexists _, _.
Qed.

Lemma sign_text_split (z1 z2 : Z) (b1 b2 : string) :
  (exists c r, b1 = String c r /\ digit_char c = true) ->
  (exists c r, b2 = String c r /\ digit_char c = true) ->
  sign_text z1 +:+ b1 = sign_text z2 +:+ b2 -> (z1 <? 0) = (z2 <? 0) /\ b1 = b2.
Proof.
  intros (c1 & r1 & -> & H1) (c2 & r2 & -> & H2). unfold sign_text.
  destruct (z1 <? 0), (z2 <? 0); rewrite ?str_app_cons, ?str_app_nil; intros H.
  - by injection H as -> ->.
  - injection H as <- _. discriminate.
  - injection H as -> _. discriminate.
  - done.
Qed.

(** Finite numbers with the same text have the same value. *)
Lemma number_text_inj (x y : number) :
  ~ infinite x -> ~ infinite y -> number_text x = number_text y -> same_value x y.
Proof.
  intros Fx Fy. rewrite (number_text_digits x Fx), (number_text_digits y Fy). cbv zeta.
  assert (Hv : same_value x y <->
            numerator x * denominator y = numerator y * denominator x).
  { destruct x as [?|? ?|s]; [| |exfalso; apply Fx; by exists s];
      (destruct y as [?|? ?|s]; [| |exfalso; apply Fy; by exists s]); done. }
  intros H. apply Hv. revert H. clear Hv Fx Fy. rewrite !denominator_scale.
  set (z1 := numerator x). set (z2 := numerator y).
  set (E1 := scale x). set (E2 := scale y).
  assert (Hsig : forall z, strip_zeros (pretty (Z.abs z)) = "" \/
                           significant (strip_zeros (pretty (Z.abs z)))).
  { intros z. destruct (decide (z = 0)) as [->|Hz]; [by left|right; by apply significant_of_pretty]. }
  intros H. apply sign_text_split in H as [Hs H];
    [|apply digits_to_string_head, Hsig..].
  destruct (decide (z1 = 0)) as [Hz1|Hz1], (decide (z2 = 0)) as [Hz2|Hz2].
  - rewrite Hz1, Hz2. lia.
  - exfalso. rewrite Hz1 in H. change (strip_zeros (pretty (Z.abs 0))) with "" in H.
    cbn [digits_to_string] in H.
    pose proof (digits_to_string_view _ (Z.of_nat (String.length (pretty (Z.abs z2))) - Z.of_nat E2)
                  (significant_of_pretty z2 Hz2)) as V. cbv zeta in V. rewrite <- H in V.
    destruct V as [(_ & _ & F)|[(_ & _ & _ & F)|[(_ & _ & F)|(_ & _ & _ & _ & _ & F)]]];
      discriminate.
  - exfalso. rewrite Hz2 in H. change (strip_zeros (pretty (Z.abs 0))) with "" in H.
    cbn [digits_to_string] in H.
    pose proof (digits_to_string_view _ (Z.of_nat (String.length (pretty (Z.abs z1))) - Z.of_nat E1)
                  (significant_of_pretty z1 Hz1)) as V. cbv zeta in V. rewrite H in V.
    destruct V as [(_ & _ & F)|[(_ & _ & _ & F)|[(_ & _ & F)|(_ & _ & _ & _ & _ & F)]]];
      discriminate.
  - apply digits_to_string_inj in H as [Hd Hn]; [|by apply significant_of_pretty..].
    assert (P1 : 0 < Z.abs z1) by lia. assert (P2 : 0 < Z.abs z2) by lia.
    pose proof (strip_zeros_restore (pretty (Z.abs z1))) as R1.
    pose proof (strip_zeros_restore (pretty (Z.abs z2))) as R2.
    pose proof (strip_zeros_length (pretty (Z.abs z1))) as L1.
    pose proof (strip_zeros_length (pretty (Z.abs z2))) as L2.
    rewrite <- Hd in R2, L2.
    set (s := strip_zeros (pretty (Z.abs z1))) in *.
    assert (Ha : Z.abs z1 * 10 ^ Z.of_nat E2 = Z.abs z2 * 10 ^ Z.of_nat E1).
    { assert (Hq : forall z (E : nat), 0 < z ->
                pretty (z * 10 ^ Z.of_nat E) = pretty z +:+ zeros E).
      { intros z E Hz. rewrite !pretty_pos_digits by lia.
        rewrite <- digits_of_shift by lia. f_equal.
        rewrite Z2N.inj_mul, Z2N.inj_pow by lia. by rewrite <- (nat_N_Z E), N2Z.id. }
      apply (inj pretty). rewrite !Hq by done.
      rewrite <- R1, <- R2, !str_app_assoc, <- !zeros_add. do 2 f_equal. lia. }
    apply Z.ltb_lt in P1 as _. 
    destruct (z1 <? 0) eqn:S1, (z2 <? 0) eqn:S2; try discriminate;
      rewrite ?Z.ltb_lt, ?Z.ltb_ge in S1, S2; lia.
Qed.

(** ** The serialisation of an object can be read back *)

Lemma numeric_delimits (a b : string) (c1 c2 : ascii) (r1 r2 : string) :
  numeric a = true -> numeric b = true ->
  numeric_char c1 = false -> numeric_char c2 = false ->
  a +:+ String c1 r1 = b +:+ String c2 r2 ->
  a = b /\ String c1 r1 = String c2 r2.
Proof.
  intros Ha Hb H1 H2. revert b Hb.
  induction a as [|x a IH]; intros [|y b] Hb; rewrite ?str_app_cons, ?str_app_nil.
  - done.
  - intros [= -> _]. simpl in Hb. rewrite H1 in Hb. discriminate.
  - intros [= -> _]. simpl in Ha. rewrite H2 in Ha. discriminate.
  - intros [= -> H]. simpl in Ha, Hb.
    apply andb_true_iff in Ha as [_ Ha]. apply andb_true_iff in Hb as [_ Hb].
    by destruct (IH Ha b Hb H) as [-> ->].
Qed.

Lemma delimited_head (t : string) :
  delimited t -> exists c r, t = String c r /\ numeric_char c = false /\ c <> dquote.
Proof. intros [r [ -> | -> ]]; eexists _, r; by repeat split. Qed.

(** The text of a defined value is a literal, the text of a finite number,
    or a quoted string. *)
Lemma val_str_shape (v : jsval) :
  v <> JUndefined ->
  (val_str v = "null" \/ val_str v = "true" \/ val_str v = "false") \/
  (numeric (val_str v) = true /\ val_str v <> "") \/
  (exists s, val_str v = json_quote s).
Proof.
  intros Hv. destruct v as [ | | [ | ] | [z|m e|s] | s ]; try done; unfold val_str; simpl;
    try (left; tauto).
  - right. left. apply (number_text_numeric (Int z)). by intros [? ?].
  - right. left. apply (number_text_numeric (Dec m e)). by intros [? ?].
  - right. right. by exists s.
Qed.

Lemma numeric_head (a x : string) (c : ascii) (r : string) :
  numeric a = true -> a <> "" -> a +:+ x = String c r -> numeric_char c = true.
Proof.
  destruct a as [|h a]; [done|]. simpl. intros [Hh _]%andb_true_iff _.
  rewrite str_app_cons. by intros [= <- _].
Qed.

(** Two value texts that are each followed by a comma or a closing brace
    and give the same string are the same text. *)
Lemma val_delimits (v1 v2 : jsval) (t1 t2 : string) :
  v1 <> JUndefined -> v2 <> JUndefined -> delimited t1 -> delimited t2 ->
  val_str v1 +:+ t1 = val_str v2 +:+ t2 -> val_str v1 = val_str v2 /\ t1 = t2.
Proof.
  intros H1 H2 D1 D2.
  destruct (delimited_head t1 D1) as (c1 & r1 & -> & N1 & Q1).
  destruct (delimited_head t2 D2) as (c2 & r2 & -> & N2 & Q2).
  destruct (val_str_shape v1 H1) as [L1|[[Hn1 He1]|[s1 Hs1]]],
           (val_str_shape v2 H2) as [L2|[[Hn2 He2]|[s2 Hs2]]].
  - destruct L1 as [-> | [-> | ->]], L2 as [-> | [-> | ->]];
      rewrite ?str_app_cons, ?str_app_nil; try discriminate; by intros [= <- <-].
  - intros H. symmetry in H. exfalso.
    destruct L1 as [E | [E | E]]; rewrite E in H;
      apply numeric_head in H; try done; discriminate.
  - rewrite Hs2. unfold json_quote.
    destruct L1 as [-> | [-> | ->]]; rewrite ?str_app_cons; discriminate.
  - intros H. exfalso.
    destruct L2 as [E | [E | E]]; rewrite E in H;
      apply numeric_head in H; try done; discriminate.
  - intros H. by destruct (numeric_delimits _ _ c1 c2 r1 r2 Hn1 Hn2 N1 N2 H) as [-> ->].
  - rewrite Hs2. unfold json_quote. rewrite (str_app_cons dquote). intros H.
    apply numeric_head in H; try done; discriminate.
  - rewrite Hs1. unfold json_quote.
    destruct L2 as [-> | [-> | ->]]; rewrite ?str_app_cons; discriminate.
  - rewrite Hs1. unfold json_quote. rewrite (str_app_cons dquote). intros H. symmetry in H.
    apply numeric_head in H; try done; discriminate.
  - rewrite Hs1, Hs2. intros H. by apply quote_delimits in H as [-> ->].
Qed.

Lemma member_delimits (kv1 kv2 : string * jsval) (t1 t2 : string) :
  kv1.2 <> JUndefined -> kv2.2 <> JUndefined -> delimited t1 -> delimited t2 ->
  member_str kv1 +:+ t1 = member_str kv2 +:+ t2 ->
  member_text kv1 = member_text kv2 /\ t1 = t2.
Proof.
  destruct kv1 as [k1 v1], kv2 as [k2 v2]. simpl. intros H1 H2 D1 D2.
  unfold member_str, member_text. simpl. rewrite !str_app_assoc. intros H.
  apply quote_delimits in H as [-> H]. rewrite !str_app_cons, !str_app_nil in H.
  injection H as H. by apply val_delimits in H as [-> ->].
Qed.

Lemma join_comma_cons (x : string) (l : list string) :
  join_comma (x :: l) = x +:+ rest_str l.
Proof.
  destruct l as [|y l]; simpl; [|done]. by rewrite str_app_nil_r.
Qed.

Lemma members_delimit (l1 l2 : object) (r1 r2 : string) :
  Forall (fun kv => kv.2 <> JUndefined) l1 ->
  Forall (fun kv => kv.2 <> JUndefined) l2 ->
  join_comma (map member_str l1) +:+ String "}" r1
    = join_comma (map member_str l2) +:+ String "}" r2 ->
  map member_text l1 = map member_text l2.
Proof.
  intros F1. revert l2. induction F1 as [|kv1 l1 Hd1 F1 IH]; intros l2 F2.
  - destruct F2 as [|kv2 l2 Hd2 F2]; [done|].
    cbn [map]. rewrite join_comma_cons. cbn [join_comma]. rewrite str_app_nil.
    unfold member_str, json_quote. rewrite !str_app_assoc, !str_app_cons. discriminate.
  - destruct F2 as [|kv2 l2 Hd2 F2].
    + cbn [map]. rewrite join_comma_cons. cbn [join_comma]. rewrite str_app_nil.
      unfold member_str, json_quote. rewrite !str_app_assoc, !str_app_cons. discriminate.
    + cbn [map]. rewrite !join_comma_cons, !str_app_assoc. intros H.
      assert (D : forall (l : object) r,
                delimited (rest_str (map member_str l) +:+ String "}" r)).
      { intros [|x l] r; cbn [map rest_str].
        - exists r. right. reflexivity.
        - eexists. left. rewrite !str_app_assoc, !str_app_cons, str_app_nil. reflexivity. }
      apply member_delimits in H as [-> H]; [|done|done|apply D|apply D].
      f_equal. destruct l1 as [|x1 l1], l2 as [|x2 l2]; cbn [map rest_str] in H.
      * done.
      * rewrite !str_app_assoc, !str_app_cons, !str_app_nil in H. discriminate.
      * rewrite !str_app_assoc, !str_app_cons, !str_app_nil in H. discriminate.
      * rewrite !str_app_assoc, !str_app_cons, !str_app_nil in H. injection H as H.
        apply (IH (x2 :: l2) F2 H).
Qed.

Lemma omap_member_defined (o : object) :
  omap json_member o = map member_str (defined o) /\
  Forall (fun kv => kv.2 <> JUndefined) (defined o).
Proof.
  unfold defined. induction o as [|[k v] o [IH1 IH2]]; [by split|].
  destruct (decide (v = JUndefined)) as [->|Hv].
  - rewrite filter_cons_False by (intros H; by apply H). simpl. by split.
  - rewrite filter_cons_True by done. split; [|by apply Forall_cons].
    simpl. rewrite <- IH1. unfold json_member, member_str, val_str. simpl.
    destruct v as [ | | [ | ] | [z|m e|s] | s ]; done.
Qed.

(** [JSON.stringify] loses nothing of what it prints: equal strings come
    from objects whose defined members have the same names and the same
    texts, in the same order. *)
Lemma JSON_stringify_inj (o1 o2 : object) :
  JSON_stringify o1 = JSON_stringify o2 ->
  map member_text (defined o1) = map member_text (defined o2).
Proof.
  unfold JSON_stringify.
  destruct (omap_member_defined o1) as [-> F1]. destruct (omap_member_defined o2) as [-> F2].
  rewrite !str_app_cons, !str_app_nil. intros [= H].
  by apply (members_delimit _ _ "" "").
Qed.

Lemma text_of_absent (o : object) (k : string) :
  k ∉ o.*1 -> text_of k (map member_text (defined o)) = None.
Proof.
  unfold defined. induction o as [|[k' v] o IH]; [done|]. simpl.
  rewrite not_elem_of_cons. intros [Hne Hnot].
  destruct (decide (v = JUndefined)) as [->|Hv].
  - rewrite filter_cons_False by (intros H; by apply H). by apply IH.
  - rewrite filter_cons_True by done. simpl.
    destruct (String.eqb k' k) eqn:E; [|by apply IH].
    apply String.eqb_eq in E. congruence.
Qed.

(** The text recorded under a name is the text of the property of that
    name. *)
Lemma text_of_prop (o : object) (k : string) :
  NoDup o.*1 -> text_of k (map member_text (defined o)) = json_of_val (prop o k).
Proof.
  unfold defined. induction o as [|[k' v] o IH]; [done|]. simpl.
  rewrite NoDup_cons. intros [Hnot Hnd].
  destruct (decide (v = JUndefined)) as [->|Hv].
  - rewrite filter_cons_False by (intros H; by apply H).
    destruct (String.eqb k' k) eqn:E; [|by apply IH].
    apply String.eqb_eq in E as ->. simpl. by apply text_of_absent.
  - rewrite filter_cons_True by done. simpl.
    destruct (String.eqb k' k); [|by apply IH].
    unfold val_str. destruct (json_of_val v) eqn:Ev; [done|].
    destruct v as [ | | [ | ] | [z|m e|s] | s ]; done.
Qed.

(** Two objects with the same serialisation print every property alike. *)
Lemma JSON_stringify_prop (o1 o2 : object) (k : string) :
  NoDup o1.*1 -> NoDup o2.*1 ->
  JSON_stringify o1 = JSON_stringify o2 ->
  json_of_val (prop o1 k) = json_of_val (prop o2 k).
Proof.
  intros N1 N2 H. apply JSON_stringify_inj in H.
  by rewrite <- (text_of_prop o1 k N1), <- (text_of_prop o2 k N2), H.
Qed.

Lemma json_quote_inj (a b : string) : json_quote a = json_quote b -> a = b.
Proof.
  intros H. assert (H' : json_quote a +:+ "" = json_quote b +:+ "") by (by rewrite H).
  by apply quote_delimits in H' as [-> _].
Qed.

(** A value that is never [undefined] and whose text tells its argument
    is told by the text of the optional property. *)
Lemma opt_text_inj {A} (f : A -> jsval) (x y : option A) :
  (forall a, json_of_val (f a) <> None) ->
  (forall a b, json_of_val (f a) = json_of_val (f b) -> a = b) ->
  json_of_val (opt_val f x) = json_of_val (opt_val f y) -> x = y.
Proof.
  intros Hd Hi. destruct x as [a|], y as [b|]; simpl; intros H.
  - f_equal. by apply Hi.
  - by apply Hd in H.
  - symmetry in H. by apply Hd in H.
  - done.
Qed.

(** ** Reading the cache key back *)

Lemma printed_alike_absent (b : option number) : printed_alike None b <-> b = None.
Proof.
  unfold printed_alike. simpl. split; [|by intros ->].
  destruct b as [[z|m e|s]|]; done.
Qed.

Lemma printed_alike_infinite (s : bool) (b : option number) :
  printed_alike (Some (Infinity s)) b <-> exists s', b = Some (Infinity s').
Proof.
  unfold printed_alike. simpl. split.
  - destruct b as [[z|m e|s']|]; simpl; [| |by eauto|done]; intros [= H]; exfalso.
    + destruct (number_text_numeric (Int z)) as [Hn _]; [by intros [? ?]|].
      simpl in Hn. by rewrite <- H in Hn.
    + destruct (number_text_numeric (Dec m e)) as [Hn _]; [by intros [? ?]|].
      simpl in Hn. by rewrite <- H in Hn.
  - by intros [s' ->].
Qed.

Lemma printed_alike_plain (x y : Z) :
  Z.abs x < 10 ^ 21 \/ Z.abs y < 10 ^ 21 ->
  printed_alike (Some (Int x)) (Some (Int y)) -> x = y.
Proof.
  unfold printed_alike. simpl. intros Hs [= H]. by apply int_text_inj.
Qed.

Lemma printed_alike_integers (a b : option Z) :
  (forall x, a = Some x -> Z.abs x < 10 ^ 21) ->
  printed_alike (Int <$> a) (Int <$> b) -> a = b.
Proof.
  intros Ha. destruct a as [x|], b as [y|]; simpl.
  - intros H. f_equal. apply printed_alike_plain; [|done]. left. by apply Ha.
  - by intros H.
  - by intros H.
  - done.
Qed.

(** Numbers written alike are the same number, or two infinities. *)
Lemma printed_alike_told (a b : option number) : printed_alike a b -> told_alike a b.
Proof.
  intros H. assert (H' : printed_alike b a) by (unfold printed_alike in *; done).
  assert (Hfin : forall x y : number, ~ infinite x -> ~ infinite y ->
            printed_alike (Some x) (Some y) -> told_alike (Some x) (Some y)).
  { intros x y Fx Fy Hxy. left. apply number_text_inj; [done..|].
    unfold printed_alike in Hxy. simpl in Hxy.
    destruct x as [?|? ?|s]; [| |exfalso; apply Fx; by exists s];
      (destruct y as [?|? ?|s']; [| |exfalso; apply Fy; by exists s']);
      by injection Hxy. }
  destruct a as [[x|m e|s]|], b as [[y|m' e'|s']|];
    try (apply Hfin; [by intros [? ?]|by intros [? ?]|done]);
    try (by apply printed_alike_infinite in H as [? [= ]]);
    try (by apply printed_alike_infinite in H' as [? [= ]]);
    try (by apply printed_alike_absent in H);
    try (by apply printed_alike_absent in H').
  - right. by exists s, s'.
  - by left.
Qed.

(** A number between two finite bounds is finite. *)
Lemma bounded_finite (n lo hi : number) :
  ~ infinite lo -> ~ infinite hi -> le_num lo n = true -> le_num n hi = true -> ~ infinite n.
Proof.
  intros Hlo Hhi H1 H2 [s ->].
  destruct lo as [?|? ?|s1]; [| |exfalso; apply Hlo; by exists s1];
    (destruct hi as [?|? ?|s2]; [| |exfalso; apply Hhi; by exists s2]);
    destruct s; done.
Qed.

Section KeyRead.
Context (rt : Runtime) (config : OptimizerConfig).

Lemma cacheKey_object_NoDup (u : string) (p : Parsed) :
  NoDup (cacheKey_object config u p).*1.
Proof. apply (bool_decide_unpack _). vm_compute. exact I. Qed.

(** Two parsed requests with the same key: their key objects print every
    member alike. *)
Lemma cacheKey_members (p1 p2 : Parsed) (key : string) :
  cacheKey rt config p1 = Ok key ->
  cacheKey rt config p2 = Ok key ->
  exists u1 u2,
    source_identity rt p1 = Ok u1 /\ source_identity rt p2 = Ok u2 /\
    forall k, json_of_val (prop (cacheKey_object config u1 p1) k)
              = json_of_val (prop (cacheKey_object config u2 p2) k).
Proof.
  unfold cacheKey, rmap, rbind.
  destruct (source_identity rt p1) as [u1|e1]; [|discriminate].
  destruct (source_identity rt p2) as [u2|e2]; [|discriminate].
  intros H1 H2. injection H1 as H1. injection H2 as H2.
  exists u1, u2. split; [done|]. split; [done|]. intros k.
  apply JSON_stringify_prop; [apply cacheKey_object_NoDup..|congruence].
Qed.

(** What a key tells of the request it was derived from. *)
Lemma cacheKey_reads_back (p1 p2 : Parsed) (key : string) :
  cacheKey rt config p1 = Ok key ->
  cacheKey rt config p2 = Ok key ->
  source_identity rt p1 = source_identity rt p2 /\
  printed_alike (Int <$> p_w p1) (Int <$> p_w p2) /\
  printed_alike (Int <$> p_h p1) (Int <$> p_h p2) /\
  p_fit p1 = p_fit p2 /\
  p_format p1 = p_format p2 /\
  printed_alike (Some (Int (default (defaultQuality' config) (p_quality p1))))
                (Some (Int (default (defaultQuality' config) (p_quality p2)))) /\
  p_crop p1 = p_crop p2 /\ p_bg p1 = p_bg p2 /\
  printed_alike (p_blur p1) (p_blur p2) /\
  p_grayscale p1 = p_grayscale p2 /\
  printed_alike (p_rotate p1) (p_rotate p2) /\
  p_placeholder p1 = p_placeholder p2.
Proof.
  intros H1 H2. destruct (cacheKey_members p1 p2 key H1 H2) as (u1 & u2 & -> & -> & Hprop).
  pose proof (Hprop "u") as Hu. pose proof (Hprop "w") as Hw. pose proof (Hprop "h") as Hh.
  pose proof (Hprop "fit") as Hfit. pose proof (Hprop "f") as Hf.
  pose proof (Hprop "q") as Hq. pose proof (Hprop "c") as Hc.
  pose proof (Hprop "bg") as Hbg. pose proof (Hprop "bl") as Hbl.
  pose proof (Hprop "gs") as Hgs. pose proof (Hprop "r") as Hr.
  pose proof (Hprop "p") as Hpl. clear Hprop.
  cbn [cacheKey_object prop String.eqb Ascii.eqb Bool.eqb] in Hu, Hw, Hh, Hfit, Hf, Hq, Hc, Hbg, Hbl, Hgs, Hr, Hpl.
  assert (Hstr : forall a b, json_of_val (JStr a) = json_of_val (JStr b) -> a = b).
  { intros a b. cbn [json_of_val]. intros H. apply json_quote_inj. congruence. }
  repeat split.
  - f_equal. by apply Hstr.
  - unfold printed_alike. by destruct (p_w p1), (p_w p2).
  - unfold printed_alike. by destruct (p_h p1), (p_h p2).
  - apply Hstr in Hfit. by destruct (p_fit p1), (p_fit p2).
  - apply (opt_text_inj (fun f => JStr (Format_str f))); [done| |done].
    intros a b H. apply Hstr in H. by destruct a, b.
  - exact Hq.
  - apply (opt_text_inj (fun c => JStr (Crop_str c))); [done| |done].
    intros a b H. apply Hstr in H. by destruct a, b.
  - by apply (opt_text_inj JStr).
  - exact Hbl.
  - apply (opt_text_inj JBool); [by intros []| |done]. by intros [] [].
  - exact Hr.
  - apply (opt_text_inj (fun x => JStr (Placeholder_str x))); [done| |done].
    intros a b H. apply Hstr in H. by destruct a, b.
Qed.

(** The key begins with the source identity. *)
Lemma cacheKey_start (p : Parsed) (u key : string) :
  source_identity rt p = Ok u -> cacheKey rt config p = Ok key ->
  exists rest, key = key_start u +:+ rest.
Proof.
  intros Hs. unfold cacheKey. rewrite Hs. simpl. intros [= <-].
  unfold JSON_stringify, cacheKey_object. cbn [omap list_omap json_member json_of_val fst snd].
  rewrite join_comma_cons. eexists. unfold key_start.
  rewrite !str_app_assoc, !str_app_cons, !str_app_nil. reflexivity.
Qed.

(** Requests with the same key have the same source identity. *)
Lemma cacheKey_source (p other : Parsed) (key : string) :
  cacheKey rt config p = Ok key -> cacheKey rt config other = Ok key ->
  source_identity rt other = source_identity rt p.
Proof.
  intros H1 H2. by destruct (cacheKey_reads_back other p key H2 H1) as (H & _).
Qed.

End KeyRead.

(** ** Running [process] *)

Ltac run_M := unfold bind, lift, ret, throw, emit, on_cache; simpl.

Section ProcessFacts.
Context (rt : Runtime) {St : Type} (config : OptimizerConfig).
Implicit Types (cache : option (CacheLayer St)) (c : CacheLayer St).
Implicit Types (input : ProcessInput) (w : World St) (parsed : Parsed).

Lemma process_prepare_throw cache input w e :
  prepare rt config input = Throw e ->
  process rt config cache input w = (Throw e, w).
Proof.
  unfold process, prepare. run_M.
  destruct (querySchema_parse rt (in_props input)) as [parsed|e']; simpl; [|congruence].
  destruct (negb _ && negb _); [congruence|].
  destruct (check_whitelist rt config parsed) as [[]|e']; simpl; [|congruence].
  destruct (cacheKey rt config parsed) as [key|e']; simpl; congruence.
Qed.

Lemma process_after_prepare cache input w parsed key :
  prepare rt config input = Ok (parsed, key) ->
  process rt config cache input w =
  match (match cache with
         | Some c => on_cache (cache_get c key) w
         | None => (Ok None, w)
         end) with
  | (Ok (Some hit), w') => (Ok hit, w')
  | (Ok None, w') => process_miss rt config cache (enforce_max rt config input) parsed key w'
  | (Throw e, w') => (Throw e, w')
  end.
Proof.
  unfold process, prepare. run_M.
  destruct (querySchema_parse rt (in_props input)) as [parsed'|e']; simpl; [|congruence].
  destruct (negb _ && negb _); [congruence|].
  destruct (check_whitelist rt config parsed') as [[]|e']; simpl; [|congruence].
  destruct (cacheKey rt config parsed') as [key'|e']; simpl; [|congruence].
  intros [= -> ->].
  destruct cache as [c|]; simpl; [|done].
  destruct (cache_get c key (w_cache w)) as [[[hit|]|e] st']; done.
Qed.

Lemma process_hit c input w parsed key hit st' :
  prepare rt config input = Ok (parsed, key) ->
  cache_get c key (w_cache w) = (Ok (Some hit), st') ->
  process rt config (Some c) input w =
    (Ok hit, {| w_cache := st'; w_trace := w_trace w |}).
Proof.
  intros Hp Hg. rewrite (process_after_prepare _ _ _ _ _ Hp).
  unfold on_cache. by rewrite Hg.
Qed.

Lemma process_on_miss c input w parsed key st' :
  prepare rt config input = Ok (parsed, key) ->
  cache_get c key (w_cache w) = (Ok None, st') ->
  process rt config (Some c) input w =
    process_miss rt config (Some c) (enforce_max rt config input) parsed key
      {| w_cache := st'; w_trace := w_trace w |}.
Proof.
  intros Hp Hg. rewrite (process_after_prepare _ _ _ _ _ Hp).
  unfold on_cache. by rewrite Hg.
Qed.

(** A miss whose source is the supplied buffer. *)
Lemma process_miss_buffer c input w parsed key b out :
  in_buffer input = Some b ->
  sharp_toBuffer rt b (pipeline config parsed) = Some out ->
  process_miss rt config (Some c) input parsed key w =
    let '(r, st) := cache_set c key (result_of config parsed out) (w_cache w) in
    (rmap (fun _ => result_of config parsed out) r,
     {| w_cache := st; w_trace := w_trace w ++ [EvTransform b (pipeline config parsed)] |}).
Proof.
  intros Hb Hs. unfold process_miss, sourceBuffer, transform. rewrite Hb. run_M.
  rewrite Hs. simpl.
  destruct (cache_set c key _ (w_cache w)) as [[[]|e] st]; done.
Qed.

(** A miss whose source has to be fetched. *)
Lemma process_miss_fetch c input w parsed key body out :
  in_buffer input = None ->
  got rt (default "" (p_url parsed)) = Some body ->
  sharp_toBuffer rt body (pipeline config parsed) = Some out ->
  process_miss rt config (Some c) input parsed key w =
    let '(r, st) := cache_set c key (result_of config parsed out) (w_cache w) in
    (rmap (fun _ => result_of config parsed out) r,
     {| w_cache := st;
        w_trace := (w_trace w ++ [EvFetch (default "" (p_url parsed))])
                     ++ [EvTransform body (pipeline config parsed)] |}).
Proof.
  intros Hb Hg Hs. unfold process_miss, sourceBuffer, transform, fetchImage. rewrite Hb. run_M.
  rewrite Hg. simpl. rewrite Hs. simpl.
  destruct (cache_set c key _ (w_cache w)) as [[[]|e] st]; done.
Qed.

Lemma enforce_max_buffer input : in_buffer (enforce_max rt config input) = in_buffer input.
Proof. done. Qed.
End ProcessFacts.

(** ** Objects *)

Lemma prop_set_prop_eq (o : object) k v : prop (set_prop o k v) k = v.
Proof.
  induction o as [|[k' v'] o IH]; simpl.
  - by rewrite String.eqb_refl.
  - destruct (String.eqb k' k) eqn:E; simpl.
    + by rewrite String.eqb_refl.
    + by rewrite E.
Qed.

Lemma prop_set_prop_ne (o : object) k k' v : k <> k' -> prop (set_prop o k v) k' = prop o k'.
Proof.
  intros Hne. induction o as [|[k0 v0] o IH]; simpl.
  - destruct (String.eqb k k') eqn:E; [|done]. apply String.eqb_eq in E. done.
  - destruct (String.eqb k0 k) eqn:E; simpl.
    + apply String.eqb_eq in E as ->.
      destruct (String.eqb k k') eqn:E'; [|done]. apply String.eqb_eq in E'. done.
    + by rewrite IH.
Qed.

(** ** The schema *)

Section SchemaFacts.
Context (rt : Runtime).

(** The parse reads the object only through [prop]. *)
Lemma querySchema_parse_ext (o1 o2 : object) :
  (forall k, prop o1 k = prop o2 k) ->
  querySchema_parse rt o1 = querySchema_parse rt o2.
Proof. intros H. unfold querySchema_parse. by rewrite !H. Qed.

Lemma querySchema_parse_fields (o : object) (parsed : Parsed) :
  querySchema_parse rt o = Ok parsed ->
  z_default cover (z_enum Fit_all Fit_str) (prop o "fit") = Ok (p_fit parsed) /\
  z_optional (z_coerce_int rt quality_ok) (prop o "quality") = Ok (p_quality parsed) /\
  z_default_optional rt center (z_enum Crop_all Crop_str) (prop o "crop")
    = Ok (p_crop parsed) /\
  z_optional (z_enum Placeholder_all Placeholder_str) (prop o "placeholder")
    = Ok (p_placeholder parsed) /\
  z_optional (z_coerce_int rt dimension_ok) (prop o "w") = Ok (p_w parsed) /\
  z_optional (z_coerce_int rt dimension_ok) (prop o "h") = Ok (p_h parsed) /\
  z_optional (z_enum Format_all Format_str) (prop o "format") = Ok (p_format parsed).
Proof.
  unfold querySchema_parse.
  repeat (match goal with
          | |- rbind ?r _ = Ok _ -> _ => destruct r; simpl; [|discriminate]
          end).
  intros [= <-]. simpl. repeat split; reflexivity.
Qed.
End SchemaFacts.

(** ** More on the schema *)

Section SchemaMore.
Context (rt : Runtime).

Lemma querySchema_parse_inv (o : object) (p : Parsed) :
  querySchema_parse rt o = Ok p ->
  exists url,
    z_optional (z_optional (z_string (zod_url rt))) (prop o "url") = Ok url /\
    p_url p = mjoin url /\
    z_optional (z_coerce_int rt dimension_ok) (prop o "w") = Ok (p_w p) /\
    z_optional (z_coerce_int rt dimension_ok) (prop o "h") = Ok (p_h p) /\
    z_default cover (z_enum Fit_all Fit_str) (prop o "fit") = Ok (p_fit p) /\
    z_optional (z_enum Format_all Format_str) (prop o "format") = Ok (p_format p) /\
    z_optional (z_coerce_int rt quality_ok) (prop o "quality") = Ok (p_quality p) /\
    z_default_optional rt center (z_enum Crop_all Crop_str) (prop o "crop") = Ok (p_crop p) /\
    z_optional (z_string (fun _ => true)) (prop o "bg") = Ok (p_bg p) /\
    z_optional (z_coerce_number rt blur_ok) (prop o "blur") = Ok (p_blur p) /\
    z_optional z_coerce_boolean (prop o "grayscale") = Ok (p_grayscale p) /\
    z_optional (z_coerce_number rt (fun _ => true)) (prop o "rotate") = Ok (p_rotate p) /\
    z_optional (z_enum Placeholder_all Placeholder_str) (prop o "placeholder")
      = Ok (p_placeholder p).
Proof.
  unfold querySchema_parse.
  repeat (match goal with
          | |- rbind ?r _ = Ok _ -> _ => destruct r; simpl; [|discriminate]
          end).
  intros [= <-]. simpl. eexists. repeat split; reflexivity.
Qed.

Lemma rbind_throw {A B} (r : Result A) (k : A -> Result B) (e : error) :
  rbind r k = Throw e -> r = Throw e \/ exists a, r = Ok a /\ k a = Throw e.
Proof. destruct r; simpl; [right; eauto | left; congruence]. Qed.

Lemma z_optional_throw {A} (inner : jsval -> Result A) v e :
  (forall v' e', inner v' = Throw e' -> e' = ZodError) ->
  z_optional inner v = Throw e -> e = ZodError.
Proof.
  intros Hin. unfold z_optional, rmap.
  destruct v; try discriminate; destruct (inner _) eqn:E; simpl; try discriminate;
    intros [= <-]; eauto.
Qed.

Lemma z_string_throw check v e : z_string check v = Throw e -> e = ZodError.
Proof. unfold z_string. repeat case_match; congruence. Qed.

Lemma z_coerce_number_throw check v e : z_coerce_number rt check v = Throw e -> e = ZodError.
Proof. unfold z_coerce_number. repeat case_match; congruence. Qed.

Lemma z_coerce_int_throw check v e : z_coerce_int rt check v = Throw e -> e = ZodError.
Proof. unfold z_coerce_int. repeat case_match; congruence. Qed.

Lemma z_enum_throw {A} (all : list A) str v e : z_enum all str v = Throw e -> e = ZodError.
Proof. unfold z_enum. repeat case_match; congruence. Qed.

Lemma z_default_throw {A} (d : A) (inner : jsval -> Result A) v e :
  (forall v' e', inner v' = Throw e' -> e' = ZodError) ->
  z_default d inner v = Throw e -> e = ZodError.
Proof. intros Hin. unfold z_default. destruct v; try discriminate; eauto. Qed.

Lemma z_default_optional_throw {A} (d : A) (inner : jsval -> Result A) v e :
  (forall v' e', inner v' = Throw e' -> e' = ZodError) ->
  z_default_optional rt d inner v = Throw e -> e = ZodError.
Proof.
  intros Hin. unfold z_default_optional. destruct (zod_major rt).
  - apply z_optional_throw. intros v' e'. by apply z_default_throw.
  - unfold rmap. destruct (z_default d inner v) eqn:E; simpl; [discriminate|].
    intros [= <-]. by apply (z_default_throw d inner v).
Qed.

Lemma z_coerce_boolean_throw v e : z_coerce_boolean v = Throw e -> e = ZodError.
Proof. discriminate. Qed.
End SchemaMore.

Section SchemaRoundTrip.
Context (rt : Runtime).

Lemma querySchema_parse_throws (o : object) (e : error) :
  querySchema_parse rt o = Throw e -> e = ZodError.
Proof.
  unfold querySchema_parse. intros H.
  repeat (apply rbind_throw in H as [H|(? & _ & H)];
          [ first [ eapply z_optional_throw; [|exact H]; intros v' e';
                    first [ apply z_optional_throw; intros ? ?; apply z_string_throw
                          | apply z_string_throw | apply z_coerce_number_throw
                          | apply z_coerce_int_throw
                          | apply z_enum_throw | apply z_coerce_boolean_throw ]
                  | eapply z_default_throw; [|exact H]; intros v' e'; apply z_enum_throw
                  | eapply z_default_optional_throw; [|exact H]; intros v' e';
                    apply z_enum_throw ]
          | ]).
  discriminate.
Qed.

Lemma z_optional_defined {A} (inner : jsval -> Result A) v :
  v <> JUndefined -> z_optional inner v = rmap Some (inner v).
Proof. by destruct v. Qed.

Lemma z_optional_number_ok check v (x : option number) :
  z_optional (z_coerce_number rt check) v = Ok x ->
  (forall n, x = Some n -> check n = true) /\
  z_optional (z_coerce_number rt check) (opt_val JNum x) = Ok x.
Proof.
  destruct (decide (v = JUndefined)) as [->|Hv].
  - intros [= <-]. split; [discriminate | reflexivity].
  - rewrite z_optional_defined by done.
    unfold z_coerce_number, rmap.
    destruct (Number rt v) as [n|]; simpl; [|discriminate].
    destruct (z_number_ok rt n) eqn:F; simpl; [|discriminate].
    destruct (check n) eqn:E; simpl; [|discriminate].
    intros [= <-]. split; [by intros ? [= <-] | simpl; by rewrite F, E].
Qed.

(** Version 4 of zod lets no infinity through [z.coerce.number()]. *)
Lemma z_optional_number_finite check v (x : option number) (n : number) :
  z_optional (z_coerce_number rt check) v = Ok x ->
  zod_major rt = Zod4 -> x = Some n -> ~ infinite n.
Proof.
  intros H Hz ->. destruct (decide (v = JUndefined)) as [->|Hv]; [discriminate|].
  rewrite z_optional_defined in H by done.
  unfold z_coerce_number, rmap in H.
  destruct (Number rt v) as [m|]; simpl in H; [|discriminate].
  destruct (z_number_ok rt m) eqn:F; simpl in H; [|discriminate].
  destruct (check m); simpl in H; [|discriminate].
  injection H as ->. intros [s ->]. unfold z_number_ok in F. by rewrite Hz in F.
Qed.

Lemma z_optional_int_ok check v (x : option Z) :
  z_optional (z_coerce_int rt check) v = Ok x ->
  (forall n, x = Some n -> check n = true) /\
  z_optional (z_coerce_int rt check) (opt_val (fun n : Z => JNum n) x) = Ok x.
Proof.
  destruct (decide (v = JUndefined)) as [->|Hv].
  - intros [= <-]. split; [discriminate | reflexivity].
  - rewrite z_optional_defined by done.
    unfold z_coerce_int, rmap.
    destruct (Number rt v) as [n|]; simpl; [|discriminate].
    destruct (to_integer n) as [z|]; simpl; [|discriminate].
    destruct (check z) eqn:E; simpl; [|discriminate].
    intros [= <-]. split; [by intros ? [= <-] | simpl; by rewrite E].
Qed.

Lemma enum_of_str {A} (all : list A) (str : A -> string) (s : string) (a : A) :
  enum_of all str s = Some a -> str a = s /\ enum_of all str (str a) = Some a.
Proof.
  unfold enum_of. intros H.
  assert (str a = s) as <-; [|done].
  apply find_some in H as [_ H]. by apply String.eqb_eq.
Qed.

Lemma z_enum_ok {A} (all : list A) (str : A -> string) v (a : A) :
  z_enum all str v = Ok a -> z_enum all str (JStr (str a)) = Ok a.
Proof.
  unfold z_enum. destruct v; try discriminate.
  destruct (enum_of all str s) as [a'|] eqn:E; [|discriminate].
  intros [= <-]. apply enum_of_str in E as [_ ->]. reflexivity.
Qed.

Lemma z_optional_enum_ok {A} (all : list A) (str : A -> string) v (x : option A) :
  z_optional (z_enum all str) v = Ok x ->
  z_optional (z_enum all str) (opt_val (fun a => JStr (str a)) x) = Ok x.
Proof.
  destruct (decide (v = JUndefined)) as [->|Hv].
  - by intros [= <-].
  - rewrite z_optional_defined by done. unfold rmap.
    destruct (z_enum all str v) as [a|] eqn:E; simpl; [|discriminate].
    intros [= <-].
    change (rmap Some (z_enum all str (JStr (str a))) = Ok (Some a)).
    by rewrite (z_enum_ok all str _ a E).
Qed.

Lemma z_optional_string_ok check v (x : option string) :
  z_optional (z_string check) v = Ok x ->
  z_optional (z_string check) (opt_val JStr x) = Ok x.
Proof.
  destruct (decide (v = JUndefined)) as [->|Hv].
  - by intros [= <-].
  - rewrite z_optional_defined by done. unfold rmap, z_string.
    destruct v; simpl; try discriminate.
    destruct (check s) eqn:E; simpl; [|discriminate].
    intros [= <-]. simpl. by rewrite E.
Qed.

Lemma z_url_ok v (x : option (option string)) :
  z_optional (z_optional (z_string (zod_url rt))) v = Ok x ->
  z_optional (z_optional (z_string (zod_url rt))) (opt_val JStr (mjoin x)) = Ok x
  \/ (x = Some None /\ mjoin x = None).
Proof.
  destruct (decide (v = JUndefined)) as [->|Hv].
  - intros [= <-]. by left.
  - rewrite !z_optional_defined by done. unfold rmap, z_string.
    destruct v; simpl; try discriminate; try done.
    destruct (zod_url rt s) eqn:E; simpl; [|discriminate].
    intros [= <-]. left. simpl. by rewrite E.
Qed.

(** The adapter validates the query, spreads the outcome into a fresh
    object and [process] validates that object again: the second parse
    returns the request the first one produced. *)
Lemma querySchema_parse_spread (o : object) (p : Parsed) :
  querySchema_parse rt o = Ok p ->
  querySchema_parse rt (object_of_parsed p) = Ok p.
Proof.
  intros H. apply querySchema_parse_inv in H
    as (url & Hurl & Hu & Hw & Hh & Hfit & Hf & Hq & Hc & Hbg & Hbl & Hgs & Hr & Hp).
  unfold querySchema_parse.
  change (prop (object_of_parsed p) "url") with (opt_val JStr (p_url p)).
  change (prop (object_of_parsed p) "w") with (opt_val (fun n : Z => JNum n) (p_w p)).
  change (prop (object_of_parsed p) "h") with (opt_val (fun n : Z => JNum n) (p_h p)).
  change (prop (object_of_parsed p) "fit") with (JStr (Fit_str (p_fit p))).
  change (prop (object_of_parsed p) "format")
    with (opt_val (fun f => JStr (Format_str f)) (p_format p)).
  change (prop (object_of_parsed p) "quality")
    with (opt_val (fun n : Z => JNum n) (p_quality p)).
  change (prop (object_of_parsed p) "crop")
    with (opt_val (fun c => JStr (Crop_str c)) (p_crop p)).
  change (prop (object_of_parsed p) "bg") with (opt_val JStr (p_bg p)).
  change (prop (object_of_parsed p) "blur") with (opt_val JNum (p_blur p)).
  change (prop (object_of_parsed p) "grayscale") with (opt_val JBool (p_grayscale p)).
  change (prop (object_of_parsed p) "rotate") with (opt_val JNum (p_rotate p)).
  change (prop (object_of_parsed p) "placeholder")
    with (opt_val (fun x => JStr (Placeholder_str x)) (p_placeholder p)).
  destruct (z_optional_int_ok _ _ _ Hw) as [_ ->].
  destruct (z_optional_int_ok _ _ _ Hh) as [_ ->].
  destruct (z_optional_int_ok _ _ _ Hq) as [_ ->].
  destruct (z_optional_number_ok _ _ _ Hbl) as [_ ->].
  destruct (z_optional_number_ok _ _ _ Hr) as [_ ->].
  rewrite (z_optional_enum_ok _ _ _ _ Hf), (z_optional_enum_ok _ _ _ _ Hp).
  rewrite (z_optional_string_ok _ _ _ Hbg).
  assert (Hfit' : z_default cover (z_enum Fit_all Fit_str) (JStr (Fit_str (p_fit p)))
                  = Ok (p_fit p)) by (by destruct (p_fit p)).
  rewrite Hfit'.
  assert (Hgs' : z_optional z_coerce_boolean (opt_val JBool (p_grayscale p))
                 = Ok (p_grayscale p)) by (by destruct (p_grayscale p) as [[]|]).
  rewrite Hgs'.
  assert (Hc' : z_default_optional rt center (z_enum Crop_all Crop_str)
                  (opt_val (fun c => JStr (Crop_str c)) (p_crop p)) = Ok (p_crop p)).
  { unfold z_default_optional in *. destruct (zod_major rt).
    - by destruct (p_crop p) as [[]|].
    - destruct (p_crop p) as [[]|]; try done.
      exfalso. destruct (z_default center (z_enum Crop_all Crop_str) (prop o "crop"));
        discriminate. }
  rewrite Hc'.
  assert (Hurl' : exists url', z_optional (z_optional (z_string (zod_url rt)))
                    (opt_val JStr (p_url p)) = Ok url' /\ mjoin url' = p_url p).
  { rewrite Hu. destruct (z_url_ok _ _ Hurl) as [->|[-> _]]; [by eexists|].
    by exists None. }
  destruct Hurl' as (url' & -> & Hj). simpl. rewrite Hj.
  by destruct p.
Qed.

(** Every parsed request is within the bounds of the schema. *)
Lemma querySchema_parse_bounds (o : object) (p : Parsed) :
  querySchema_parse rt o = Ok p ->
  (forall n, p_w p = Some n -> 0 < n <= 10000) /\
  (forall n, p_h p = Some n -> 0 < n <= 10000) /\
  (forall n, p_quality p = Some n -> 1 <= n <= 100) /\
  (forall n, p_blur p = Some n -> le_num 0 n = true /\ le_num n 100 = true).
Proof.
  intros H. apply querySchema_parse_inv in H
    as (url & _ & _ & Hw & Hh & _ & _ & Hq & _ & _ & Hbl & _).
  destruct (z_optional_int_ok _ _ _ Hw) as [Bw _].
  destruct (z_optional_int_ok _ _ _ Hh) as [Bh _].
  destruct (z_optional_int_ok _ _ _ Hq) as [Bq _].
  destruct (z_optional_number_ok _ _ _ Hbl) as [Bb _].
  unfold dimension_ok, quality_ok, blur_ok in *.
  split; [|split; [|split]]; intros m Hm.
  - specialize (Bw m Hm). lia.
  - specialize (Bh m Hm). lia.
  - specialize (Bq m Hm). lia.
  - specialize (Bb m Hm). by apply andb_true_iff in Bb.
Qed.

Lemma querySchema_parse_rotate (o : object) (p : Parsed) (n : number) :
  querySchema_parse rt o = Ok p -> zod_major rt = Zod4 ->
  p_rotate p = Some n -> ~ infinite n.
Proof.
  intros H. apply querySchema_parse_inv in H
    as (url & _ & _ & _ & _ & _ & _ & _ & _ & _ & _ & _ & Hr & _).
  by apply (z_optional_number_finite _ _ _ _ Hr).
Qed.
End SchemaRoundTrip.

(** ** Maximum dimensions *)

(** Whatever maxima are configured, [process] answers as if there were
    none: the two assignments change [input], and nothing after them reads
    [input.w] or [input.h]. *)
Lemma process_ignores_max (rt : Runtime) {St} (config : OptimizerConfig)
    (cache : option (CacheLayer St)) (mw mh : option Z) input w :
  process rt (with_max config mw mh) cache input w = process rt config cache input w.
Proof. reflexivity. Qed.

Lemma deriveKey_ignores_max (rt : Runtime) (config : OptimizerConfig) mw mh props :
  deriveKey rt (with_max config mw mh) props = deriveKey rt config props.
Proof. reflexivity. Qed.

(** C1, on the code. With [maxWidth = 4000] and a request for
    [w = 9000], the assignment clamps the caller's [input.w] to 4000, but
    the key and the pipeline are built from [parsed], the separate object
    the schema returned: the key records 9000, the whole call equals the
    call made with no maximum configured, and the engine is asked for a
    width of 9000. *)
Theorem clamp_not_applied (major : ZodMajor) :
  let rt := Demo.runtime major in
  prop (in_props (enforce_max rt Demo.capped Demo.wide)) "w" = JNum 4000 /\
  deriveKey rt Demo.capped (in_props Demo.wide) =
    Ok (JSON_stringify [("u", JStr "buffer"); ("w", JNum 9000); ("fit", JStr "cover");
                        ("q", JNum 80); ("c", JStr "center")]) /\
  process rt Demo.capped (Some Demo.memory) Demo.wide (world0 Demo.memory0)
  = process rt Demo.no_limits (Some Demo.memory) Demo.wide (world0 Demo.memory0) /\
  w_trace (process rt Demo.capped (Some Demo.memory) Demo.wide (world0 Demo.memory0)).2 =
    [EvTransform Demo.red [Resize (Some 9000) None (Some cover) (Some centre)]].
Proof. destruct major; vm_compute; auto. Qed.

(** ** Defaults *)

Section Defaults.
Context (rt : Runtime) {St : Type} (config : OptimizerConfig).
Implicit Types (cache : option (CacheLayer St)).

(** [process] reads its argument through [input.buffer] and through the
    parse of its properties only. *)
Lemma process_ext cache (i1 i2 : ProcessInput) (w : World St) :
  in_buffer i1 = in_buffer i2 ->
  querySchema_parse rt (in_props i1) = querySchema_parse rt (in_props i2) ->
  process rt config cache i1 w = process rt config cache i2 w.
Proof.
  intros Hb Hp. unfold process, process_miss, sourceBuffer. simpl.
  rewrite Hb, Hp. reflexivity.
Qed.

Lemma defaults_of_absent (o : object) (parsed : Parsed) :
  querySchema_parse rt o = Ok parsed ->
  (prop o "fit" = JUndefined -> p_fit parsed = cover) /\
  (prop o "quality" = JUndefined ->
     default (defaultQuality' config) (p_quality parsed) = default 80 (defaultQuality config)) /\
  (prop o "placeholder" = JUndefined -> p_placeholder parsed = None) /\
  (prop o "crop" = JUndefined ->
     p_crop parsed = match zod_major rt with Zod3 => None | Zod4 => Some center end).
Proof.
  intros H. apply querySchema_parse_fields in H as (Hf & Hq & Hc & Hp & _).
  repeat split; intros E; rewrite E in *; simpl in *.
  - congruence.
  - injection Hq as <-. reflexivity.
  - congruence.
  - unfold z_default_optional in Hc. destruct (zod_major rt); simpl in Hc; congruence.
Qed.

(** With version 4 of zod an absent [crop] is the same request as
    [crop: "center"]. *)
Lemma crop_absent_as_center_zod4 cache (b : option Buffer) (o : object) (w : World St) :
  zod_major rt = Zod4 ->
  prop o "crop" = JUndefined ->
  process rt config cache {| in_buffer := b; in_props := set_prop o "crop" (JStr "center") |} w
  = process rt config cache {| in_buffer := b; in_props := o |} w.
Proof.
  intros Hz Hc. apply process_ext; [done|]. simpl.
  unfold querySchema_parse.
  rewrite prop_set_prop_eq, Hc.
  rewrite !prop_set_prop_ne by discriminate.
  unfold z_default_optional. rewrite Hz. reflexivity.
Qed.

(** With version 3 the position handed to [resize] is [attention]. *)
Lemma crop_absent_attention_zod3 (o : object) (parsed : Parsed) :
  zod_major rt = Zod3 ->
  prop o "crop" = JUndefined ->
  querySchema_parse rt o = Ok parsed ->
  truthy_num (p_w parsed) || truthy_num (p_h parsed) = true ->
  exists rest,
    pipeline config parsed =
      Resize (p_w parsed) (p_h parsed)
        (Some (if decide (p_fit parsed = crop_fit) then cover else p_fit parsed))
        (Some attention) :: rest.
Proof.
  intros Hz Hc Hp Hwh.
  destruct (defaults_of_absent o parsed Hp) as (_ & _ & _ & Hcrop).
  specialize (Hcrop Hc). rewrite Hz in Hcrop.
  unfold pipeline, buildSharpPipeline. rewrite Hwh, Hcrop. simpl.
  repeat match goal with
  | |- context [match ?x with _ => _ end] => destruct x; simpl
  end; rewrite <- ?app_assoc; simpl; eexists; reflexivity.
Qed.
End Defaults.

(** C4, on the code with version 3 of zod. For [{ buffer, w: 5 }] the
    parsed request has no crop at all, so [crop === "center"] is false and
    [resize] is positioned by [attention]; the same request with
    [crop: "center"] written out is positioned by [centre], and the two
    derive different cache keys. *)
Theorem crop_default_lost :
  let rt := Demo.runtime Zod3 in
  rmap p_crop (querySchema_parse rt (in_props Demo.small)) = Ok None /\
  w_trace (process rt Demo.no_limits (Some Demo.memory) Demo.small (world0 Demo.memory0)).2 =
    [EvTransform Demo.red [Resize (Some 5) None (Some cover) (Some attention)]] /\
  w_trace (process rt Demo.no_limits (Some Demo.memory) Demo.small_center
             (world0 Demo.memory0)).2 =
    [EvTransform Demo.red [Resize (Some 5) None (Some cover) (Some centre)]] /\
  deriveKey rt Demo.no_limits (in_props Demo.small) <>
  deriveKey rt Demo.no_limits (in_props Demo.small_center).
Proof. vm_compute. repeat split; congruence. Qed.

(** ** Key derivation *)

Lemma prop_absent (o : object) (k : string) : k ∉ o.*1 -> prop o k = JUndefined.
Proof.
  induction o as [|[k' v'] o IH]; simpl; [done|].
  rewrite not_elem_of_cons. intros [Hne Hnot].
  destruct (String.eqb k' k) eqn:E; [|by apply IH].
  apply String.eqb_eq in E. congruence.
Qed.

Lemma prop_present (o : object) (k : string) (v : jsval) :
  NoDup (o.*1) -> (k, v) ∈ o -> prop o k = v.
Proof.
  induction o as [|[k' v'] o IH]; simpl.
  - intros _ H. by apply elem_of_nil in H.
  - rewrite NoDup_cons, elem_of_cons. intros [Hnot Hnd] [[= <- <-]|Hin].
    + by rewrite String.eqb_refl.
    + destruct (String.eqb k' k) eqn:E; [|by apply IH].
      apply String.eqb_eq in E as ->. exfalso. apply Hnot.
      apply list_elem_of_fmap. by exists (k, v).
Qed.

(** Reading a property does not depend on the order the properties were
    written in. *)
Lemma prop_Permutation (o1 o2 : object) (k : string) :
  NoDup (o1.*1) -> o1 ≡ₚ o2 -> prop o1 k = prop o2 k.
Proof.
  intros Hnd Hperm.
  assert (Hnd2 : NoDup (o2.*1)) by (by rewrite <- Hperm).
  destruct (decide (k ∈ o1.*1)) as [Hin|Hnot].
  - apply list_elem_of_fmap in Hin as ([k' v] & -> & Hin). simpl.
    rewrite (prop_present o1 k' v Hnd Hin).
    symmetry. apply prop_present; [done|]. by rewrite <- Hperm.
  - rewrite (prop_absent o1 k Hnot). symmetry. apply prop_absent.
    by rewrite <- Hperm.
Qed.

Section KeyFacts.
Context (rt : Runtime) (config : OptimizerConfig).

Lemma deriveKey_ext (o1 o2 : object) :
  (forall k, prop o1 k = prop o2 k) ->
  deriveKey rt config o1 = deriveKey rt config o2.
Proof. intros H. unfold deriveKey. by rewrite (querySchema_parse_ext rt o1 o2 H). Qed.

Lemma cacheKey_object_names (u : string) (parsed : Parsed) :
  (cacheKey_object config u parsed).*1 =
    ["u"; "w"; "h"; "fit"; "f"; "q"; "c"; "bg"; "bl"; "gs"; "r"; "p"].
Proof. reflexivity. Qed.

Lemma prepare_key (input : ProcessInput) (parsed : Parsed) (key : string) :
  prepare rt config input = Ok (parsed, key) ->
  querySchema_parse rt (in_props input) = Ok parsed /\
  check_whitelist rt config parsed = Ok tt /\
  cacheKey rt config parsed = Ok key.
Proof.
  unfold prepare.
  destruct (querySchema_parse rt (in_props input)) as [parsed'|e]; simpl; [|discriminate].
  destruct (negb _ && negb _); [discriminate|].
  destruct (check_whitelist rt config parsed') as [[]|e] eqn:Hw; simpl; [|discriminate].
  destruct (cacheKey rt config parsed') as [key'|e] eqn:Hk; simpl; [|discriminate].
  intros [= <- <-]. repeat split; assumption.
Qed.
End KeyFacts.

(** C5. The cache key of a request is the same string whatever the order
    in which its properties were written: two objects that are
    permutations of one another derive the same key, and two parsed
    requests with equal fields derive the same key. The key is the
    serialisation of an object whose members are, in this order, u, w, h,
    fit, f, q (the quality or the default), c, bg, bl, gs, r, p, and it
    tells these values: two requests the schema accepted that have the
    same key have the same source identity, width, height, fit, format,
    quality (or default), crop, background, grayscale and placeholder,
    the same blur and the same rotation, except that two rotations that
    are both infinite, which version 3 of zod lets through and
    [JSON.stringify] writes [null], are not told apart. *)
Theorem cache_key_deterministic (rt : Runtime) (config : OptimizerConfig) (o1 o2 : object) :
  NoDup (o1.*1) ->
  o1 ≡ₚ o2 ->
  deriveKey rt config o1 = deriveKey rt config o2 /\
  (forall p1 p2 : Parsed,
     p_url p1 = p_url p2 -> p_w p1 = p_w p2 -> p_h p1 = p_h p2 -> p_fit p1 = p_fit p2 ->
     p_format p1 = p_format p2 ->
     default (defaultQuality' config) (p_quality p1)
       = default (defaultQuality' config) (p_quality p2) ->
     p_crop p1 = p_crop p2 -> p_bg p1 = p_bg p2 -> p_blur p1 = p_blur p2 ->
     p_grayscale p1 = p_grayscale p2 -> p_rotate p1 = p_rotate p2 ->
     p_placeholder p1 = p_placeholder p2 ->
     cacheKey rt config p1 = cacheKey rt config p2) /\
  (forall (q1 q2 : object) (p1 p2 : Parsed) (key : string),
     querySchema_parse rt q1 = Ok p1 -> querySchema_parse rt q2 = Ok p2 ->
     cacheKey rt config p1 = Ok key -> cacheKey rt config p2 = Ok key ->
     source_identity rt p1 = source_identity rt p2 /\
     p_w p1 = p_w p2 /\ p_h p1 = p_h p2 /\ p_fit p1 = p_fit p2 /\
     p_format p1 = p_format p2 /\
     default (defaultQuality' config) (p_quality p1)
       = default (defaultQuality' config) (p_quality p2) /\
     p_crop p1 = p_crop p2 /\ p_bg p1 = p_bg p2 /\
     p_grayscale p1 = p_grayscale p2 /\ p_placeholder p1 = p_placeholder p2 /\
     same_number (p_blur p1) (p_blur p2) /\
     told_alike (p_rotate p1) (p_rotate p2) /\
     (zod_major rt = Zod4 -> same_number (p_rotate p1) (p_rotate p2))) /\
  (forall parsed key,
     cacheKey rt config parsed = Ok key ->
     exists u, source_identity rt parsed = Ok u /\
               key = JSON_stringify (cacheKey_object config u parsed) /\
               (cacheKey_object config u parsed).*1 =
                 ["u"; "w"; "h"; "fit"; "f"; "q"; "c"; "bg"; "bl"; "gs"; "r"; "p"]).
Proof.
  intros Hnd Hperm. split; [|split; [|split]].
  - apply deriveKey_ext. intros k. by apply prop_Permutation.
  - intros p1 p2 Hu Hw Hh Hfit Hf Hq Hc Hbg Hbl Hgs Hr Hp.
    unfold cacheKey, source_identity, cacheKey_object.
    rewrite Hu, Hw, Hh, Hfit, Hf, Hq, Hc, Hbg, Hbl, Hgs, Hr, Hp. reflexivity.
  - intros q1 q2 p1 p2 key Hp1 Hp2 Hk1 Hk2.
    destruct (cacheKey_reads_back rt config p1 p2 key Hk1 Hk2)
      as (Hu & Hw & Hh & Hfit & Hf & Hq & Hc & Hbg & Hbl & Hgs & Hr & Hpl).
    destruct (querySchema_parse_bounds rt q1 p1 Hp1) as (Bw1 & Bh1 & Bq1 & Bb1).
    destruct (querySchema_parse_bounds rt q2 p2 Hp2) as (_ & _ & Bq2 & _).
    assert (Hw' : p_w p1 = p_w p2).
    { apply printed_alike_integers; [|done]. intros x Hx. specialize (Bw1 x Hx). lia. }
    assert (Hh' : p_h p1 = p_h p2).
    { apply printed_alike_integers; [|done]. intros x Hx. specialize (Bh1 x Hx). lia. }
    assert (Hq' : default (defaultQuality' config) (p_quality p1)
                  = default (defaultQuality' config) (p_quality p2)).
    { destruct (p_quality p1) as [x|] eqn:E1, (p_quality p2) as [y|] eqn:E2; simpl in *.
      - apply printed_alike_plain; [|done]. left. specialize (Bq1 x eq_refl). lia.
      - apply printed_alike_plain; [|done]. left. specialize (Bq1 x eq_refl). lia.
      - apply printed_alike_plain; [|done]. right. specialize (Bq2 y eq_refl). lia.
      - reflexivity. }
    apply printed_alike_told in Hbl, Hr.
    assert (Hbl' : same_number (p_blur p1) (p_blur p2)).
    { destruct Hbl as [Hbl|(s & s' & Hs & _)]; [done|].
      destruct (Bb1 _ Hs) as [Hlo Hhi]. by destruct s. }
    assert (Hr' : zod_major rt = Zod4 -> same_number (p_rotate p1) (p_rotate p2)).
    { intros Hz. destruct Hr as [Hr|(s & s' & Hs & _)]; [done|].
      exfalso. apply (querySchema_parse_rotate rt q1 p1 _ Hp1 Hz Hs). by exists s. }
    exact (conj Hu (conj Hw' (conj Hh' (conj Hfit (conj Hf (conj Hq' (conj Hc (conj Hbg
             (conj Hgs (conj Hpl (conj Hbl' (conj Hr Hr')))))))))))).
  - intros parsed key. unfold cacheKey.
    destruct (source_identity rt parsed) as [u|e]; simpl; [|discriminate].
    intros [= <-]. exists u. repeat split.
Qed.

Lemma cache_key_deterministic_witness :
  deriveKey (Demo.runtime Zod3) Demo.no_limits Demo.ordered
    = deriveKey (Demo.runtime Zod3) Demo.no_limits Demo.shuffled /\
  default (defaultQuality' Demo.no_limits) None
    = default (defaultQuality' Demo.no_limits) (Some 80) /\
  same_number (Some (Dec 5 1)) (Some (Dec 50 2)) /\
  told_alike (Some (Infinity false)) (Some (Infinity true)).
Proof.
  assert (Hnd : NoDup Demo.ordered.*1) by (apply (bool_decide_unpack _); vm_compute; exact I).
  assert (Hperm : Demo.ordered ≡ₚ Demo.shuffled).
  { apply NoDup_Permutation.
    - apply (bool_decide_unpack _). vm_compute. exact I.
    - apply (bool_decide_unpack _). vm_compute. exact I.
    - intros x. unfold Demo.ordered, Demo.shuffled.
      rewrite !elem_of_cons, !elem_of_nil. tauto. }
  pose proof (cache_key_deterministic (Demo.runtime Zod3) Demo.no_limits
                Demo.ordered Demo.shuffled Hnd Hperm) as (H1 & _ & H3 & _).
  split; [exact H1|]. split; [|split].
  - refine (proj1 (proj2 (proj2 (proj2 (proj2 (proj2
      (H3 [("w", JNum 5)] [("w", JNum 5); ("quality", JNum 80)] _ _
          (JSON_stringify [("u", JStr "buffer"); ("w", JNum 5); ("fit", JStr "cover");
                           ("q", JNum 80)]) eq_refl eq_refl _ _))))))).
    + vm_compute. reflexivity.
    + vm_compute. reflexivity.
  - refine (proj1 (proj2 (proj2 (proj2 (proj2 (proj2 (proj2 (proj2 (proj2 (proj2 (proj2
      (H3 [("blur", JNum (Dec 5 1))] [("blur", JNum (Dec 50 2))] _ _
          (JSON_stringify [("u", JStr "buffer"); ("fit", JStr "cover"); ("q", JNum 80);
                           ("bl", JNum (Dec 5 1))]) eq_refl eq_refl _ _)))))))))))).
    + vm_compute. reflexivity.
    + vm_compute. reflexivity.
  - refine (proj1 (proj2 (proj2 (proj2 (proj2 (proj2 (proj2 (proj2 (proj2 (proj2 (proj2 (proj2
      (H3 [("rotate", JNum (Infinity false))] [("rotate", JNum (Infinity true))] _ _
          (JSON_stringify [("u", JStr "buffer"); ("fit", JStr "cover"); ("q", JNum 80);
                           ("r", JNull)]) eq_refl eq_refl _ _))))))))))))).
    + vm_compute. reflexivity.
    + vm_compute. reflexivity.
Defined.

(** ** The allowlist *)

Section Allowlist.
Context (rt : Runtime) {St : Type} (config : OptimizerConfig).

Lemma whitelist_entry_matches_spec (url d : string) :
  whitelist_entry_matches rt url d = true <-> hostname_ends_with rt url d.
Proof.
  unfold whitelist_entry_matches, hostname_ends_with.
  destruct (new_URL rt url) as [u|].
  - rewrite endsWith_spec. split.
    + intros [pre H]. by exists u, pre.
    + intros (u' & pre & [= <-] & H). by exists pre.
  - split; [discriminate|]. by intros (u & pre & [=] & _).
Qed.

Lemma allowed_spec (url : string) (wl : list string) :
  existsb (whitelist_entry_matches rt url) wl = true <->
  exists d, d ∈ wl /\ hostname_ends_with rt url d.
Proof.
  rewrite existsb_exists. split; intros (d & Hin & H); exists d.
  - by rewrite list_elem_of_In, <- whitelist_entry_matches_spec.
  - by rewrite <- list_elem_of_In, whitelist_entry_matches_spec.
Qed.

Lemma check_whitelist_spec (parsed : Parsed) (wl : list string) (url : string) :
  whitelist config = Some wl ->
  p_url parsed = Some url ->
  url <> "" ->
  check_whitelist rt config parsed =
    if existsb (whitelist_entry_matches rt url) wl then Ok tt else Throw access_denied.
Proof.
  intros Hwl Hurl Hne. unfold check_whitelist. rewrite Hwl, Hurl. simpl.
  destruct (String.eqb url "") eqn:E; [by apply String.eqb_eq in E|]. reflexivity.
Qed.

Lemma process_parse_ok (cache : option (CacheLayer St)) input parsed w :
  querySchema_parse rt (in_props input) = Ok parsed ->
  truthy_str (p_url parsed) = true ->
  process rt config cache input w =
    match check_whitelist rt config parsed with
    | Throw e => (Throw e, w)
    | Ok _ => process rt (without_whitelist config) cache input w
    end.
Proof.
  intros Hp Hu. unfold process, bind, lift. rewrite Hp, Hu, andb_false_r. simpl.
  destruct (check_whitelist rt config parsed) as [[]|e]; reflexivity.
Qed.
End Allowlist.

(** C6. With an allowlist configured and a URL in the input, the request
    is refused with status 403 exactly when no allowlist entry is a suffix
    of the URL's hostname (a URL the parser rejects has no hostname and is
    refused); when some entry is a suffix, the allowlist check lets the
    request through and [process] goes on as it would without an
    allowlist. *)
Theorem allowlist_enforcement (rt : Runtime) {St : Type} (config : OptimizerConfig)
    (cache : option (CacheLayer St)) (input : ProcessInput) (w : World St)
    (parsed : Parsed) (wl : list string) (url : string) :
  whitelist config = Some wl ->
  querySchema_parse rt (in_props input) = Ok parsed ->
  p_url parsed = Some url ->
  url <> "" ->
  (check_whitelist rt config parsed = Throw access_denied <->
     ~ exists d, d ∈ wl /\ hostname_ends_with rt url d) /\
  ((~ exists d, d ∈ wl /\ hostname_ends_with rt url d) ->
     process rt config cache input w = (Throw access_denied, w) /\
     statusOf access_denied = 403) /\
  ((exists d, d ∈ wl /\ hostname_ends_with rt url d) ->
     check_whitelist rt config parsed = Ok tt /\
     process rt config cache input w = process rt (without_whitelist config) cache input w).
Proof.
  intros Hwl Hp Hurl Hne.
  pose proof (check_whitelist_spec rt config parsed wl url Hwl Hurl Hne) as Hc.
  pose proof (allowed_spec rt url wl) as Ha.
  assert (Ht : truthy_str (p_url parsed) = true).
  { rewrite Hurl. simpl. destruct (String.eqb url "") eqn:E; [|done].
    by apply String.eqb_eq in E. }
  pose proof (process_parse_ok rt config cache input parsed w Hp Ht) as Hproc.
  destruct (existsb (whitelist_entry_matches rt url) wl) eqn:E.
  - assert (Hall : exists d, d ∈ wl /\ hostname_ends_with rt url d) by (by apply Ha).
    split; [|split].
    + rewrite Hc. split; [discriminate | tauto].
    + tauto.
    + intros _. split; [done|]. by rewrite Hproc, Hc.
  - assert (Hnone : ~ exists d, d ∈ wl /\ hostname_ends_with rt url d).
    { intros H. apply Ha in H. discriminate. }
    split; [|split].
    + rewrite Hc. tauto.
    + intros _. split; [|done]. by rewrite Hproc, Hc.
    + tauto.
Qed.

Lemma allowlist_enforcement_witness :
  process (Demo.runtime Zod3) Demo.gated (Some Demo.memory) Demo.from_evil (world0 Demo.memory0)
    = (Throw access_denied, world0 Demo.memory0) /\
  process (Demo.runtime Zod3) Demo.gated (Some Demo.memory) Demo.from_cdn (world0 Demo.memory0)
    = process (Demo.runtime Zod3) (without_whitelist Demo.gated) (Some Demo.memory)
        Demo.from_cdn (world0 Demo.memory0).
Proof.
  split.
  - refine (proj1 (proj1 (proj2 (allowlist_enforcement (Demo.runtime Zod3) Demo.gated
      (Some Demo.memory) Demo.from_evil (world0 Demo.memory0) _ ["example.com"]
      "https://evil.com/x.png" eq_refl eq_refl eq_refl _)) _)).
    + discriminate.
    + intros (d & Hd & u & pre & Hu & Hh).
      apply list_elem_of_singleton in Hd as ->.
      injection Hu as <-.
      assert (E : endsWith "evil.com" "example.com" = true) by (apply endsWith_spec; eauto).
      vm_compute in E. discriminate.
  - refine (proj2 (proj2 (proj2 (allowlist_enforcement (Demo.runtime Zod3) Demo.gated
      (Some Demo.memory) Demo.from_cdn (world0 Demo.memory0) _ ["example.com"]
      "https://cdn.example.com/x.png" eq_refl eq_refl eq_refl _)) _)).
    + discriminate.
    + exists "example.com". split; [apply list_elem_of_singleton; reflexivity|].
      exists {| href := "https://cdn.example.com/x.png"; hostname := "cdn.example.com" |}, "cdn.".
      split; reflexivity.
Defined.

(** ** The disk backend *)

Section DiskFacts.
Context (cd : Codec) (cfg : CacheConfig).

Lemma disk_get_ok (key : string) (st : Disk.State) :
  Disk.ensureDir cfg st = Ok tt ->
  Disk.get cd cfg key st =
    match Disk.get_try cd (Disk.fileForKey cd cfg key) st with
    | Some (r, st') => (Ok r, st')
    | None => (Ok None, st)
    end.
Proof. intros H. unfold Disk.get. by rewrite H. Qed.

(** Creating the directory is the one step of [get] outside its [try]. *)
Lemma disk_get_mkdir_fails (key : string) (st : Disk.State) (e : error) :
  Disk.ensureDir cfg st = Throw e ->
  Disk.get cd cfg key st = (Throw e, st).
Proof. intros H. unfold Disk.get. by rewrite H. Qed.

Lemma disk_expired_spec (st : Disk.State) (rec : CacheRecord) (e : Z) :
  expiresAt rec = Some e -> e <> 0 -> e < Disk.now st -> Disk.expired st rec = true.
Proof.
  intros He Hnz Hlt. unfold Disk.expired. rewrite He. simpl.
  apply andb_true_iff. split.
  - apply negb_true_iff, Z.eqb_neq. done.
  - by apply Z.ltb_lt.
Qed.
End DiskFacts.

(** ** Writing then reading on disk *)

Section DiskRoundTrip.
Context (cd : Codec) (cfg : CacheConfig).
Hypothesis JSON_round_trip :
  forall rec, JSON_parse cd (JSON_stringify_record cd rec) = Some rec.
Hypothesis base64_round_trip :
  forall b, base64_decode cd (base64_encode cd b) = b.

Lemma revive_serializable (v : ProcessResult) : revive cd (serializable cd v) = v.
Proof. destruct v. unfold revive, serializable. simpl. by rewrite base64_round_trip. Qed.

Lemma disk_set_ok (key : string) (v : ProcessResult) (st : Disk.State) :
  Disk.ensureDir cfg st = Ok tt ->
  exists rec,
    value rec = serializable cd v /\
    expiresAt rec = (if Disk.ttlMs cfg is Some t then Some (Disk.now st + t) else None) /\
    Disk.set cd cfg key v st =
      (Ok tt, Disk.with_files st
                (<[Disk.fileForKey cd cfg key := JSON_stringify_record cd rec]>
                   (Disk.files st))).
Proof.
  intros Hdir. unfold Disk.set. rewrite Hdir.
  eexists {| value := serializable cd v; expiresAt := _ |}. repeat split.
  simpl. unfold Disk.ttlMs.
  destruct (ttl cfg) as [t|]; [|done].
  destruct (truthy (JNum t)) eqn:Ht; [|done].
  simpl in *. destruct (t * 1000 =? 0) eqn:E; [|done].
  apply Z.eqb_eq in E. apply negb_true_iff, Z.eqb_neq in Ht. lia.
Qed.

(** What was written is read back for as long as it has not expired. *)
Lemma disk_get_after_set (key : string) (v : ProcessResult) (st : Disk.State) (later : Z) :
  Disk.ensureDir cfg st = Ok tt ->
  (forall t, Disk.ttlMs cfg = Some t -> later <= Disk.now st + t) ->
  let st1 := at_time (Disk.set cd cfg key v st).2 later in
  Disk.get cd cfg key st1 = (Ok (Some v), st1).
Proof.
  intros Hdir Hfresh st1.
  destruct (disk_set_ok key v st Hdir) as (rec & Hval & Hexp & Hset).
  subst st1. rewrite Hset. simpl.
  rewrite disk_get_ok by exact Hdir.
  unfold Disk.get_try. simpl. rewrite lookup_insert_eq, JSON_round_trip.
  assert (Disk.expired (at_time (Disk.with_files st
            (<[Disk.fileForKey cd cfg key := JSON_stringify_record cd rec]> (Disk.files st)))
            later) rec = false) as ->.
  { unfold Disk.expired. rewrite Hexp.
    destruct (Disk.ttlMs cfg) as [t|]; [|done].
    simpl. apply andb_false_iff. right. apply Z.ltb_ge. by apply Hfresh. }
  by rewrite Hval, revive_serializable.
Qed.

(** The TTL scenario: written with a positive TTL and read after it has
    run out, the record is reported absent and its file is removed. *)
Lemma disk_get_after_expiry (key : string) (v : ProcessResult) (st : Disk.State)
    (t later : Z) :
  Disk.ensureDir cfg st = Ok tt ->
  ttl cfg = Some t -> 0 < t -> 0 <= Disk.now st ->
  Disk.now st + t * 1000 < later ->
  exists st2,
    Disk.get cd cfg key (at_time (Disk.set cd cfg key v st).2 later) = (Ok None, st2) /\
    Disk.files st2 !! Disk.fileForKey cd cfg key = None.
Proof.
  intros Hdir Httl Hpos Hnow Hlate.
  destruct (disk_set_ok key v st Hdir) as (rec & Hval & Hexp & Hset).
  rewrite Hset. simpl.
  rewrite disk_get_ok by exact Hdir.
  unfold Disk.get_try. simpl. rewrite lookup_insert_eq, JSON_round_trip.
  assert (Hms : Disk.ttlMs cfg = Some (t * 1000)).
  { unfold Disk.ttlMs. rewrite Httl. simpl.
    destruct (t =? 0) eqn:E; [apply Z.eqb_eq in E; lia | done]. }
  rewrite Hms in Hexp.
  rewrite (disk_expired_spec _ rec (Disk.now st + t * 1000)); [|done|lia|simpl; lia].
  eexists. split; [reflexivity|]. simpl. apply lookup_delete_eq.
Qed.
End DiskRoundTrip.




(** ** Cache hits *)

(** C8. Two calls whose inputs normalise to the same parameters: once the
    first has returned and the backend still answers its key with the
    result it stored, the second call returns the very result of the
    first, and the trace of fetches and transforms is the one the first
    call left: neither collaborator is invoked again. *)
Theorem process_idempotent_on_cache (rt : Runtime) {St : Type} (config : OptimizerConfig)
    (c : CacheLayer St) (first second : ProcessInput) (parsed : Parsed) (key key' : string)
    (w0 w1 : World St) (r : ProcessResult) (st2 : St) :
  prepare rt config first = Ok (parsed, key) ->
  prepare rt config second = Ok (parsed, key') ->
  process rt config (Some c) first w0 = (Ok r, w1) ->
  cache_get c key (w_cache w1) = (Ok (Some r), st2) ->
  (process rt config (Some c) second w1).1 = (process rt config (Some c) first w0).1 /\
  w_trace (process rt config (Some c) second w1).2
    = w_trace (process rt config (Some c) first w0).2.
Proof.
  intros H1 H2 Hrun Hget.
  assert (key' = key) as ->.
  { apply prepare_key in H1 as (_ & _ & H1). apply prepare_key in H2 as (_ & _ & H2).
    congruence. }
  rewrite (process_hit rt config c second w1 parsed key r st2 H2 Hget), Hrun.
  split; reflexivity.
Qed.

Lemma process_idempotent_on_cache_witness :
  let rt := Demo.runtime Zod3 in
  let once := process rt Demo.no_limits (Some Demo.memory) Demo.small (world0 Demo.memory0) in
  let twice := process rt Demo.no_limits (Some Demo.memory) Demo.small once.2 in
  twice.1 = once.1 /\ w_trace twice.2 = w_trace once.2.
Proof.
  intros rt once twice.
  apply (process_idempotent_on_cache rt Demo.no_limits Demo.memory Demo.small Demo.small
           {| p_url := None; p_w := Some 5; p_h := None; p_fit := cover; p_format := None;
              p_quality := None; p_crop := None; p_bg := None; p_blur := None;
              p_grayscale := None; p_rotate := None; p_placeholder := None |}
           (JSON_stringify [("u", JStr "buffer"); ("w", JNum 5); ("fit", JStr "cover");
                            ("q", JNum 80)])
           (JSON_stringify [("u", JStr "buffer"); ("w", JNum 5); ("fit", JStr "cover");
                            ("q", JNum 80)])
           (world0 Demo.memory0) once.2
           {| r_buffer := Demo.red; r_contentType := "image/png";
              r_etag := createEtag Demo.red; r_width := Some 10; r_height := Some 10 |}
           (w_cache once.2)).
  - vm_compute. reflexivity.
  - vm_compute. reflexivity.
  - vm_compute. reflexivity.
  - vm_compute. reflexivity.
Defined.

(** ** The memory backend keeps what it is given *)

Section MemoryFacts.
Context (cfg : CacheConfig).

Lemma memory_lookup_head key e l : Memory.lookup key ((key, e) :: l) = Some e.
Proof. simpl. by rewrite String.eqb_refl. Qed.

(** Read at the time of the write, an entry is never stale unless the
    configured TTL is negative. *)
Lemma memory_get_after_set (key : string) (v : ProcessResult) (st : Memory.State) :
  0 <= Memory.ttlMs cfg ->
  (Memory.get cfg key (Memory.set key v st).2).1 = Ok (Some v).
Proof.
  intros Httl. unfold Memory.set, Memory.get. simpl.
  rewrite String.eqb_refl.
  unfold Memory.stale. simpl.
  replace (Memory.ttlMs cfg <? Memory.now st - Memory.now st) with false.
  - by rewrite andb_false_r.
  - symmetry. apply Z.ltb_ge. lia.
Qed.

(** A hit leaves the entry in place for the next read. *)
Lemma memory_get_again (key : string) (v : ProcessResult) (st st' : Memory.State) :
  Memory.get cfg key st = (Ok (Some v), st') ->
  Memory.get cfg key st' = (Ok (Some v), st').
Proof.
  unfold Memory.get.
  destruct (Memory.lookup key (Memory.entries st)) as [[v0 start]|] eqn:Hl; [|discriminate].
  destruct (Memory.stale cfg st start) eqn:Hs; [discriminate|].
  intros [= <- <-]. simpl. rewrite String.eqb_refl.
  change (Memory.stale cfg _ start) with (Memory.stale cfg st start). rewrite Hs.
  do 3 f_equal. unfold Memory.remove.
  rewrite filter_cons_False by (intros H; by apply H).
  rewrite list_filter_filter. apply list_filter_iff. simpl. tauto.
Qed.
End MemoryFacts.

(** After a successful call against the memory backend with a
    non-negative TTL, the backend answers the call's key with the call's
    result: the premise of the statements about hits is met by the
    backend itself. *)
Lemma memory_backend_populated (rt : Runtime) (config : OptimizerConfig) (cfg : CacheConfig)
    (input : ProcessInput) (parsed : Parsed) (key : string)
    (w0 w1 : World Memory.State) (r : ProcessResult) :
  0 <= Memory.ttlMs cfg ->
  prepare rt config input = Ok (parsed, key) ->
  process rt config (Some (Memory.createMemoryCache cfg)) input w0 = (Ok r, w1) ->
  exists st2, cache_get (Memory.createMemoryCache cfg) key (w_cache w1) = (Ok (Some r), st2).
Proof.
  intros Httl Hp. rewrite (process_after_prepare rt config _ input w0 parsed key Hp).
  unfold on_cache. simpl.
  destruct (Memory.get cfg key (w_cache w0)) as [[[hit|]|e] st'] eqn:Hg; simpl.
  - intros [= <- <-]. simpl. exists st'. by apply (memory_get_again cfg key hit (w_cache w0)).
  - unfold process_miss, sourceBuffer, transform, fetchImage. run_M.
    set (wm := {| w_cache := st'; w_trace := w_trace w0 |}).
    assert (Hset : forall (res : ProcessResult) (w : World Memory.State),
      (let '(r0, st) := Memory.set key res (w_cache w) in
       (r0, {| w_cache := st; w_trace := w_trace w |})) =
      (Ok tt, {| w_cache := (Memory.set key res (w_cache w)).2; w_trace := w_trace w |}))
      by reflexivity.
    pose proof (memory_get_after_set cfg key) as Hret.
    destruct (in_buffer input) as [b|]; simpl.
    + destruct (sharp_toBuffer rt b (pipeline config parsed)) as [out|]; simpl;
        [|discriminate].
      intros H. inversion H; subst; clear H.
      specialize (Hret (result_of config parsed out) st' Httl).
      change (exists st2,
        Memory.get cfg key (Memory.set key (result_of config parsed out) st').2
        = (Ok (Some (result_of config parsed out)), st2)).
      destruct (Memory.get cfg key (Memory.set key (result_of config parsed out) st').2)
        as [g st2]. simpl in Hret. subst g. by exists st2.
    + destruct (got rt (default "" (p_url parsed))) as [body|]; simpl; [|discriminate].
      destruct (sharp_toBuffer rt body (pipeline config parsed)) as [out|]; simpl;
        [|discriminate].
      intros H. inversion H; subst; clear H.
      specialize (Hret (result_of config parsed out) st' Httl).
      change (exists st2,
        Memory.get cfg key (Memory.set key (result_of config parsed out) st').2
        = (Ok (Some (result_of config parsed out)), st2)).
      destruct (Memory.get cfg key (Memory.set key (result_of config parsed out) st').2)
        as [g st2]. simpl in Hret. subst g. by exists st2.
  - discriminate.
Qed.

Lemma memory_second_call_is_hit (rt : Runtime) (config : OptimizerConfig) (cfg : CacheConfig)
    (first second : ProcessInput) (parsed : Parsed) (key : string)
    (w0 w1 : World Memory.State) (r : ProcessResult) :
  0 <= Memory.ttlMs cfg ->
  prepare rt config first = Ok (parsed, key) ->
  prepare rt config second = Ok (parsed, key) ->
  process rt config (Some (Memory.createMemoryCache cfg)) first w0 = (Ok r, w1) ->
  (process rt config (Some (Memory.createMemoryCache cfg)) second w1).1 = Ok r /\
  w_trace (process rt config (Some (Memory.createMemoryCache cfg)) second w1).2 = w_trace w1.
Proof.
  intros Httl H1 H2 Hrun.
  destruct (memory_backend_populated rt config cfg first parsed key w0 w1 r Httl H1 Hrun)
    as [st2 Hget].
  rewrite (process_hit rt config _ second w1 parsed key r st2 H2 Hget).
  split; reflexivity.
Qed.

(** ** The source of the bytes *)

Section SourceFacts.
Context (rt : Runtime) {St : Type} (config : OptimizerConfig).
Implicit Types (cache : option (CacheLayer St)) (c : CacheLayer St).

Lemma source_identity_url (parsed : Parsed) (url : string) (u : URL) :
  p_url parsed = Some url -> url <> "" -> new_URL rt url = Some u ->
  source_identity rt parsed = Ok (href u).
Proof.
  intros Hu Hne Hn. unfold source_identity. rewrite Hu. simpl.
  destruct (String.eqb url "") eqn:E; [by apply String.eqb_eq in E|]. simpl.
  by rewrite Hn.
Qed.

Lemma source_identity_buffer (parsed : Parsed) :
  truthy_str (p_url parsed) = false -> source_identity rt parsed = Ok "buffer".
Proof. intros H. unfold source_identity. by rewrite H. Qed.

Lemma prepare_buffer_irrelevant (b1 b2 : Buffer) (props : object) :
  prepare rt config {| in_buffer := Some b1; in_props := props |}
  = prepare rt config {| in_buffer := Some b2; in_props := props |}.
Proof. reflexivity. Qed.

(** A call that is handed a buffer asks nothing of the fetcher: whatever
    it adds to the trace is a transform of that buffer. *)
Lemma process_buffer_no_fetch cache (input : ProcessInput) (b : Buffer) (w : World St) :
  in_buffer input = Some b ->
  exists evs, w_trace (process rt config cache input w).2 = w_trace w ++ evs /\
              Forall (transforms b) evs.
Proof.
  intros Hb.
  destruct (prepare rt config input) as [[parsed key]|e] eqn:Hp.
  2:{ rewrite (process_prepare_throw rt config cache input w e Hp).
      exists []. by rewrite app_nil_r. }
  rewrite (process_after_prepare rt config cache input w parsed key Hp).
  assert (Hone : Forall (transforms b) [EvTransform b (pipeline config parsed)]).
  { apply Forall_singleton. by exists (pipeline config parsed). }
  assert (Hmiss : forall w', exists evs,
    w_trace (process_miss rt config cache (enforce_max rt config input) parsed key w').2
      = w_trace w' ++ evs /\ Forall (transforms b) evs).
  { intros w'. unfold process_miss, sourceBuffer, transform. simpl. rewrite Hb.
    run_M.
    destruct (sharp_toBuffer rt b (pipeline config parsed)) as [out|]; simpl.
    - destruct cache as [c|]; simpl.
      + destruct (cache_set c key _ (w_cache w')) as [[[]|e] st]; simpl;
          by eexists [_].
      + by eexists [_].
    - by eexists [_]. }
  destruct cache as [c|]; simpl.
  - unfold on_cache.
    destruct (cache_get c key (w_cache w)) as [[[hit|]|e] st'] eqn:Hg; simpl.
    + exists []. by rewrite app_nil_r.
    + apply (Hmiss {| w_cache := st'; w_trace := w_trace w |}).
    + exists []. by rewrite app_nil_r.
  - apply Hmiss.
Qed.
End SourceFacts.

(** C9. The source identity of the key comes from the [url] property
    alone. Two inputs that differ in their buffer only are prepared to the
    same parsed request and key. A non-empty URL gives the serialised URL
    as identity even when a buffer comes with it, and without a URL the
    identity is the constant [buffer]; the key begins with that identity,
    and every request that derives the same key has the same identity. A
    call that carries a buffer asks nothing of the fetcher: what it adds
    to the trace is a transform of that buffer. Hence, after a call with
    one buffer has returned and while the backend answers its key with
    the stored result, a call with other bytes and the same properties is
    served that stored result. *)
Theorem source_identity_ignores_buffer (rt : Runtime) {St : Type} (config : OptimizerConfig)
    (c : CacheLayer St) (b1 b2 : Buffer) (props : object) (parsed : Parsed) (key : string)
    (w0 w1 : World St) (r : ProcessResult) (st2 : St) :
  let first := {| in_buffer := Some b1; in_props := props |} in
  let second := {| in_buffer := Some b2; in_props := props |} in
  prepare rt config first = Ok (parsed, key) ->
  process rt config (Some c) first w0 = (Ok r, w1) ->
  cache_get c key (w_cache w1) = (Ok (Some r), st2) ->
  prepare rt config second = Ok (parsed, key) /\
  (forall url u, p_url parsed = Some url -> url <> "" -> new_URL rt url = Some u ->
     source_identity rt parsed = Ok (href u) /\
     exists rest, key = key_start (href u) +:+ rest) /\
  (truthy_str (p_url parsed) = false ->
     source_identity rt parsed = Ok "buffer" /\
     exists rest, key = buffer_key_start +:+ rest) /\
  (forall other, cacheKey rt config other = Ok key ->
     source_identity rt other = source_identity rt parsed) /\
  (exists evs, w_trace w1 = w_trace w0 ++ evs /\ Forall (transforms b1) evs) /\
  process rt config (Some c) second w1 =
    (Ok r, {| w_cache := st2; w_trace := w_trace w1 |}).
Proof.
  intros first second Hp Hrun Hget.
  assert (Hp2 : prepare rt config second = Ok (parsed, key)) by exact Hp.
  pose proof (prepare_key rt config first parsed key Hp) as (_ & _ & Hkey).
  split; [exact Hp2|]. split; [|split; [|split; [|split]]].
  - intros url u Hu Hne Hn.
    pose proof (source_identity_url rt parsed url u Hu Hne Hn) as Hs.
    split; [exact Hs|]. by apply (cacheKey_start rt config parsed).
  - intros Hu. pose proof (source_identity_buffer rt parsed Hu) as Hs.
    split; [exact Hs|]. change buffer_key_start with (key_start "buffer").
    by apply (cacheKey_start rt config parsed).
  - intros other Ho. by apply (cacheKey_source rt config parsed other key).
  - destruct (process_buffer_no_fetch rt config (Some c) first b1 w0 eq_refl)
      as (evs & Ht & Hf).
    rewrite Hrun in Ht. by exists evs.
  - by apply (process_hit rt config c second w1 parsed key).
Qed.

Lemma source_identity_ignores_buffer_witness :
  let rt := Demo.runtime Zod4 in
  let once := process rt Demo.no_limits (Some Demo.memory) Demo.tagged (world0 Demo.memory0) in
  process rt Demo.no_limits (Some Demo.memory) Demo.tagged_blue once.2 = once /\
  w_trace once.2 = [EvTransform Demo.red []].
Proof.
  intros rt once.
  destruct (source_identity_ignores_buffer rt Demo.no_limits Demo.memory Demo.red Demo.blue
              [("url", JStr "https://cdn.example.com/x.png")]
              {| p_url := Some "https://cdn.example.com/x.png"; p_w := None; p_h := None;
                 p_fit := cover; p_format := None; p_quality := None;
                 p_crop := Some center; p_bg := None; p_blur := None;
                 p_grayscale := None; p_rotate := None; p_placeholder := None |}
              (JSON_stringify [("u", JStr "https://cdn.example.com/x.png");
                               ("fit", JStr "cover"); ("q", JNum 80); ("c", JStr "center")])
              (world0 Demo.memory0) once.2
              {| r_buffer := Demo.red; r_contentType := "image/png";
                 r_etag := createEtag Demo.red; r_width := Some 10; r_height := Some 10 |}
              (w_cache once.2))
    as (_ & _ & _ & _ & _ & H).
  - vm_compute. reflexivity.
  - vm_compute. reflexivity.
  - vm_compute. reflexivity.
  - unfold Demo.tagged_blue. rewrite H. vm_compute. split; reflexivity.
Defined.

(** C3, as the code has it. Two calls that each supply a buffer, whatever
    its bytes, no URL, and properties that parse to the same request
    derive one key. Its source identity is the constant [buffer], the key
    begins with it, and every request with that key has that identity.
    Once the first call has returned and while the backend answers that
    key with the stored result, the second call is served the entry the
    first one wrote, and nothing is fetched or transformed again. *)
Theorem buffer_resubmission_served_from_cache (rt : Runtime) {St : Type}
    (config : OptimizerConfig) (c : CacheLayer St) (b1 b2 : Buffer) (props1 props2 : object)
    (parsed : Parsed) (key : string) (w0 w1 : World St) (r : ProcessResult) (st2 : St) :
  let first := {| in_buffer := Some b1; in_props := props1 |} in
  let second := {| in_buffer := Some b2; in_props := props2 |} in
  prepare rt config first = Ok (parsed, key) ->
  querySchema_parse rt props2 = Ok parsed ->
  p_url parsed = None ->
  process rt config (Some c) first w0 = (Ok r, w1) ->
  cache_get c key (w_cache w1) = (Ok (Some r), st2) ->
  prepare rt config second = Ok (parsed, key) /\
  source_identity rt parsed = Ok "buffer" /\
  (exists rest, key = buffer_key_start +:+ rest) /\
  (forall other, cacheKey rt config other = Ok key -> source_identity rt other = Ok "buffer") /\
  process rt config (Some c) second w1 = (Ok r, {| w_cache := st2; w_trace := w_trace w1 |}).
Proof.
  intros first second Hp Hparse Hu Hrun Hget.
  pose proof (prepare_key rt config first parsed key Hp) as (_ & Hwl & Hkey).
  assert (Hs : source_identity rt parsed = Ok "buffer").
  { apply source_identity_buffer. by rewrite Hu. }
  assert (Hp2 : prepare rt config second = Ok (parsed, key)).
  { unfold prepare. simpl. rewrite Hparse. simpl. rewrite Hwl. simpl. by rewrite Hkey. }
  split; [exact Hp2|]. split; [exact Hs|]. split; [|split].
  - change buffer_key_start with (key_start "buffer").
    by apply (cacheKey_start rt config parsed).
  - intros other Ho. rewrite <- Hs. by apply (cacheKey_source rt config parsed other key).
  - by apply (process_hit rt config c second w1 parsed key).
Qed.

Lemma buffer_resubmission_served_from_cache_witness :
  let rt := Demo.runtime Zod3 in
  let once := process rt Demo.no_limits (Some Demo.memory) Demo.small (world0 Demo.memory0) in
  process rt Demo.no_limits (Some Demo.memory) Demo.small_blue once.2 = once /\
  w_trace once.2 = [EvTransform Demo.red [Resize (Some 5) None (Some cover) (Some attention)]].
Proof.
  intros rt once.
  destruct (buffer_resubmission_served_from_cache rt Demo.no_limits Demo.memory
              Demo.red Demo.blue [("w", JNum 5)] [("w", JNum 5)]
              {| p_url := None; p_w := Some 5; p_h := None; p_fit := cover; p_format := None;
                 p_quality := None; p_crop := None; p_bg := None; p_blur := None;
                 p_grayscale := None; p_rotate := None; p_placeholder := None |}
              (JSON_stringify [("u", JStr "buffer"); ("w", JNum 5); ("fit", JStr "cover");
                               ("q", JNum 80)])
              (world0 Demo.memory0) once.2
              {| r_buffer := Demo.red; r_contentType := "image/png";
                 r_etag := createEtag Demo.red; r_width := Some 10; r_height := Some 10 |}
              (w_cache once.2))
    as (_ & _ & _ & _ & H).
  - vm_compute. reflexivity.
  - vm_compute. reflexivity.
  - reflexivity.
  - vm_compute. reflexivity.
  - vm_compute. reflexivity.
  - unfold Demo.small_blue. rewrite H. vm_compute. split; reflexivity.
Defined.

(** C3 as stated fails: the same three bytes submitted twice with
    [w = 5] and [crop = "center"] against the memory backend. The second
    call finds the entry of the first under the key it derives, returns
    it, and leaves the trace with the single transform of the first
    call. *)
Lemma buffer_resubmission_hits :
  let rt := Demo.runtime Zod3 in
  let once :=
    process rt Demo.no_limits (Some Demo.memory) Demo.small_center (world0 Demo.memory0) in
  let twice := process rt Demo.no_limits (Some Demo.memory) Demo.small_center once.2 in
  (exists r,
     once.1 = Ok r /\ twice.1 = Ok r /\
     (cache_get Demo.memory
        (JSON_stringify [("u", JStr "buffer"); ("w", JNum 5); ("fit", JStr "cover");
                         ("q", JNum 80); ("c", JStr "center")]) (w_cache once.2)).1
       = Ok (Some r)) /\
  w_trace once.2 = [EvTransform Demo.red [Resize (Some 5) None (Some cover) (Some centre)]] /\
  w_trace twice.2 = w_trace once.2.
Proof. vm_compute. split; [eexists; repeat split|]; split; reflexivity. Qed.

(** ** Cache writes *)

(** C2, as the code has it. [process] awaits [cache.set] without a
    handler: when the lookup missed, the source bytes were obtained and
    the engine produced its output, a rejection of the write is the
    outcome of the call, although the result had been assembled. *)
Theorem cache_write_failure_propagates (rt : Runtime) {St : Type} (config : OptimizerConfig)
    (c : CacheLayer St) (input : ProcessInput) (w : World St) (parsed : Parsed)
    (key : string) (st1 st2 : St) (src : Buffer) (out : SharpOutput) (e : error) :
  prepare rt config input = Ok (parsed, key) ->
  cache_get c key (w_cache w) = (Ok None, st1) ->
  (in_buffer input = Some src \/
   (in_buffer input = None /\ got rt (default "" (p_url parsed)) = Some src)) ->
  sharp_toBuffer rt src (pipeline config parsed) = Some out ->
  cache_set c key (result_of config parsed out) st1 = (Throw e, st2) ->
  (process rt config (Some c) input w).1 = Throw e.
Proof.
  intros Hp Hget Hsrc Hsharp Hset.
  rewrite (process_on_miss rt config c input w parsed key st1 Hp Hget).
  destruct Hsrc as [Hb|[Hb Hgot]].
  - rewrite (process_miss_buffer rt config c (enforce_max rt config input) _ parsed key
               src out Hb Hsharp).
    simpl. by rewrite Hset.
  - rewrite (process_miss_fetch rt config c (enforce_max rt config input) _ parsed key
               src out Hb Hgot Hsharp).
    simpl. by rewrite Hset.
Qed.

Lemma cache_write_failure_propagates_witness :
  (process (Demo.runtime Zod3) Demo.no_limits (Some Demo.readonly) Demo.small_center
     (world0 tt)).1 = Throw (IOError "READONLY").
Proof.
  apply (cache_write_failure_propagates (Demo.runtime Zod3) Demo.no_limits Demo.readonly
           Demo.small_center (world0 tt)
           {| p_url := None; p_w := Some 5; p_h := None; p_fit := cover; p_format := None;
              p_quality := None; p_crop := Some center; p_bg := None; p_blur := None;
              p_grayscale := None; p_rotate := None; p_placeholder := None |}
           (JSON_stringify [("u", JStr "buffer"); ("w", JNum 5); ("fit", JStr "cover");
                            ("q", JNum 80); ("c", JStr "center")])
           tt tt Demo.red
           {| data := Demo.red; info_format := "png"; info_width := 10; info_height := 10 |}).
  - vm_compute. reflexivity.
  - reflexivity.
  - left. reflexivity.
  - reflexivity.
  - reflexivity.
Defined.

(** C2 as stated fails: against a backend whose lookups miss and whose
    writes are refused, the call transforms the image and then rejects
    with the error of the write. *)
Lemma cache_write_failure_rejects_call :
  process (Demo.runtime Zod3) Demo.no_limits (Some Demo.readonly) Demo.small_center (world0 tt)
  = (Throw (IOError "READONLY"),
     {| w_cache := tt;
        w_trace := [EvTransform Demo.red [Resize (Some 5) None (Some cover) (Some centre)]] |})
  /\ cache_set Demo.readonly
       (JSON_stringify [("u", JStr "buffer"); ("w", JNum 5); ("fit", JStr "cover");
                        ("q", JNum 80); ("c", JStr "center")])
       (result_of Demo.no_limits
          {| p_url := None; p_w := Some 5; p_h := None; p_fit := cover; p_format := None;
             p_quality := None; p_crop := Some center; p_bg := None; p_blur := None;
             p_grayscale := None; p_rotate := None; p_placeholder := None |}
          {| data := Demo.red; info_format := "png"; info_width := 10; info_height := 10 |})
       tt = (Throw (IOError "READONLY"), tt).
Proof. vm_compute. split; reflexivity. Qed.

(** ** Output formats *)

Section FormatFacts.
Context (rt : Runtime) (config : OptimizerConfig).

Lemma buildSharpPipeline_no_encode (input : list SharpOp) (params : Parsed) :
  forallb (fun op => negb (is_encode op)) input = true ->
  forallb (fun op => negb (is_encode op)) (buildSharpPipeline input params) = true.
Proof.
  intros H. unfold buildSharpPipeline.
  repeat match goal with
  | |- context [match ?x with _ => _ end] => destruct x
  end; rewrite ?forallb_app, ?H; reflexivity.
Qed.


End FormatFacts.




Example disallowed_format_run :
  process (Demo.runtime Zod4) Demo.png_only (Some Demo.memory) Demo.as_webp
    (world0 Demo.memory0)
  = (Ok {| r_buffer := Demo.red; r_contentType := "image/png";
           r_etag := createEtag Demo.red; r_width := Some 10; r_height := Some 10 |},
     {| w_cache :=
          {| Memory.entries :=
               [(JSON_stringify [("u", JStr "buffer"); ("fit", JStr "cover");
                                 ("f", JStr "webp"); ("q", JNum 80); ("c", JStr "center")],
                 ({| r_buffer := Demo.red; r_contentType := "image/png";
                     r_etag := createEtag Demo.red; r_width := Some 10;
                     r_height := Some 10 |}, 1000))];
             Memory.now := 1000 |};
        w_trace := [EvTransform Demo.red []] |}).
Proof. vm_compute. reflexivity. Qed.

(* ================================================================== *)
(** * Further properties of the code *)
(* ================================================================== *)

(** X1. Parsing is idempotent on what it accepts: the object an adapter
    spreads out of a parsed query and hands to [process] is accepted by
    the second parse, inside [process], with the very same outcome, so
    the coercions (text to number, anything to boolean) and the defaults
    are never applied twice to different effect. *)
Theorem schema_reparse_is_identity (rt : Runtime) (o : object) (p : Parsed) :
  querySchema_parse rt o = Ok p ->
  querySchema_parse rt (object_of_parsed p) = Ok p.
Proof. exact (querySchema_parse_spread rt o p). Qed.

Lemma schema_reparse_is_identity_witness :
  querySchema_parse Fixture.runtime (object_of_parsed Fixture.get_image_parsed)
  = Ok Fixture.get_image_parsed.
Proof.
  exact (schema_reparse_is_identity Fixture.runtime (Express.query Fixture.get_image)
           Fixture.get_image_parsed eq_refl).
Defined.

(** ** The express middleware *)

Section ExpressFacts.
Context (rt : Runtime) {St : Type}.
Context (config : OptimizerConfig) (cache : option (CacheLayer St)).
Context (cache_cfg : option CacheConfig).
Implicit Types (req : Express.Request) (w : World St).

Lemma express_on_throw req w e w' :
  Express.handle rt config cache req w = (Throw e, w') ->
  Express.expressMiddleware rt config cache cache_cfg req w =
    ({| Express.status := statusOf e; Express.headers := [];
        Express.body := Express.ErrorJson e |}, w').
Proof.
  intros H. unfold Express.expressMiddleware, Express.respond.
  destruct (String.eqb (Express.method req) "HEAD"); unfold bind; by rewrite H.
Qed.

Lemma express_handle_parsed req w p :
  querySchema_parse rt (Express.query req) = Ok p ->
  Express.handle rt config cache req w =
    process rt config cache {| in_buffer := None; in_props := object_of_parsed p |} w.
Proof. intros H. unfold Express.handle, bind, lift. by rewrite H. Qed.

Lemma process_without_source (input : ProcessInput) w p :
  in_buffer input = None ->
  querySchema_parse rt (in_props input) = Ok p ->
  truthy_str (p_url p) = false ->
  process rt config cache input w = (Throw (HttpError 400 "No input provided"), w).
Proof.
  intros Hb Hp Hu. unfold process, bind, lift. by rewrite Hp, Hb, Hu.
Qed.
End ExpressFacts.

(** X2. A query that fails the schema is answered with status 500 and the
    error as JSON body: the error zod throws carries no [statusCode], and
    nothing is looked up, fetched or transformed. *)
Theorem express_invalid_query_is_500 (rt : Runtime) {St : Type} (config : OptimizerConfig)
    (cache : option (CacheLayer St)) (cache_cfg : option CacheConfig)
    (req : Express.Request) (w : World St) (e : error) :
  querySchema_parse rt (Express.query req) = Throw e ->
  Express.expressMiddleware rt config cache cache_cfg req w =
    ({| Express.status := 500; Express.headers := [];
        Express.body := Express.ErrorJson ZodError |}, w).
Proof.
  intros H. pose proof (querySchema_parse_throws rt _ _ H) as ->.
  rewrite (express_on_throw rt config cache cache_cfg req w ZodError w); [done|].
  unfold Express.handle, bind, lift. by rewrite H.
Qed.

Lemma express_invalid_query_is_500_witness :
  Express.status
    (Express.expressMiddleware (Demo.runtime Zod3) Demo.no_limits Fixture.no_cache None
       {| Express.method := "GET";
          Express.query := [("url", JStr "https://cdn.example.com/x.png"); ("w", JNum 0)];
          Express.if_none_match := JUndefined |} (world0 tt)).1 = 500.
Proof.
  rewrite (express_invalid_query_is_500 (Demo.runtime Zod3) Demo.no_limits Fixture.no_cache
             None _ (world0 tt) ZodError); reflexivity.
Defined.

(** X3. A query that passes the schema but names no URL is answered with
    status 400: the adapter never supplies a buffer, so [process] finds no
    input. Nothing is looked up, fetched or transformed. *)
Theorem express_missing_url_is_400 (rt : Runtime) {St : Type} (config : OptimizerConfig)
    (cache : option (CacheLayer St)) (cache_cfg : option CacheConfig)
    (req : Express.Request) (w : World St) (p : Parsed) :
  querySchema_parse rt (Express.query req) = Ok p ->
  truthy_str (p_url p) = false ->
  Express.expressMiddleware rt config cache cache_cfg req w =
    ({| Express.status := 400; Express.headers := [];
        Express.body := Express.ErrorJson (HttpError 400 "No input provided") |}, w).
Proof.
  intros Hp Hu.
  rewrite (express_on_throw rt config cache cache_cfg req w
             (HttpError 400 "No input provided") w); [done|].
  rewrite (express_handle_parsed rt config cache req w p Hp).
  apply (process_without_source rt config cache _ w p); [done| |done].
  exact (querySchema_parse_spread rt (Express.query req) p Hp).
Qed.

Lemma express_missing_url_is_400_witness :
  Express.status
    (Express.expressMiddleware (Demo.runtime Zod3) Demo.no_limits Fixture.no_cache None
       {| Express.method := "GET"; Express.query := [("w", JNum 5)];
          Express.if_none_match := JUndefined |} (world0 tt)).1 = 400.
Proof.
  rewrite (express_missing_url_is_400 (Demo.runtime Zod3) Demo.no_limits Fixture.no_cache
             None _ (world0 tt)
             {| p_url := None; p_w := Some 5; p_h := None; p_fit := cover; p_format := None;
                p_quality := None; p_crop := None; p_bg := None; p_blur := None;
                p_grayscale := None; p_rotate := None; p_placeholder := None |});
    reflexivity.
Defined.

(** X4. A request other than HEAD that [process] answers with a result:
    when the [If-None-Match] header is a non-empty string, the response
    is 304 without headers or body exactly when the header equals the
    result's ETag, and otherwise 200 with the three cache headers and the
    image bytes. *)
Theorem express_conditional_get (rt : Runtime) {St : Type} (config : OptimizerConfig)
    (cache : option (CacheLayer St)) (cache_cfg : option CacheConfig)
    (req : Express.Request) (w w' : World St) (r : ProcessResult) (tag : string) :
  Express.method req <> "HEAD" ->
  Express.handle rt config cache req w = (Ok r, w') ->
  Express.if_none_match req = JStr tag ->
  tag <> "" ->
  Express.expressMiddleware rt config cache cache_cfg req w =
    (if decide (tag = r_etag r)
     then {| Express.status := 304; Express.headers := []; Express.body := Express.NoBody |}
     else {| Express.status := 200;
             Express.headers := buildCacheHeaders r (Express.ttlSeconds cache_cfg);
             Express.body := Express.Image (r_buffer r) |}, w').
Proof.
  intros Hm Hh Hinm Hne. unfold Express.expressMiddleware, Express.respond.
  apply String.eqb_neq in Hm. rewrite Hm. unfold bind. rewrite Hh, Hinm.
  unfold Express.etag_matches. simpl.
  apply String.eqb_neq in Hne. rewrite Hne. simpl.
  destruct (decide (tag = r_etag r)) as [->|Hd].
  - by rewrite String.eqb_refl.
  - apply String.eqb_neq in Hd. by rewrite Hd.
Qed.

Lemma express_conditional_get_witness :
  let hit :=
    {| Express.method := "GET";
       Express.query := [("url", JStr "https://cdn.example.com/x.png")];
       Express.if_none_match := JStr (createEtag [Byte.x89; Byte.x50; Byte.x4e; Byte.x47]) |} in
  Express.status
    (Express.expressMiddleware (Demo.runtime Zod3) Demo.no_limits Fixture.no_cache None
       hit (world0 tt)).1 = 304.
Proof.
  intros hit.
  rewrite (express_conditional_get (Demo.runtime Zod3) Demo.no_limits Fixture.no_cache None
             hit (world0 tt)
             {| w_cache := tt;
                w_trace := [EvFetch "https://cdn.example.com/x.png";
                            EvTransform [Byte.x89; Byte.x50; Byte.x4e; Byte.x47] []] |}
             {| r_buffer := [Byte.x89; Byte.x50; Byte.x4e; Byte.x47];
                r_contentType := "image/png";
                r_etag := createEtag [Byte.x89; Byte.x50; Byte.x4e; Byte.x47];
                r_width := Some 10; r_height := Some 10 |}
             (createEtag [Byte.x89; Byte.x50; Byte.x4e; Byte.x47])).
  - reflexivity.
  - discriminate.
  - vm_compute. reflexivity.
  - reflexivity.
  - vm_compute. discriminate.
Defined.

(** X5. A HEAD request is never answered with image bytes and never with
    304: on success the middleware sends status 200 with the cache headers
    and no body, whatever [If-None-Match] says, and on failure the status
    of the error with its JSON body. *)
Theorem express_head_has_no_body (rt : Runtime) {St : Type} (config : OptimizerConfig)
    (cache : option (CacheLayer St)) (cache_cfg : option CacheConfig)
    (req : Express.Request) (w : World St) :
  Express.method req = "HEAD" ->
  let res := (Express.expressMiddleware rt config cache cache_cfg req w).1 in
  match (Express.handle rt config cache req w).1 with
  | Ok r =>
      res = {| Express.status := 200;
               Express.headers := buildCacheHeaders r (Express.ttlSeconds cache_cfg);
               Express.body := Express.NoBody |}
  | Throw e =>
      res = {| Express.status := statusOf e; Express.headers := [];
               Express.body := Express.ErrorJson e |}
  end.
Proof.
  intros Hm. unfold Express.expressMiddleware, Express.respond. rewrite Hm. simpl.
  unfold bind, ret. by destruct (Express.handle rt config cache req w) as [[r|e] w'].
Qed.

Lemma express_head_has_no_body_witness :
  (Express.expressMiddleware (Demo.runtime Zod3) Demo.no_limits Fixture.no_cache None
     {| Express.method := "HEAD";
        Express.query := [("url", JStr "https://cdn.example.com/x.png")];
        Express.if_none_match := JStr (createEtag [Byte.x89; Byte.x50; Byte.x4e; Byte.x47]) |}
     (world0 tt)).1
  = {| Express.status := 200;
       Express.headers :=
         [("Content-Type", "image/png");
          ("ETag", createEtag [Byte.x89; Byte.x50; Byte.x4e; Byte.x47]);
          ("Cache-Control", "public, max-age=0")];
       Express.body := Express.NoBody |}.
Proof.
  exact (express_head_has_no_body (Demo.runtime Zod3) Demo.no_limits Fixture.no_cache None
           {| Express.method := "HEAD";
              Express.query := [("url", JStr "https://cdn.example.com/x.png")];
              Express.if_none_match :=
                JStr (createEtag [Byte.x89; Byte.x50; Byte.x4e; Byte.x47]) |}
           (world0 tt) eq_refl).
Defined.

(** ** Where a result comes from *)

(** X6. Whatever [process] returns is either the very entry the cache
    answered for the request's key, or the output of the engine on the
    request's pipeline, packaged with the ETag of the output bytes and the
    dimensions the engine reported. *)
Theorem process_result_origin (rt : Runtime) {St : Type} (config : OptimizerConfig)
    (cache : option (CacheLayer St)) (input : ProcessInput) (w w' : World St)
    (r : ProcessResult) :
  process rt config cache input w = (Ok r, w') ->
  exists parsed key,
    prepare rt config input = Ok (parsed, key) /\
    ((exists c st', cache = Some c /\ cache_get c key (w_cache w) = (Ok (Some r), st')) \/
     (exists src out,
        sharp_toBuffer rt src (pipeline config parsed) = Some out /\
        (in_buffer input = Some src \/
         (in_buffer input = None /\ got rt (default "" (p_url parsed)) = Some src)) /\
        r = result_of config parsed out /\
        r_etag r = createEtag (r_buffer r))).
Proof.
  destruct (prepare rt config input) as [[parsed key]|e] eqn:Hp.
  2:{ rewrite (process_prepare_throw rt config cache input w e Hp). discriminate. }
  rewrite (process_after_prepare rt config cache input w parsed key Hp).
  intros H. exists parsed, key. split; [done|].
  assert (Hmiss : forall w1,
    process_miss rt config cache (enforce_max rt config input) parsed key w1 = (Ok r, w') ->
    exists src out,
      sharp_toBuffer rt src (pipeline config parsed) = Some out /\
      (in_buffer input = Some src \/
       (in_buffer input = None /\ got rt (default "" (p_url parsed)) = Some src)) /\
      r = result_of config parsed out /\ r_etag r = createEtag (r_buffer r)).
  { intros w1. unfold process_miss, sourceBuffer, transform, fetchImage. simpl. run_M.
    destruct (in_buffer input) as [b|]; simpl.
    - destruct (sharp_toBuffer rt b (pipeline config parsed)) as [out|] eqn:Hs; simpl.
      + destruct cache as [c|]; simpl.
        * destruct (cache_set c key _ _) as [[[]|e] st]; simpl; [|discriminate].
          intros [= <- <-]. exists b, out. eauto.
        * intros [= <- <-]. exists b, out. eauto.
      + discriminate.
    - destruct (got rt (default "" (p_url parsed))) as [body|] eqn:Hg; simpl;
        [|discriminate].
      destruct (sharp_toBuffer rt body (pipeline config parsed)) as [out|] eqn:Hs; simpl.
      + destruct cache as [c|]; simpl.
        * destruct (cache_set c key _ _) as [[[]|e] st]; simpl; [|discriminate].
          intros [= <- <-]. exists body, out. eauto 10.
        * intros [= <- <-]. exists body, out. eauto 10.
      + discriminate. }
  destruct cache as [c|]; simpl in H.
  - unfold on_cache in H.
    destruct (cache_get c key (w_cache w)) as [[[hit|]|e] st'] eqn:Hg; simpl in H.
    + injection H as <- <-. left. eauto.
    + right. eapply Hmiss. exact H.
    + discriminate.
  - right. eapply Hmiss. exact H.
Qed.

Lemma process_result_origin_witness :
  exists parsed key,
    prepare (Demo.runtime Zod3) Demo.no_limits Demo.small = Ok (parsed, key).
Proof.
  destruct (process_result_origin (Demo.runtime Zod3) Demo.no_limits Fixture.no_cache
              Demo.small (world0 tt)
              {| w_cache := tt;
                 w_trace := [EvTransform Demo.red
                               [Resize (Some 5) None (Some cover) (Some attention)]] |}
              Fixture.png_result eq_refl)
    as (parsed & key & Hp & _).
  exists parsed, key. exact Hp.
Defined.

(** ** The disk backend, written then read *)

Section DiskWritten.
Context (cd : Codec) (cfg : CacheConfig).

(** The state [set] leaves, given that the directory can be created. *)
Lemma disk_set_state (key : string) (v : ProcessResult) (st : Disk.State) :
  Disk.ensureDir cfg st = Ok tt ->
  Disk.set cd cfg key v st =
    (Ok tt,
     Disk.with_files st
       (<[Disk.fileForKey cd cfg key :=
            JSON_stringify_record cd
              {| value := serializable cd v;
                 expiresAt := match Disk.ttlMs cfg with
                              | Some t => Some (Disk.now st + t)
                              | None => None
                              end |}]> (Disk.files st))).
Proof.
  intros Hdir. unfold Disk.set. rewrite Hdir. do 5 f_equal.
  unfold Disk.ttlMs. destruct (ttl cfg) as [t|]; [|done].
  destruct (truthy (JNum t)) eqn:Ht; [|done]. simpl in *.
  destruct (t * 1000 =? 0) eqn:E; [|done].
  apply Z.eqb_eq in E. apply negb_true_iff, Z.eqb_neq in Ht. lia.
Qed.
End DiskWritten.

(** X7. Disk round trip. After [set key v], a [get key] made no later
    than the expiry written into the record (at any time when no TTL, or
    a TTL of 0, is configured) returns [v] and changes nothing, whatever
    the file held before; this needs only that the JSON codec reads back
    the record that was written, that base64 reads back the bytes, and
    that the base64 text is not empty (an empty text is falsy and is
    handed back as it is, not as bytes). *)
Theorem disk_write_then_read (cd : Codec) (cfg : CacheConfig) (key : string)
    (v : ProcessResult) (st : Disk.State) (later : Z) :
  let rec := {| value := serializable cd v;
                expiresAt := match Disk.ttlMs cfg with
                             | Some t => Some (Disk.now st + t)
                             | None => None
                             end |} in
  Disk.ensureDir cfg st = Ok tt ->
  JSON_parse cd (JSON_stringify_record cd rec) = Some rec ->
  base64_encode cd (r_buffer v) <> "" ->
  base64_decode cd (base64_encode cd (r_buffer v)) = r_buffer v ->
  (forall t, Disk.ttlMs cfg = Some t -> later <= Disk.now st + t) ->
  let st1 := at_time (Disk.set cd cfg key v st).2 later in
  Disk.get cd cfg key st1 = (Ok (Some v), st1).
Proof.
  intros rec Hdir Hjson _ Hb64 Hfresh st1. subst st1.
  rewrite (disk_set_state cd cfg key v st Hdir). fold rec. simpl.
  rewrite disk_get_ok by exact Hdir.
  unfold Disk.get_try. simpl. rewrite lookup_insert_eq, Hjson.
  assert (Disk.expired (at_time (Disk.with_files st
            (<[Disk.fileForKey cd cfg key := JSON_stringify_record cd rec]> (Disk.files st)))
            later) rec = false) as ->.
  { unfold Disk.expired, rec. simpl.
    destruct (Disk.ttlMs cfg) as [t|]; [|done].
    apply andb_false_iff. right. apply Z.ltb_ge. by apply Hfresh. }
  do 3 f_equal. destruct v. unfold revive, rec. simpl in *. by rewrite Hb64.
Qed.

Lemma disk_write_then_read_witness :
  let st1 := at_time (Disk.set Fixture.codec Fixture.disk_two_seconds "k" Fixture.png_result
                        Fixture.empty_disk).2 3000 in
  Disk.get Fixture.codec Fixture.disk_two_seconds "k" st1 = (Ok (Some Fixture.png_result), st1).
Proof.
  apply (disk_write_then_read Fixture.codec Fixture.disk_two_seconds "k" Fixture.png_result
           Fixture.empty_disk 3000).
  - reflexivity.
  - reflexivity.
  - discriminate.
  - reflexivity.
  - intros t [= <-]. simpl. lia.
Defined.



(** X9. [set] and [get] of the disk backend touch the file of their key
    only: every other path holds after the call what it held before. *)
Theorem disk_other_files_untouched (cd : Codec) (cfg : CacheConfig) (key : string)
    (v : ProcessResult) (st : Disk.State) (other : string) :
  other <> Disk.fileForKey cd cfg key ->
  Disk.files (Disk.set cd cfg key v st).2 !! other = Disk.files st !! other /\
  Disk.files (Disk.get cd cfg key st).2 !! other = Disk.files st !! other.
Proof.
  intros Hne. split.
  - unfold Disk.set. destruct (Disk.ensureDir cfg st); simpl; [|done].
    by rewrite lookup_insert_ne.
  - unfold Disk.get, Disk.get_try. destruct (Disk.ensureDir cfg st); simpl; [|done].
    destruct (Disk.files st !! Disk.fileForKey cd cfg key) as [raw|]; [|done].
    destruct (JSON_parse cd raw) as [rec|]; [|done].
    destruct (Disk.expired st rec); simpl; [|done].
    by rewrite lookup_delete_ne.
Qed.

Lemma disk_other_files_untouched_witness :
  Disk.files (Disk.get Demo.codec Demo.disk_cfg "other" Demo.disk0).2
    !! ".cache/images/k.json" = Some "stale".
Proof.
  assert (Hne : ".cache/images/k.json" <> Disk.fileForKey Demo.codec Demo.disk_cfg "other")
    by (vm_compute; discriminate).
  rewrite (proj2 (disk_other_files_untouched Demo.codec Demo.disk_cfg "other"
                    Fixture.png_result Demo.disk0 ".cache/images/k.json" Hne)).
  reflexivity.
Defined.

(** ** [process] over the disk and redis backends *)

(** X10. A disk entry that cannot be parsed heals itself: [get] reports a
    miss, so a call whose buffer the engine can transform returns the
    fresh result and overwrites the file with the record of that result. *)
Theorem process_heals_corrupt_disk_entry (rt : Runtime) (config : OptimizerConfig)
    (cd : Codec) (cfg : CacheConfig) (input : ProcessInput) (parsed : Parsed) (key raw : string)
    (src : Buffer) (out : SharpOutput) (w : World Disk.State) :
  prepare rt config input = Ok (parsed, key) ->
  Disk.ensureDir cfg (w_cache w) = Ok tt ->
  Disk.files (w_cache w) !! Disk.fileForKey cd cfg key = Some raw ->
  JSON_parse cd raw = None ->
  in_buffer input = Some src ->
  sharp_toBuffer rt src (pipeline config parsed) = Some out ->
  exists w',
    process rt config (Some (Disk.createDiskCache cd cfg)) input w
      = (Ok (result_of config parsed out), w') /\
    w_trace w' = w_trace w ++ [EvTransform src (pipeline config parsed)] /\
    Disk.files (w_cache w') !! Disk.fileForKey cd cfg key =
      Some (JSON_stringify_record cd
              {| value := serializable cd (result_of config parsed out);
                 expiresAt := match Disk.ttlMs cfg with
                              | Some t => Some (Disk.now (w_cache w) + t)
                              | None => None
                              end |}).
Proof.
  intros Hp Hdir Hfile Hjson Hb Hs.
  assert (Hget : cache_get (Disk.createDiskCache cd cfg) key (w_cache w)
                 = (Ok None, w_cache w)).
  { simpl. rewrite disk_get_ok by exact Hdir. unfold Disk.get_try.
    by rewrite Hfile, Hjson. }
  rewrite (process_on_miss rt config _ input w parsed key _ Hp Hget).
  rewrite (process_miss_buffer rt config _ (enforce_max rt config input) _ parsed key
             src out Hb Hs).
  simpl. rewrite (disk_set_state cd cfg key _ (w_cache w) Hdir). simpl.
  eexists. split; [reflexivity|]. simpl. split; [done|]. apply lookup_insert_eq.
Qed.

Lemma process_heals_corrupt_disk_entry_witness :
  exists w',
    process (Demo.runtime Zod4) Demo.no_limits
      (Some (Disk.createDiskCache Fixture.codec Fixture.disk_forever))
      {| in_buffer := Some Demo.red; in_props := [] |}
      (world0 {| Disk.files := {[ ".cache/images/" +:+
                                    JSON_stringify [("u", JStr "buffer"); ("fit", JStr "cover");
                                                    ("q", JNum 80); ("c", JStr "center")]
                                    +:+ ".json" := "garbage" ]};
                 Disk.blocked := ∅; Disk.now := 1000 |})
    = (Ok Fixture.png_result, w').
Proof.
  destruct (process_heals_corrupt_disk_entry (Demo.runtime Zod4) Demo.no_limits
              Fixture.codec Fixture.disk_forever
              {| in_buffer := Some Demo.red; in_props := [] |}
              {| p_url := None; p_w := None; p_h := None; p_fit := cover; p_format := None;
                 p_quality := None; p_crop := Some center; p_bg := None; p_blur := None;
                 p_grayscale := None; p_rotate := None; p_placeholder := None |}
              (JSON_stringify [("u", JStr "buffer"); ("fit", JStr "cover");
                               ("q", JNum 80); ("c", JStr "center")])
              "garbage" Demo.red
              {| data := Demo.red; info_format := "png"; info_width := 10; info_height := 10 |}
              (world0 {| Disk.files := {[ ".cache/images/" +:+
                                    JSON_stringify [("u", JStr "buffer"); ("fit", JStr "cover");
                                                    ("q", JNum 80); ("c", JStr "center")]
                                    +:+ ".json" := "garbage" ]};
                 Disk.blocked := ∅; Disk.now := 1000 |}))
    as (w' & H & _).
  - vm_compute. reflexivity.
  - reflexivity.
  - vm_compute. reflexivity.
  - reflexivity.
  - reflexivity.
  - reflexivity.
  - exists w'. exact H.
Defined.

(** X11. With a disk cache whose directory cannot be created, every
    request that gets as far as the lookup is rejected with the error of
    [mkdir]: nothing is fetched or transformed, although the image could
    have been produced without the cache. *)
Theorem process_fails_on_blocked_cache_dir (rt : Runtime) (config : OptimizerConfig)
    (cd : Codec) (cfg : CacheConfig) (input : ProcessInput) (parsed : Parsed) (key : string)
    (w : World Disk.State) (e : error) :
  prepare rt config input = Ok (parsed, key) ->
  Disk.ensureDir cfg (w_cache w) = Throw e ->
  process rt config (Some (Disk.createDiskCache cd cfg)) input w = (Throw e, w).
Proof.
  intros Hp Hdir.
  rewrite (process_after_prepare rt config _ input w parsed key Hp).
  unfold on_cache. simpl. rewrite (disk_get_mkdir_fails cd cfg key _ e Hdir).
  by destruct w.
Qed.

Lemma process_fails_on_blocked_cache_dir_witness :
  process (Demo.runtime Zod4) Demo.no_limits
    (Some (Disk.createDiskCache Fixture.codec Fixture.disk_forever))
    Demo.small (world0 Fixture.blocked_disk)
  = (Throw (IOError "mkdir"), world0 Fixture.blocked_disk).
Proof.
  apply (process_fails_on_blocked_cache_dir (Demo.runtime Zod4) Demo.no_limits
           Fixture.codec Fixture.disk_forever Demo.small
           {| p_url := None; p_w := Some 5; p_h := None; p_fit := cover; p_format := None;
              p_quality := None; p_crop := Some center; p_bg := None; p_blur := None;
              p_grayscale := None; p_rotate := None; p_placeholder := None |}
           (JSON_stringify [("u", JStr "buffer"); ("w", JNum 5); ("fit", JStr "cover");
                            ("q", JNum 80); ("c", JStr "center")])).
  - vm_compute. reflexivity.
  - reflexivity.
Defined.

(** X12. Redis round trip. When the client, asked for the key after the
    write, hands back the payload it was given, [get] after [set] returns
    the value that was stored; this needs only that neither the payload
    nor the base64 text in it is empty (both are tested for truthiness)
    and that JSON and base64 read back what they wrote. *)
Theorem redis_write_then_read (cd : Codec) {St : Type} (cfg : CacheConfig)
    (client : Redis.Client St) (key : string) (v : ProcessResult) (st st1 st2 : St) :
  let payload := JSON_stringify_stored cd (serializable cd v) in
  Redis.client_set client key payload (Redis.ttlSeconds cfg) st = (Ok tt, st1) ->
  Redis.client_get client key st1 = (Ok (Some payload), st2) ->
  payload <> "" ->
  JSON_parse_stored cd payload = Some (serializable cd v) ->
  base64_encode cd (r_buffer v) <> "" ->
  base64_decode cd (base64_encode cd (r_buffer v)) = r_buffer v ->
  Redis.set cd cfg client key v st = (Ok tt, st1) /\
  Redis.get cd client key st1 = (Ok (Some v), st2).
Proof.
  intros payload Hset Hget Hne Hjson _ Hb64. split; [exact Hset|].
  unfold Redis.get. rewrite Hget. simpl.
  destruct (String.eqb payload "") eqn:E; [by apply String.eqb_eq in E|]. simpl.
  rewrite Hjson. do 3 f_equal. destruct v. unfold revive. simpl in *. by rewrite Hb64.
Qed.

Lemma redis_write_then_read_witness :
  Redis.get Fixture.codec Fixture.kv_client "k" {[ "k" := "stored" ]}
  = (Ok (Some Fixture.png_result), {[ "k" := "stored" ]}).
Proof.
  refine (proj2 (redis_write_then_read Fixture.codec Fixture.disk_forever Fixture.kv_client
                   "k" Fixture.png_result ∅ {[ "k" := "stored" ]} {[ "k" := "stored" ]}
                   _ _ _ _ _ _)).
  - reflexivity.
  - vm_compute. reflexivity.
  - discriminate.
  - reflexivity.
  - discriminate.
  - reflexivity.
Defined.

(** X13. Unlike the disk backend, the redis backend parses outside any
    handler: a stored payload that is not JSON makes [get] reject, and a
    [process] call for that key is rejected with it, before anything is
    fetched or transformed. *)
Theorem process_rejects_corrupt_redis_entry (rt : Runtime) (config : OptimizerConfig)
    (cd : Codec) {St : Type} (cfg : CacheConfig) (client : Redis.Client St)
    (input : ProcessInput) (parsed : Parsed) (key raw : string) (w : World St) (st1 : St) :
  prepare rt config input = Ok (parsed, key) ->
  Redis.client_get client key (w_cache w) = (Ok (Some raw), st1) ->
  raw <> "" ->
  JSON_parse_stored cd raw = None ->
  process rt config
    (Some {| cache_get := Redis.get cd client; cache_set := Redis.set cd cfg client |})
    input w
  = (Throw SyntaxError, {| w_cache := st1; w_trace := w_trace w |}).
Proof.
  intros Hp Hget Hne Hjson.
  rewrite (process_after_prepare rt config _ input w parsed key Hp).
  unfold on_cache. simpl. unfold Redis.get. rewrite Hget. simpl.
  destruct (String.eqb raw "") eqn:E; [by apply String.eqb_eq in E|]. simpl.
  by rewrite Hjson.
Qed.

Lemma process_rejects_corrupt_redis_entry_witness :
  process (Demo.runtime Zod4) Demo.no_limits
    (Some {| cache_get := Redis.get Fixture.codec Fixture.kv_client;
             cache_set := Redis.set Fixture.codec Fixture.disk_forever Fixture.kv_client |})
    {| in_buffer := Some Demo.red; in_props := [] |}
    (world0 {[ JSON_stringify [("u", JStr "buffer"); ("fit", JStr "cover");
                               ("q", JNum 80); ("c", JStr "center")] := "garbage" ]})
  = (Throw SyntaxError,
     world0 {[ JSON_stringify [("u", JStr "buffer"); ("fit", JStr "cover");
                               ("q", JNum 80); ("c", JStr "center")] := "garbage" ]}).
Proof.
  apply (process_rejects_corrupt_redis_entry (Demo.runtime Zod4) Demo.no_limits
           Fixture.codec Fixture.disk_forever Fixture.kv_client
           {| in_buffer := Some Demo.red; in_props := [] |}
           {| p_url := None; p_w := None; p_h := None; p_fit := cover; p_format := None;
              p_quality := None; p_crop := Some center; p_bg := None; p_blur := None;
              p_grayscale := None; p_rotate := None; p_placeholder := None |}
           (JSON_stringify [("u", JStr "buffer"); ("fit", JStr "cover");
                            ("q", JNum 80); ("c", JStr "center")])
           "garbage").
  - vm_compute. reflexivity.
  - vm_compute. reflexivity.
  - discriminate.
  - reflexivity.
Defined.

(** ** The TTL across its readers *)

(** X14. What an unset TTL means depends on who reads it: the memory
    backend keeps entries for an hour, the redis backend asks for an
    expiry of 3600 seconds, the disk backend writes records that never
    expire, and the adapters advertise [max-age=0], although the entry
    behind the response outlives it in every backend. *)
Theorem unset_ttl_differs_by_reader (cfg : CacheConfig) (r : ProcessResult)
    (cd : Codec) (key : string) (st : Disk.State) :
  ttl cfg = None ->
  Memory.ttlMs cfg = 3600000 /\
  Redis.ttlSeconds cfg = 3600 /\
  (Disk.ensureDir cfg st = Ok tt ->
   Disk.files (Disk.set cd cfg key r st).2 !! Disk.fileForKey cd cfg key
   = Some (JSON_stringify_record cd {| value := serializable cd r; expiresAt := None |})) /\
  buildCacheHeaders r (Express.ttlSeconds (Some cfg))
  = [("Content-Type", r_contentType r); ("ETag", r_etag r);
     ("Cache-Control", "public, max-age=0")].
Proof.
  intros Httl. repeat split.
  - unfold Memory.ttlMs. by rewrite Httl.
  - unfold Redis.ttlSeconds. by rewrite Httl.
  - intros Hdir. unfold Disk.set, Disk.ttlMs. rewrite Hdir, Httl. simpl.
    by rewrite lookup_insert_eq.
  - unfold buildCacheHeaders, Express.ttlSeconds. by rewrite Httl.
Qed.

Lemma unset_ttl_differs_by_reader_witness :
  Memory.ttlMs Fixture.disk_forever = 3600000.
Proof.
  exact (proj1 (unset_ttl_differs_by_reader Fixture.disk_forever Fixture.png_result
                  Fixture.codec "k" Fixture.empty_disk eq_refl)).
Defined.

(** ** The ETag *)

Lemma byte_sum_bounds (bytes : Buffer) :
  0 <= byte_sum bytes <= 255 * Z.of_nat (length bytes).
Proof.
  induction bytes as [|b bytes IH]; simpl; [lia|].
  pose proof (Byte.to_N_bounded b). lia.
Qed.

Lemma etag_fold (bytes : Buffer) (a : Z) :
  0 <= a -> a + 255 * Z.of_nat (length bytes) < 65536 ->
  fold_left (fun a b => (a + Z.of_N (Byte.to_N b)) mod 65536) bytes a = a + byte_sum bytes.
Proof.
  revert a. induction bytes as [|b bytes IH]; intros a Ha Hlt; simpl in *; [lia|].
  pose proof (Byte.to_N_bounded b).
  rewrite Z.mod_small by lia. rewrite IH by lia. lia.
Qed.

(** X15. The ETag is a weak tag made of the byte length in hexadecimal and
    the plain sum of the first 64 bytes: that sum is at most 16320, so
    the reduction modulo 65536 never takes effect. Two outputs of the
    same length that agree on their first 64 bytes share their ETag,
    whatever follows. *)
Theorem etag_is_length_and_prefix_sum (bytes : Buffer) :
  createEtag bytes =
    "W/" +:+ String dquote
      (hex_of_N (N.of_nat (length bytes)) +:+ "-" +:+ pretty (byte_sum (take 64 bytes))
       +:+ String dquote "") /\
  0 <= byte_sum (take 64 bytes) <= 16320 /\
  (forall other : Buffer,
     length other = length bytes -> take 64 other = take 64 bytes ->
     createEtag other = createEtag bytes).
Proof.
  assert (Hlen : (length (take 64 bytes) <= 64)%nat) by (rewrite length_take; lia).
  pose proof (byte_sum_bounds (take 64 bytes)) as Hb.
  split; [|split].
  - unfold createEtag. rewrite etag_fold by lia. reflexivity.
  - lia.
  - intros other Hl Ht. unfold createEtag. by rewrite Hl, Ht.
Qed.

(** ** The chain of sharp calls *)

Section PipelineFacts.
Context (rt : Runtime) (config : OptimizerConfig).

Lemma buildSharpPipeline_Forall (P : SharpOp -> Prop) (params : Parsed) :
  P (Resize (p_w params) (p_h params)
       (Some (if decide (p_fit params = crop_fit) then cover else p_fit params))
       (Some (if decide (p_crop params = Some center) then centre else attention))) ->
  (forall bg, P (Flatten bg)) -> (forall s, P (Blur s)) -> P Grayscale ->
  (forall a, P (Rotate a)) ->
  Forall P (buildSharpPipeline [] params).
Proof.
  intros Hr Hf Hb Hg Ho. unfold buildSharpPipeline.
  repeat match goal with
  | |- context [match ?x with _ => _ end] => destruct x
  end; simpl; repeat (apply Forall_cons; split); auto using Forall_nil.
Qed.

Lemma pipeline_Forall (P : SharpOp -> Prop) (parsed : Parsed) :
  P (Resize (p_w parsed) (p_h parsed)
       (Some (if decide (p_fit parsed = crop_fit) then cover else p_fit parsed))
       (Some (if decide (p_crop parsed = Some center) then centre else attention))) ->
  P (Resize (Some 10) None None None) ->
  (forall bg, P (Flatten bg)) -> (forall s, P (Blur s)) -> P Grayscale ->
  (forall a, P (Rotate a)) -> (forall f q, P (Encode f q)) ->
  Forall P (pipeline config parsed).
Proof.
  intros Hr Hp Hf Hb Hg Ho He. unfold pipeline.
  pose proof (buildSharpPipeline_Forall P parsed Hr Hf Hb Hg Ho) as Hbase.
  destruct (decide (p_placeholder parsed = Some blur_ph));
    destruct (effective_format config parsed);
    rewrite ?Forall_app; repeat split; auto;
    repeat (apply Forall_cons; split); auto using Forall_nil.
Qed.
End PipelineFacts.

(** X16. No call chained on sharp is out of range: for a request the
    schema accepted, every resize asks for a width and height within
    [1, 10000] (whatever maxima are configured), and none asks for the
    fit mode [crop], which is translated to [cover]. *)
Theorem pipeline_resizes_are_sound (rt : Runtime) (config : OptimizerConfig)
    (o : object) (parsed : Parsed) :
  querySchema_parse rt o = Ok parsed ->
  Forall (fun op => resize_within_bounds op /\ ~ resizes_with_crop_fit op)
    (pipeline config parsed).
Proof.
  intros Hp.
  destruct (querySchema_parse_bounds rt o parsed Hp) as (Bw & Bh & _).
  apply pipeline_Forall.
  - split.
    + intros w h f pos [= <- <- _ _]. auto.
    + intros (w & h & pos & [= _ _ Hf _]).
      destruct (decide (p_fit parsed = crop_fit)); congruence.
  - split.
    + intros w h f pos [= <- <- _ _]. split; intros n [= <-]. lia.
    + intros (w & h & pos & [=]).
  - intros bg. split; [intros ? ? ? ? [=] | intros (? & ? & ? & [=])].
  - intros s. split; [intros ? ? ? ? [=] | intros (? & ? & ? & [=])].
  - split; [intros ? ? ? ? [=] | intros (? & ? & ? & [=])].
  - intros a. split; [intros ? ? ? ? [=] | intros (? & ? & ? & [=])].
  - intros f q. split; [intros ? ? ? ? [=] | intros (? & ? & ? & [=])].
Qed.

Lemma pipeline_resizes_are_sound_witness :
  Forall (fun op => resize_within_bounds op /\ ~ resizes_with_crop_fit op)
    [Resize (Some 9000) None (Some cover) (Some centre)].
Proof.
  exact (pipeline_resizes_are_sound (Demo.runtime Zod3) Demo.capped (in_props Demo.wide)
           {| p_url := None; p_w := Some 9000; p_h := None; p_fit := cover; p_format := None;
              p_quality := None; p_crop := Some center; p_bg := None; p_blur := None;
              p_grayscale := None; p_rotate := None; p_placeholder := None |} eq_refl).
Defined.

(** X17. A request for an allowed format ends its chain with the encode
    call for that format, at the request's quality or else the default
    quality, with no other encode before it; and the content type of the
    result is [image/] followed by the format, whatever format the engine
    reports. *)
Theorem allowed_format_is_encoded_last (config : OptimizerConfig) (parsed : Parsed)
    (f : Format) :
  p_format parsed = Some f ->
  allowedFormats_has config f = true ->
  (exists before,
     pipeline config parsed =
       before ++ [Encode f (default (default 80 (defaultQuality config)) (p_quality parsed))] /\
     forallb (fun op => negb (is_encode op)) before = true) /\
  (forall out, r_contentType (result_of config parsed out) = "image/" +:+ Format_str f).
Proof.
  intros Hf Ha.
  assert (He : effective_format config parsed = Some f).
  { unfold effective_format. by rewrite Hf, Ha. }
  split.
  - unfold pipeline. rewrite He. eexists. split; [reflexivity|].
    pose proof (buildSharpPipeline_no_encode [] parsed eq_refl) as Hb.
    destruct (decide (p_placeholder parsed = Some blur_ph)); [|done].
    by rewrite forallb_app, Hb.
  - intros out. unfold result_of. simpl. rewrite He. by destruct f.
Qed.

Lemma allowed_format_is_encoded_last_witness :
  r_contentType
    (result_of Demo.no_limits
       {| p_url := None; p_w := None; p_h := None; p_fit := cover; p_format := Some webp;
          p_quality := Some 70; p_crop := None; p_bg := None; p_blur := None;
          p_grayscale := None; p_rotate := None; p_placeholder := None |}
       {| data := Demo.red; info_format := "png"; info_width := 10; info_height := 10 |})
  = "image/webp".
Proof.
  exact (proj2 (allowed_format_is_encoded_last Demo.no_limits
           {| p_url := None; p_w := None; p_h := None; p_fit := cover; p_format := Some webp;
              p_quality := Some 70; p_crop := None; p_bg := None; p_blur := None;
              p_grayscale := None; p_rotate := None; p_placeholder := None |}
           webp eq_refl eq_refl)
         {| data := Demo.red; info_format := "png"; info_width := 10; info_height := 10 |}).
Defined.

(** ** Edges of the allowlist and of the boolean coercion *)

(** X18. An allowlist that is configured but empty refuses every request
    that carries a URL, buffer or not, before anything is looked up; and
    a request without a URL is never held against the allowlist. *)
Theorem empty_allowlist_refuses_every_url (rt : Runtime) {St : Type}
    (config : OptimizerConfig) (cache : option (CacheLayer St)) (input : ProcessInput)
    (w : World St) (parsed : Parsed) (wl : list string) :
  whitelist config = Some wl ->
  querySchema_parse rt (in_props input) = Ok parsed ->
  (forall url, wl = [] -> p_url parsed = Some url -> url <> "" ->
     process rt config cache input w = (Throw access_denied, w)) /\
  (p_url parsed = None -> check_whitelist rt config parsed = Ok tt).
Proof.
  intros Hwl Hp. split.
  - intros url -> Hu Hne.
    assert (Ht : truthy_str (p_url parsed) = true).
    { rewrite Hu. simpl. destruct (String.eqb url "") eqn:E; [|done].
      by apply String.eqb_eq in E. }
    rewrite (process_parse_ok rt config cache input parsed w Hp Ht).
    by rewrite (check_whitelist_spec rt config parsed [] url Hwl Hu Hne).
  - intros Hu. unfold check_whitelist. by rewrite Hwl, Hu.
Qed.

Lemma empty_allowlist_refuses_every_url_witness :
  process (Demo.runtime Zod3)
    {| formats := None; maxWidth := None; maxHeight := None; defaultQuality := None;
       whitelist := Some [] |}
    Fixture.no_cache Demo.tagged (world0 tt)
  = (Throw access_denied, world0 tt).
Proof.
  refine (proj1 (empty_allowlist_refuses_every_url (Demo.runtime Zod3)
            {| formats := None; maxWidth := None; maxHeight := None; defaultQuality := None;
               whitelist := Some [] |}
            Fixture.no_cache Demo.tagged (world0 tt) _ [] eq_refl eq_refl)
          "https://cdn.example.com/x.png" eq_refl eq_refl _).
  discriminate.
Defined.

(** X19. [grayscale] is coerced with [Boolean(...)]: given as a string, it
    switches grayscale on for every non-empty string, the strings
    [false] and [0] included, and off only for the empty string. *)
Theorem grayscale_string_is_truthiness (rt : Runtime) (config : OptimizerConfig)
    (o : object) (parsed : Parsed) (s : string) :
  querySchema_parse rt o = Ok parsed ->
  prop o "grayscale" = JStr s ->
  p_grayscale parsed = Some (negb (String.eqb s "")) /\
  (s <> "" -> Grayscale ∈ pipeline config parsed).
Proof.
  intros Hp Hs.
  apply querySchema_parse_inv in Hp as (url & _ & _ & _ & _ & _ & _ & _ & _ & _ & _ & Hg & _).
  rewrite Hs in Hg. injection Hg as Hg. split; [done|].
  intros Hne. apply String.eqb_neq in Hne. rewrite Hne in Hg. simpl in Hg.
  assert (Hb : Grayscale ∈ buildSharpPipeline [] parsed).
  { unfold buildSharpPipeline. rewrite <- Hg.
    destruct (p_rotate parsed) as [r|]; [destruct (truthy (JNum r))|];
      rewrite ?elem_of_app, ?elem_of_cons; tauto. }
  unfold pipeline.
  destruct (decide (p_placeholder parsed = Some blur_ph));
    destruct (effective_format config parsed);
    rewrite ?elem_of_app; tauto.
Qed.

Lemma grayscale_string_is_truthiness_witness :
  Grayscale ∈ pipeline Demo.no_limits
    {| p_url := None; p_w := None; p_h := None; p_fit := cover; p_format := None;
       p_quality := None; p_crop := None; p_bg := None; p_blur := None;
       p_grayscale := Some true; p_rotate := None; p_placeholder := None |}.
Proof.
  refine (proj2 (grayscale_string_is_truthiness (Demo.runtime Zod3) Demo.no_limits
            [("grayscale", JStr "false")] _ "false" eq_refl eq_refl) _).
  discriminate.
Defined.

(** ** The memory backend *)

Lemma memory_lookup_remove (key : string) (l : list (string * (ProcessResult * Z))) :
  Memory.lookup key (Memory.remove key l) = None.
Proof.
  unfold Memory.remove. induction l as [|[k e] l IH]; [done|].
  destruct (decide (k = key)) as [->|Hk].
  - rewrite filter_cons_False by (intros H; by apply H). exact IH.
  - rewrite filter_cons_True by done. simpl.
    destruct (String.eqb k key) eqn:E; [by apply String.eqb_eq in E|]. exact IH.
Qed.

(** An entry read at another clock reading than it was written at. *)
Lemma memory_get_at_time (cfg : CacheConfig) (key : string) (v : ProcessResult)
    (st : Memory.State) (t : Z) :
  let st1 := memory_at_time (Memory.set key v st).2 t in
  (Memory.ttlMs cfg = 0 \/ t - Memory.now st <= Memory.ttlMs cfg ->
   (Memory.get cfg key st1).1 = Ok (Some v)) /\
  (Memory.ttlMs cfg <> 0 -> Memory.ttlMs cfg < t - Memory.now st ->
   (Memory.get cfg key st1).1 = Ok None /\
   Memory.lookup key (Memory.entries (Memory.get cfg key st1).2) = None).
Proof.
  intros st1.
  assert (Hl : Memory.lookup key (Memory.entries st1) = Some (v, Memory.now st)).
  { subst st1. simpl. by rewrite String.eqb_refl. }
  split.
  - intros Hfresh. unfold Memory.get. rewrite Hl.
    assert (Memory.stale cfg st1 (Memory.now st) = false) as ->; [|done].
    unfold Memory.stale. subst st1. simpl.
    destruct Hfresh as [-> | Hle]; [done|].
    apply andb_false_iff. right. apply Z.ltb_ge. exact Hle.
  - intros Hne Hlt. unfold Memory.get. rewrite Hl.
    assert (Memory.stale cfg st1 (Memory.now st) = true) as ->.
    { unfold Memory.stale. subst st1. simpl.
      apply andb_true_iff. split; [|by apply Z.ltb_lt].
      apply negb_true_iff. by apply Z.eqb_neq. }
    simpl. split; [done|]. apply memory_lookup_remove.
Qed.

(** X21. Memory round trip and expiry. An entry written at one clock
    reading and read at another is returned exactly when the configured
    TTL is 0 (no expiry) or no more than the TTL, in milliseconds, has
    passed; read later than that, it is reported absent and dropped. *)
Theorem memory_write_then_read (cfg : CacheConfig) (key : string) (v : ProcessResult)
    (st : Memory.State) (t : Z) :
  0 <= Memory.ttlMs cfg ->
  let st1 := memory_at_time (Memory.set key v st).2 t in
  (Memory.ttlMs cfg = 0 \/ t - Memory.now st <= Memory.ttlMs cfg ->
   (Memory.get cfg key st1).1 = Ok (Some v)) /\
  (Memory.ttlMs cfg <> 0 -> Memory.ttlMs cfg < t - Memory.now st ->
   (Memory.get cfg key st1).1 = Ok None /\
   Memory.lookup key (Memory.entries (Memory.get cfg key st1).2) = None).
Proof. intros _. apply memory_get_at_time. Qed.

Lemma memory_write_then_read_witness :
  (Memory.get Demo.memory_cfg "k"
     (memory_at_time (Memory.set "k" Fixture.png_result Demo.memory0).2
        (Memory.now Demo.memory0 + 1000))).1
  = Ok (Some Fixture.png_result).
Proof.
  refine (proj1 (memory_write_then_read Demo.memory_cfg "k" Fixture.png_result Demo.memory0
                   (Memory.now Demo.memory0 + 1000) _) _).
  - vm_compute. discriminate.
  - right. vm_compute. discriminate.
Defined.

(** What a miss leaves in the memory backend: the entry of its result. *)
Lemma process_miss_memory_state (rt : Runtime) (config : OptimizerConfig) (cfg : CacheConfig)
    (input : ProcessInput) (parsed : Parsed) (key : string)
    (w w1 : World Memory.State) (r : ProcessResult) :
  process_miss rt config (Some (Memory.createMemoryCache cfg)) input parsed key w = (Ok r, w1) ->
  w_cache w1 = (Memory.set key r (w_cache w)).2.
Proof.
  unfold process_miss, sourceBuffer, transform, fetchImage. run_M.
  destruct (in_buffer input) as [b|]; simpl.
  - destruct (sharp_toBuffer rt b (pipeline config parsed)) as [out|]; simpl; [|discriminate].
    intros H. by inversion H.
  - destruct (got rt (default "" (p_url parsed))) as [body|]; simpl; [|discriminate].
    destruct (sharp_toBuffer rt body (pipeline config parsed)) as [out|]; simpl;
      [|discriminate].
    intros H. by inversion H.
Qed.

(** A miss always asks a collaborator for something. *)
Lemma process_miss_trace_grows (rt : Runtime) {St : Type} (config : OptimizerConfig)
    (cache : option (CacheLayer St)) (input : ProcessInput) (parsed : Parsed) (key : string)
    (w : World St) :
  exists evs, evs <> [] /\
    w_trace (process_miss rt config cache input parsed key w).2 = w_trace w ++ evs.
Proof.
  unfold process_miss, sourceBuffer, transform, fetchImage. run_M.
  destruct (in_buffer input) as [b|]; simpl.
  - destruct (sharp_toBuffer rt b (pipeline config parsed)) as [out|]; simpl.
    + destruct cache as [c|]; simpl.
      * destruct (cache_set c key _ (w_cache w)) as [[[]|e] st]; simpl; by eexists [_].
      * by eexists [_].
    + by eexists [_].
  - destruct (got rt (default "" (p_url parsed))) as [body|]; simpl.
    + destruct (sharp_toBuffer rt body (pipeline config parsed)) as [out|]; simpl.
      * destruct cache as [c|]; simpl.
        -- destruct (cache_set c key _ (w_cache w)) as [[[]|e] st]; simpl;
             rewrite <- app_assoc; by eexists [_; _].
        -- rewrite <- app_assoc. by eexists [_; _].
      * rewrite <- app_assoc. by eexists [_; _].
    + by eexists [_].
Qed.

(** X22. With the memory backend, after a call that found nothing under
    its key and returned a result, a later call for the same normalised
    request is served that result, without a fetch or a transform, for as
    long as the entry is fresh: when the TTL is 0, or when no more than
    the TTL has passed on the clock since the first call. Made later than
    that, the call misses and asks the fetcher or the engine again. *)
Theorem memory_repeat_is_served_from_cache (rt : Runtime) (config : OptimizerConfig)
    (cfg : CacheConfig) (first second : ProcessInput) (parsed : Parsed) (key : string)
    (w0 w1 : World Memory.State) (r : ProcessResult) (t : Z) :
  0 <= Memory.ttlMs cfg ->
  prepare rt config first = Ok (parsed, key) ->
  prepare rt config second = Ok (parsed, key) ->
  Memory.lookup key (Memory.entries (w_cache w0)) = None ->
  process rt config (Some (Memory.createMemoryCache cfg)) first w0 = (Ok r, w1) ->
  let later := {| w_cache := memory_at_time (w_cache w1) t; w_trace := w_trace w1 |} in
  let again := process rt config (Some (Memory.createMemoryCache cfg)) second later in
  (Memory.ttlMs cfg = 0 \/ t - Memory.now (w_cache w0) <= Memory.ttlMs cfg ->
     again.1 = Ok r /\ w_trace again.2 = w_trace w1) /\
  (Memory.ttlMs cfg <> 0 -> Memory.ttlMs cfg < t - Memory.now (w_cache w0) ->
     exists evs, evs <> [] /\ w_trace again.2 = w_trace w1 ++ evs).
Proof.
  intros _ H1 H2 Hnone Hrun later again.
  assert (Hget0 : cache_get (Memory.createMemoryCache cfg) key (w_cache w0)
                  = (Ok None, w_cache w0)).
  { simpl. unfold Memory.get. by rewrite Hnone. }
  rewrite (process_on_miss rt config _ first w0 parsed key _ H1 Hget0) in Hrun.
  apply process_miss_memory_state in Hrun. cbn [w_cache] in Hrun.
  destruct (memory_get_at_time cfg key r (w_cache w0) t) as [Hfresh Hstale].
  rewrite <- Hrun in Hfresh, Hstale.
  split.
  - intros Hf. specialize (Hfresh Hf).
    destruct (Memory.get cfg key (memory_at_time (w_cache w1) t)) as [g st2] eqn:Hg.
    simpl in Hfresh. subst g. subst again.
    by rewrite (process_hit rt config (Memory.createMemoryCache cfg) second later parsed key
                  r st2 H2 Hg).
  - intros Hne Hlt. destruct (Hstale Hne Hlt) as [Hmiss _].
    destruct (Memory.get cfg key (memory_at_time (w_cache w1) t)) as [g st2] eqn:Hg.
    simpl in Hmiss. subst g. subst again.
    rewrite (process_on_miss rt config (Memory.createMemoryCache cfg) second later parsed key
               st2 H2 Hg).
    apply (process_miss_trace_grows rt config _ _ parsed key
             {| w_cache := st2; w_trace := w_trace later |}).
Qed.

Lemma memory_repeat_is_served_from_cache_witness :
  let rt := Demo.runtime Zod4 in
  let once := process rt Demo.no_limits (Some Demo.memory) Demo.small (world0 Demo.memory0) in
  let in_time := {| w_cache := memory_at_time (w_cache once.2) 3601000;
                    w_trace := w_trace once.2 |} in
  let too_late := {| w_cache := memory_at_time (w_cache once.2) 3601001;
                     w_trace := w_trace once.2 |} in
  (process rt Demo.no_limits (Some Demo.memory) Demo.small_blue in_time).1
    = Ok Fixture.png_result /\
  exists evs, evs <> [] /\
    w_trace (process rt Demo.no_limits (Some Demo.memory) Demo.small_blue too_late).2
      = w_trace once.2 ++ evs.
Proof.
  intros rt once in_time too_late.
  assert (H : forall t, _) by
    (intros t; exact (memory_repeat_is_served_from_cache rt Demo.no_limits Demo.memory_cfg
       Demo.small Demo.small_blue
       {| p_url := None; p_w := Some 5; p_h := None; p_fit := cover;
          p_format := None; p_quality := None; p_crop := Some center;
          p_bg := None; p_blur := None; p_grayscale := None; p_rotate := None;
          p_placeholder := None |}
       (JSON_stringify [("u", JStr "buffer"); ("w", JNum 5); ("fit", JStr "cover");
                        ("q", JNum 80); ("c", JStr "center")])
       (world0 Demo.memory0) once.2 Fixture.png_result t
       ltac:(vm_compute; discriminate) eq_refl eq_refl eq_refl eq_refl)).
  split.
  - refine (proj1 (proj1 (H 3601000) _)). right. vm_compute. discriminate.
  - refine (proj2 (H 3601001) _ _).
    + vm_compute. discriminate.
    + vm_compute. reflexivity.
Defined.

(** ** Rotations the key cannot tell apart *)

Lemma rotate_in_pipeline (config : OptimizerConfig) (p : Parsed) (r : number) :
  p_rotate p = Some r -> truthy (JNum r) = true -> Rotate r ∈ pipeline config p.
Proof.
  intros Hr Ht.
  assert (Hb : Rotate r ∈ buildSharpPipeline [] p).
  { unfold buildSharpPipeline. rewrite Hr, Ht. rewrite elem_of_app, elem_of_cons. tauto. }
  unfold pipeline.
  destruct (decide (p_placeholder p = Some blur_ph));
    destruct (effective_format config p);
    rewrite ?elem_of_app; tauto.
Qed.

(** X23. A request whose rotation is an infinity gets through the schema
    under version 3 of zod only, and then the same request with the
    opposite infinity gets through as well and derives the same cache
    key, [JSON.stringify] writing both as [null]; yet each asks the
    engine for its own rotation. *)
Theorem infinite_rotations_share_a_key (rt : Runtime) (config : OptimizerConfig)
    (o : object) (p : Parsed) (s : bool) :
  querySchema_parse rt (set_prop o "rotate" (JNum (Infinity s))) = Ok p ->
  zod_major rt = Zod3 /\
  p_rotate p = Some (Infinity s) /\
  exists p',
    querySchema_parse rt (set_prop o "rotate" (JNum (Infinity (negb s)))) = Ok p' /\
    p_rotate p' = Some (Infinity (negb s)) /\
    cacheKey rt config p' = cacheKey rt config p /\
    Rotate (Infinity s) ∈ pipeline config p /\
    Rotate (Infinity (negb s)) ∈ pipeline config p'.
Proof.
  intros H. unfold querySchema_parse in *.
  rewrite prop_set_prop_eq in *. rewrite !prop_set_prop_ne in * by discriminate.
  repeat match type of H with
         | rbind ?r _ = Ok _ => destruct r as [?|?] eqn:?; simpl in H; [|discriminate]
         end.
  injection H as <-.
  match goal with
  | E : rmap Some (z_coerce_number rt _ (JNum (Infinity s))) = Ok _ |- _ =>
      unfold z_coerce_number, rmap, z_number_ok in E; simpl in E;
      destruct (zod_major rt) eqn:Hz; simpl in E; [|discriminate]; injection E as <-
  end.
  split; [done|]. split; [done|].
  assert (Hr : z_optional (z_coerce_number rt (fun _ => true)) (JNum (Infinity (negb s)))
               = Ok (Some (Infinity (negb s)))).
  { unfold z_optional, z_coerce_number, rmap, z_number_ok. simpl. by rewrite Hz. }
  rewrite Hr. cbn [rbind]. eexists. split; [reflexivity|]. simpl. split; [done|].
  split; [|split].
  - unfold cacheKey, source_identity. simpl. reflexivity.
  - by apply rotate_in_pipeline.
  - by apply rotate_in_pipeline.
Qed.

Lemma infinite_rotations_share_a_key_witness :
  deriveKey (Demo.runtime Zod3) Demo.no_limits [("w", JNum 5); ("rotate", JNum (Infinity true))]
  = deriveKey (Demo.runtime Zod3) Demo.no_limits [("w", JNum 5); ("rotate", JNum (Infinity false))]
  /\ Rotate (Infinity false) ∈ pipeline Demo.no_limits
       {| p_url := None; p_w := Some 5; p_h := None; p_fit := cover; p_format := None;
          p_quality := None; p_crop := None; p_bg := None; p_blur := None;
          p_grayscale := None; p_rotate := Some (Infinity false); p_placeholder := None |}.
Proof.
  destruct (infinite_rotations_share_a_key (Demo.runtime Zod3) Demo.no_limits
              [("w", JNum 5); ("rotate", JNum 0)]
              {| p_url := None; p_w := Some 5; p_h := None; p_fit := cover; p_format := None;
                 p_quality := None; p_crop := None; p_bg := None; p_blur := None;
                 p_grayscale := None; p_rotate := Some (Infinity false);
                 p_placeholder := None |}
              false eq_refl) as (_ & _ & p' & Hp' & _ & Hk & Hin & _).
  split; [|exact Hin].
  unfold deriveKey. simpl in Hp'. change (negb false) with true in Hp'.
  vm_compute in Hp'. injection Hp' as <-. vm_compute. reflexivity.
Defined.
